(** * Game-tree search agents (02-GameTrees/agents.py)

    A shallow embedding of the position evaluator, the move ordering and the
    two depth-limited searches ([minimax_ab], [negascout]) together with the
    two agents built on them, and the properties of the design document that
    they satisfy.

    Python integers are [Z]; the two floats the module uses, [math.inf] and
    [-math.inf], are the two extra points of [ext].  The module globals
    [max_depth], [max_player], [min_player] are an explicit store [Globals];
    [node.chosen_succ] is a field of the node a search hands back. *)

From Stdlib Require Import ZArith List Bool Lia Permutation Sorted.
Import ListNotations.
Local Open Scope Z_scope.

Set Implicit Arguments.

(** ** Numbers: Python ints extended with the two infinite floats *)

Inductive ext : Type :=
| NInf
| Fin (z : Z)
| PInf.

Module Ext.

Definition ltb (x y : ext) : bool :=
  match x, y with
  | NInf, NInf => false
  | NInf, _ => true
  | Fin a, Fin b => a <? b
  | Fin _, PInf => true
  | Fin _, NInf => false
  | PInf, _ => false
  end.

(** [x >= y] of Python. *)
Definition geb (x y : ext) : bool := negb (ltb x y).

Definition eqb (x y : ext) : bool :=
  match x, y with
  | NInf, NInf => true
  | Fin a, Fin b => a =? b
  | PInf, PInf => true
  | _, _ => false
  end.

(** Unary minus. *)
Definition neg (x : ext) : ext :=
  match x with
  | NInf => PInf
  | Fin a => Fin (- a)
  | PInf => NInf
  end.

(** [x - 1]; an infinite float absorbs the subtraction. *)
Definition pred (x : ext) : ext :=
  match x with
  | Fin a => Fin (a - 1)
  | _ => x
  end.

(** The builtin [max(x, y)]: the first argument unless the second is
    strictly greater. *)
Definition max (x y : ext) : ext := if ltb x y then y else x.
Definition min (x y : ext) : ext := if ltb y x then y else x.

Definition lt (x y : ext) : Prop :=
  match x, y with
  | NInf, NInf => False
  | NInf, _ => True
  | Fin a, Fin b => a < b
  | Fin _, PInf => True
  | Fin _, NInf => False
  | PInf, _ => False
  end.

Definition le (x y : ext) : Prop :=
  match x, y with
  | NInf, _ => True
  | Fin a, Fin b => a <= b
  | Fin _, PInf => True
  | Fin _, NInf => False
  | PInf, PInf => True
  | PInf, _ => False
  end.

Definition finite (x : ext) : Prop :=
  match x with
  | Fin _ => True
  | _ => False
  end.

End Ext.

(** ** Outcomes of a Python call *)

Inductive exn : Type := IndexError.

(** A call returns, raises, or (in the model only) exhausts the recursion
    budget it was given. *)
Inductive res (A : Type) : Type :=
| Ok (a : A)
| Raised (e : exn)
| OutOfFuel.

Arguments Ok {A} a.
Arguments Raised {A} e.
Arguments OutOfFuel {A}.

Definition bind {A B : Type} (c : res A) (k : A -> res B) : res B :=
  match c with
  | Ok a => k a
  | Raised e => Raised e
  | OutOfFuel => OutOfFuel
  end.

Notation "x <- c ;; k" := (bind c (fun x => k))
  (at level 61, c at next level, right associativity).

(** ** The collaborator: class [State] of module [state] *)

Inductive player : Type := RED | YEL.

(** The values [get_state_status] returns when the game is over; while it is
    in progress it returns [None]. *)
Inductive outcome : Type :=
| Won (p : player)
| DRAW.

Definition player_eqb (p q : player) : bool :=
  match p, q with
  | RED, RED | YEL, YEL => true
  | _, _ => false
  end.

(** [status == p] for a player [p]. *)
Definition status_is (status : option outcome) (p : player) : bool :=
  match status with
  | Some (Won q) => player_eqb q p
  | _ => false
  end.

Definition status_is_draw (status : option outcome) : bool :=
  match status with
  | Some DRAW => true
  | _ => false
  end.

(** Module [state] is imported by agents.py and is not part of the sources;
    its class is taken as a parameter, with the operations agents.py calls. *)
Class StateAPI (State : Type) : Type := {
  get_state_status : State -> option outcome;
  get_checkers : State -> player -> Z;
  get_possible_columns : State -> list Z;
  generate_successor_state : State -> Z -> State;
  get_next_on_move : State -> player;
  win_masks : list Z
}.

(** ** Module globals *)

Record Globals : Type := mkGlobals {
  max_depth : ext;
  max_player : player;
  min_player : player
}.

(** ** Nodes of the game tree *)

Record Node (State : Type) : Type := mkNode {
  state : State;
  col : Z;
  chosen_succ : option Z
}.

(** [Node(state, col)]. *)
Definition new_Node {State : Type} (s : State) (c : Z) : Node State :=
  mkNode s c None.

(** [node.chosen_succ = c]. *)
Definition set_chosen_succ {State : Type} (n : Node State) (c : Z) : Node State :=
  mkNode (state n) (col n) (Some c).

(** ** Helpers of the evaluator *)

(** [l[i]] with Python's negative indices and its [IndexError]. *)
Definition py_index {A : Type} (l : list A) (i : Z) : res A :=
  let n := Z.of_nat (length l) in
  let j := if i <? 0 then i + n else i in
  if (0 <=? j) && (j <? n)
  then match nth_error l (Z.to_nat j) with
       | Some a => Ok a
       | None => Raised IndexError
       end
  else Raised IndexError.

Definition col_priority (column : Z) : res Z :=
  py_index [1; 3; 5; 6; 4; 2; 0] column.

(** One turn of the loop of [count_tokens] on the pair [(cnt, mask)]. *)
Definition count_step (checkers : Z) (st : Z * Z) : Z * Z :=
  let '(cnt, mask) := st in
  (if Z.land checkers mask =? 0 then cnt else cnt + 1, Z.shiftl mask 1).

Definition count_tokens (checkers : Z) : Z :=
  fst (fold_left (fun st (_ : nat) => count_step checkers st) (seq 0 42) (0, 1)).

(** The sort key of a column: the pair the [lambda] of the searches builds. *)
Abbreviation key := (Z * Z)%type.

Section Search.

Context {State : Type} {API : StateAPI State}.

Definition is_terminal_node (s : State) : bool :=
  match get_state_status s with
  | Some _ => true
  | None => false
  end.

(** One turn of the loop over [State.win_masks] on the pair
    [(max_wins_cnt, max_losses_cnt)]. *)
Definition mask_step (max_player_tokens min_player_tokens : Z)
    (cnts : Z * Z) (mask : Z) : Z * Z :=
  let '(max_wins_cnt, max_losses_cnt) := cnts in
  (if Z.land mask min_player_tokens =? 0 then max_wins_cnt + 1 else max_wins_cnt,
   if Z.land mask max_player_tokens =? 0 then max_losses_cnt + 1 else max_losses_cnt).

Definition node_evaluation (g : Globals) (s : State) : Z :=
  let status := get_state_status s in
  if status_is status (max_player g) then
    1000 - count_tokens (get_checkers s (max_player g))
  else if status_is status (min_player g) then
    -1000 + count_tokens (get_checkers s (min_player g))
  else if status_is_draw status then 0
  else
    let max_player_tokens := get_checkers s (max_player g) in
    let min_player_tokens := get_checkers s (min_player g) in
    let '(max_wins_cnt, max_losses_cnt) :=
      fold_left (mask_step max_player_tokens min_player_tokens) win_masks (0, 0) in
    max_wins_cnt - max_losses_cnt.

(** *** Move ordering: [sorted(columns, key=..., reverse=True)] *)

(** Tuples compare lexicographically. *)
Definition key_ltb (k1 k2 : key) : bool :=
  (fst k1 <? fst k2) || ((fst k1 =? fst k2) && (snd k1 <? snd k2)).

Definition sort_key (g : Globals) (s : State) (column : Z) : res key :=
  p <- col_priority column ;;
  Ok (node_evaluation g (generate_successor_state s column), p).

(** The keys are computed once per element, in list order. *)
Fixpoint keyed (g : Globals) (s : State) (columns : list Z) : res (list (key * Z)) :=
  match columns with
  | [] => Ok []
  | c :: rest =>
      k <- sort_key g s c ;;
      ks <- keyed g s rest ;;
      Ok ((k, c) :: ks)
  end.

(** Stable insertion in a list sorted by descending key: the new element,
    which came earlier in the input, goes before the elements of equal key. *)
Fixpoint insert_desc (x : key * Z) (l : list (key * Z)) : list (key * Z) :=
  match l with
  | [] => [x]
  | y :: l' => if key_ltb (fst x) (fst y) then y :: insert_desc x l' else x :: l
  end.

Definition sort_desc (l : list (key * Z)) : list (key * Z) :=
  fold_right insert_desc [] l.

Definition sorted_columns (g : Globals) (s : State) : res (list Z) :=
  ks <- keyed g s (get_possible_columns s) ;;
  Ok (map snd (sort_desc ks)).

(** *** Alpha-beta minimax *)

(** The test [is_terminal_node(node.state) or depth == max_depth]. *)
Definition cutoff (g : Globals) (s : State) (depth : Z) : bool :=
  is_terminal_node s || Ext.eqb (Fin depth) (max_depth g).

(** The recursive calls of a search, at the budget left. *)
Definition search : Type :=
  Node State -> player -> ext -> ext -> Z -> res (ext * Node State).

(** The [for] loop of the branch [player == max_player]. *)
Fixpoint max_loop (g : Globals) (rec : search) (sorted_cols : list Z)
    (node : Node State) (score alpha beta : ext) (depth : Z)
    : res (ext * Node State) :=
  match sorted_cols with
  | [] => Ok (score, node)
  | c :: rest =>
      let child_state := generate_successor_state (state node) c in
      r <- rec (new_Node child_state c) (min_player g) alpha beta (depth + 1) ;;
      let child_score := fst r in
      let '(score, alpha, node) :=
        if Ext.ltb score child_score
        then (child_score, child_score, set_chosen_succ node c)
        else (score, alpha, node) in
      if Ext.geb alpha beta then Ok (score, node)
      else max_loop g rec rest node score alpha beta depth
  end.

(** The [for] loop of the other branch. *)
Fixpoint min_loop (g : Globals) (rec : search) (sorted_cols : list Z)
    (node : Node State) (score alpha beta : ext) (depth : Z)
    : res (ext * Node State) :=
  match sorted_cols with
  | [] => Ok (score, node)
  | c :: rest =>
      let child_state := generate_successor_state (state node) c in
      r <- rec (new_Node child_state c) (max_player g) alpha beta (depth + 1) ;;
      let child_score := fst r in
      let '(score, beta, node) :=
        if Ext.ltb child_score score
        then (child_score, child_score, set_chosen_succ node c)
        else (score, beta, node) in
      if Ext.geb alpha beta then Ok (score, node)
      else min_loop g rec rest node score alpha beta depth
  end.

(** [minimax_ab(node, player, alpha, beta, depth)]; [fuel] bounds the number
    of nested calls below this one. The result pairs the value returned
    with the node as the call leaves it. *)
Fixpoint minimax_ab (g : Globals) (fuel : nat) (node : Node State)
    (p : player) (alpha beta : ext) (depth : Z) : res (ext * Node State) :=
  if cutoff g (state node) depth then
    Ok (Fin (node_evaluation g (state node)), node)
  else
    match fuel with
    | O => OutOfFuel
    | S fuel' =>
        sorted_cols <- sorted_columns g (state node) ;;
        if player_eqb p (max_player g)
        then max_loop g (minimax_ab g fuel') sorted_cols node NInf alpha beta depth
        else min_loop g (minimax_ab g fuel') sorted_cols node PInf alpha beta depth
    end.

(** *** NegaScout *)

(** [sorted_cols[0]] inside the loop, where the list is not empty. *)
Definition first_col (sorted_cols : list Z) : Z := hd 0 sorted_cols.

Fixpoint negascout_loop (rec : search) (other_player : player) (first : Z)
    (cols : list Z) (node : Node State) (score alpha beta : ext) (depth : Z)
    : res (ext * Node State) :=
  match cols with
  | [] => Ok (score, node)
  | c :: rest =>
      let child_state := generate_successor_state (state node) c in
      r <- (if c =? first then
              r1 <- rec (new_Node child_state c) other_player
                      (Ext.neg beta) (Ext.neg alpha) (depth + 1) ;;
              Ok (Ext.neg (fst r1), set_chosen_succ node c)
            else
              r1 <- rec (new_Node child_state c) other_player
                      (Ext.pred (Ext.neg alpha)) (Ext.neg alpha) (depth + 1) ;;
              let child_score := Ext.neg (fst r1) in
              if Ext.ltb alpha child_score && Ext.ltb child_score beta then
                r2 <- rec (new_Node child_state c) other_player
                        (Ext.neg beta) (Ext.neg alpha) (depth + 1) ;;
                Ok (Ext.neg (fst r2), set_chosen_succ node c)
              else Ok (child_score, node)) ;;
      let '(child_score, node) := r in
      let score := Ext.max score child_score in
      let alpha := Ext.max alpha score in
      if Ext.geb alpha beta then Ok (score, node)
      else negascout_loop rec other_player first rest node score alpha beta depth
  end.

Fixpoint negascout (g : Globals) (fuel : nat) (node : Node State)
    (p : player) (alpha beta : ext) (depth : Z) : res (ext * Node State) :=
  if cutoff g (state node) depth then
    Ok (Fin (node_evaluation g (state node)
             * (if player_eqb p (min_player g) then -1 else 1)), node)
  else
    match fuel with
    | O => OutOfFuel
    | S fuel' =>
        let other_player :=
          if player_eqb p (min_player g) then max_player g else min_player g in
        sorted_cols <- sorted_columns g (state node) ;;
        negascout_loop (negascout g fuel') other_player (first_col sorted_cols)
          sorted_cols node NInf alpha beta depth
    end.

(** *** The agents *)

(** The three assignments to the globals at the head of
    [get_chosen_column]. *)
Definition set_globals (s : State) (depth : Z) : Globals :=
  let max_p := get_next_on_move s in
  let min_p := if player_eqb max_p YEL then RED else YEL in
  mkGlobals (if negb (depth =? 0) then Fin depth else PInf) max_p min_p.

(** [MinimaxABAgent.get_chosen_column]: the store [g] it finds is
    overwritten; the result pairs the store it leaves with the value it
    returns ([None] of Python is [None]). *)
Definition MinimaxABAgent_get_chosen_column (fuel : nat) (g : Globals)
    (s : State) (depth : Z) : res (Globals * option Z) :=
  let g := set_globals s depth in
  let root := new_Node s (-1) in
  r <- minimax_ab g fuel root (max_player g) NInf PInf 0 ;;
  let root := snd r in
  Ok (g, chosen_succ root).

(** [Negascout.get_chosen_column]. *)
Definition Negascout_get_chosen_column (fuel : nat) (g : Globals)
    (s : State) (depth : Z) : res (Globals * option Z) :=
  let g := set_globals s depth in
  let root := new_Node s (-1) in
  r <- negascout g fuel root (max_player g) NInf PInf 0 ;;
  let root := snd r in
  Ok (g, chosen_succ root).

End Search.

(** ** What the searches are compared with *)

Section Reference.

Context {State : Type} {API : StateAPI State}.

(** The order in which a node's columns are visited when the sort raises
    nothing. *)
Definition ordered (g : Globals) (s : State) : list Z :=
  match sorted_columns g s with
  | Ok l => l
  | _ => []
  end.

(** Plain minimax without pruning: the value of [s] for the maximizer when
    [maximizing] tells whose turn it is; [fuel] as in the searches. *)
Fixpoint minimax_value (g : Globals) (fuel : nat) (s : State)
    (maximizing : bool) (depth : Z) : ext :=
  if cutoff g s depth then Fin (node_evaluation g s)
  else
    match fuel with
    | O => Fin 0
    | S fuel' =>
        let values :=
          map (fun c => minimax_value g fuel' (generate_successor_state s c)
                          (negb maximizing) (depth + 1)) (ordered g s) in
        if maximizing then fold_right Ext.max NInf values
        else fold_right Ext.min PInf values
    end.

(** Every line of play from [s] reaches a terminal position or the depth
    bound within [fuel] plies. *)
Fixpoint bounded (g : Globals) (fuel : nat) (s : State) (depth : Z) : bool :=
  cutoff g s depth ||
  match fuel with
  | O => false
  | S fuel' =>
      forallb (fun c => bounded g fuel' (generate_successor_state s c) (depth + 1))
        (get_possible_columns s)
  end.

(** The contract of the collaborator: columns are indices of the seven
    columns, and a position in progress has a legal column. *)
Definition columns_in_range : Prop :=
  forall (s : State) (c : Z), In c (get_possible_columns s) -> 0 <= c < 7.

Definition in_progress_has_column : Prop :=
  forall s : State, get_state_status s = None -> get_possible_columns s <> [].

(** The number of tokens a player has placed: the cells, among the 42 of
    the board, that are set in the player's checkers. *)
Definition tokens_placed (checkers : Z) : Z :=
  Z.of_nat (length (filter (fun i => Z.testbit checkers (Z.of_nat i)) (seq 0 42))).

(** The number of winning lines that contain no cell of [tokens]. *)
Definition lines_without (tokens : Z) : Z :=
  Z.of_nat (length (filter (fun mask => Z.land mask tokens =? 0) win_masks)).

(** The head of a list is of the largest key. *)
Definition head_largest (l : list (key * Z)) : Prop :=
  forall x r, l = x :: r -> forall y, In y l -> key_ltb (fst x) (fst y) = false.

(** What a search with window [(a, b)] promises of the value [v] it returns
    at a node of exact value [t]: an upper bound when it fails low, a lower
    bound when it fails high, the exact value inside the window. *)
Definition within (a b t v : ext) : Prop :=
  (Ext.le v a -> Ext.le t v)
  /\ (Ext.le b v -> Ext.le v t)
  /\ (Ext.lt a v -> Ext.lt v b -> Ext.le v t /\ Ext.le t v).

(** The exact value of [s] for the player [p] who is to move. *)
Definition negamax_value (g : Globals) (fuel : nat) (s : State) (p : player)
    (depth : Z) : ext :=
  if player_eqb p (max_player g) then minimax_value g fuel s true depth
  else Ext.neg (minimax_value g fuel s false depth).

(** The calls [rec] makes for the children of [s] in [cols], with [p] to
    move, answer every proper window with a value within it; [t c] is the
    exact value of the child by column [c]. *)
Definition answers (rec : search) (s : State) (p : player) (depth : Z)
    (t : Z -> ext) (cols : list Z) : Prop :=
  forall c, In c cols -> forall a b, Ext.lt a b ->
    exists v n,
      rec (new_Node (generate_successor_state s c) c) p a b (depth + 1) = Ok (v, n)
      /\ within a b (t c) v.

(** The score of a finished game: the three terminal branches of
    [node_evaluation], for the outcome [o] of the position [s]. *)
Definition terminal_score (g : Globals) (s : State) (o : outcome) : Z :=
  match o with
  | Won q =>
      if player_eqb q (max_player g)
      then 1000 - count_tokens (get_checkers s (max_player g))
      else -1000 + count_tokens (get_checkers s (min_player g))
  | DRAW => 0
  end.

(** The key [sorted] computes for a column whose priority exists. *)
Definition sort_key_value (g : Globals) (s : State) (column : Z) : key :=
  match sort_key g s column with
  | Ok k => k
  | _ => (0, 0)
  end.

(** No later column of the list has a greater key than an earlier one. *)
Definition descending_keys (g : Globals) (s : State) (l : list Z) : Prop :=
  StronglySorted
    (fun c c' => key_ltb (sort_key_value g s c) (sort_key_value g s c') = false) l.

(** The largest magnitude an evaluation can have. *)
Definition evaluation_bound : Z := Z.max 1000 (Z.of_nat (length win_masks)).

(** The globals with the roles of the two players exchanged. *)
Definition swap_players (g : Globals) : Globals :=
  mkGlobals (max_depth g) (min_player g) (max_player g).

(** The factor NegaScout applies to the evaluation at a leaf. *)
Definition negamax_sign (g : Globals) (p : player) : Z :=
  if player_eqb p (min_player g) then -1 else 1.

End Reference.

(** A finite value of magnitude at most [B]. *)
Definition value_in_range (B : Z) (v : ext) : Prop :=
  match v with
  | Fin z => - B <= z <= B
  | _ => False
  end.

(** The first of the columns [cols] whose value under [t] is the largest,
    with that value, starting from the best column known. *)
Definition first_best (t : Z -> ext) (cols : list Z) (start : Z * ext) : Z * ext :=
  fold_left (fun best c => if Ext.ltb (snd best) (t c) then (c, t c) else best)
    cols start.

(** ** A concrete collaborator: the 7 x 6 board *)

(** Modelled from the spec: class [State] of module [state], which agents.py
    imports and the sources do not contain.  The cells are numbered as in the
    header of agents.py (column [c], row [r] is bit [6 * c + r]); a player's
    checkers are the bitmask of the cells the player occupies; the winning
    lines are the four-in-a-row masks; a token dropped in a column lands on
    its lowest free cell.  It serves as the concrete input of the examples. *)
Module Connect4.

Record board : Type := mkBoard {
  red : Z;
  yel : Z;
  next : player
}.

Definition cell (c r : Z) : Z := Z.shiftl 1 (6 * c + r).

Definition line (c r dc dr : Z) : Z :=
  Z.lor (cell c r)
    (Z.lor (cell (c + dc) (r + dr))
       (Z.lor (cell (c + 2 * dc) (r + 2 * dr)) (cell (c + 3 * dc) (r + 3 * dr)))).

Definition lines_from (cs rs : list Z) (dc dr : Z) : list Z :=
  flat_map (fun c => map (fun r => line c r dc dr) rs) cs.

Definition masks : list Z :=
  lines_from [0; 1; 2; 3] [0; 1; 2; 3; 4; 5] 1 0
  ++ lines_from [0; 1; 2; 3; 4; 5; 6] [0; 1; 2] 0 1
  ++ lines_from [0; 1; 2; 3] [0; 1; 2] 1 1
  ++ lines_from [0; 1; 2; 3] [3; 4; 5] 1 (-1).

Definition checkers (b : board) (p : player) : Z :=
  match p with
  | RED => red b
  | YEL => yel b
  end.

Definition occupied (b : board) : Z := Z.lor (red b) (yel b).

Definition has_line (tokens : Z) : bool :=
  existsb (fun m => Z.land m tokens =? m) masks.

Definition columns (b : board) : list Z :=
  filter (fun c => negb (Z.testbit (occupied b) (6 * c + 5))) [0; 1; 2; 3; 4; 5; 6].

Definition status (b : board) : option outcome :=
  if has_line (red b) then Some (Won RED)
  else if has_line (yel b) then Some (Won YEL)
  else match columns b with
       | [] => Some DRAW
       | _ => None
       end.

Definition other (p : player) : player :=
  match p with
  | RED => YEL
  | YEL => RED
  end.

(** The lowest free row of a column, 6 when the column is full. *)
Definition free_row (b : board) (c : Z) : Z :=
  fold_right (fun r acc => if Z.testbit (occupied b) (6 * c + r) then acc else r)
    6 [0; 1; 2; 3; 4; 5].

Definition drop (b : board) (c : Z) : board :=
  let bit := cell c (free_row b c) in
  match next b with
  | RED => mkBoard (Z.lor (red b) bit) (yel b) YEL
  | YEL => mkBoard (red b) (Z.lor (yel b) bit) RED
  end.

#[global] Instance api : StateAPI board := {
  get_state_status := status;
  get_checkers := checkers;
  get_possible_columns := columns;
  generate_successor_state := drop;
  get_next_on_move := next;
  win_masks := masks
}.

Definition empty : board := mkBoard 0 0 RED.

(** The position after the columns [cs] were played in turn. *)
Definition play (cs : list Z) : board := fold_left drop cs empty.

(** Red has three tokens in column 3, yellow three in column 0; red is to
    move. *)
Definition red_threat : board := play [3; 0; 3; 0; 3; 0].

(** Red has completed column 3. *)
Definition red_wins : board := drop red_threat 3.

(** The store a search for red leaves when its depth bound is 1. *)
Definition red_first : Globals := mkGlobals (Fin 1) RED YEL.

End Connect4.

(** * Sliding-tile search (01-Pathfinding/algorithms.py, heuristics.py)

    A state is the tuple of the tiles in row-major order, tile 0 being the
    empty cell; [config.N], the number of rows, is a parameter.  A method of
    an [Algorithm] object reads and writes the two counters of the object,
    also when it raises: a method is a function from the counters to an
    outcome and the counters it leaves. *)
Module Pathfinding.

Inductive error : Type := ValueError | ZeroDivisionError | IndexError.

(** A call returns, raises, or (in the model only) exhausts the number of
    loop iterations it was given. *)
Inductive result (A : Type) : Type :=
| Return (a : A)
| Raise (e : error)
| Unfinished.

Arguments Return {A} a.
Arguments Raise {A} e.
Arguments Unfinished {A}.

(** The attributes of an [Algorithm] object that its methods update. *)
Record Algorithm : Type := mkAlgorithm {
  nodes_evaluated : Z;
  nodes_generated : Z
}.

Definition M (A : Type) : Type := Algorithm -> result A * Algorithm.

Definition ret {A : Type} (a : A) : M A := fun self => (Return a, self).

Definition lift {A : Type} (r : result A) : M A := fun self => (r, self).

Definition mbind {A B : Type} (c : M A) (k : A -> M B) : M B :=
  fun self =>
    match c self with
    | (Return a, self') => k a self'
    | (Raise e, self') => (Raise e, self')
    | (Unfinished, self') => (Unfinished, self')
    end.

Declare Scope method_scope.
Delimit Scope method_scope with method.
Notation "x <- c ;; k" := (mbind c (fun x => k))
  (at level 61, c at next level, right associativity) : method_scope.
Local Open Scope method_scope.

(** [self.nodes_evaluated += 1] and [self.nodes_generated += 1]. *)
Definition count_evaluated : M unit :=
  fun self => (Return tt, mkAlgorithm (nodes_evaluated self + 1) (nodes_generated self)).

Definition count_generated : M unit :=
  fun self => (Return tt, mkAlgorithm (nodes_evaluated self) (nodes_generated self + 1)).

(** ** Tuples and lists of Python *)

Definition len (state : list Z) : Z := Z.of_nat (length state).

(** [state.index(x)]: the least index that holds [x]. *)
Fixpoint find_index (state : list Z) (x : Z) : option Z :=
  match state with
  | [] => None
  | tile :: rest =>
      if tile =? x then Some 0
      else match find_index rest x with
           | Some i => Some (i + 1)
           | None => None
           end
  end.

Definition index (state : list Z) (x : Z) : result Z :=
  match find_index state x with
  | Some i => Return i
  | None => Raise ValueError
  end.

(** The position a subscript [i] denotes in a sequence of length [n]: a
    negative subscript counts from the end. *)
Definition position (n i : Z) : result nat :=
  if (0 <=? i) && (i <? n) then Return (Z.to_nat i)
  else if (- n <=? i) && (i <? 0) then Return (Z.to_nat (i + n))
  else Raise IndexError.

Fixpoint update (l : list Z) (k : nat) (v : Z) : list Z :=
  match l, k with
  | [], _ => []
  | _ :: rest, O => v :: rest
  | x :: rest, S k => x :: update rest k v
  end.

(** [l[i]] and [l[i] = v]. *)
Definition getitem (l : list Z) (i : Z) : result Z :=
  match position (len l) i with
  | Return k => Return (nth k l 0)
  | Raise e => Raise e
  | Unfinished => Unfinished
  end.

Definition setitem (l : list Z) (i : Z) (v : Z) : result (list Z) :=
  match position (len l) i with
  | Return k => Return (update l k v)
  | Raise e => Raise e
  | Unfinished => Unfinished
  end.

(** [a % n] and [a // n]: [Z.modulo] and [Z.div] round as Python does; a
    zero divisor raises. *)
Definition py_mod (a n : Z) : result Z :=
  if n =? 0 then Raise ZeroDivisionError else Return (a mod n).

Definition py_floordiv (a n : Z) : result Z :=
  if n =? 0 then Raise ZeroDivisionError else Return (a / n).

Definition state_eqb (s1 s2 : list Z) : bool :=
  if list_eq_dec Z.eq_dec s1 s2 then true else false.

Section Puzzle.

(** [config.N] *)
Variable N : Z.

(** [Algorithm.get_legal_actions] *)
Definition get_legal_actions (state : list Z) : M (list Z) :=
  _ <- count_evaluated ;;
  let max_index := len state in
  zero_tile_ind <- lift (index state 0) ;;
  let legal_actions := [] in
  let legal_actions :=
    if 0 <=? zero_tile_ind - N then legal_actions ++ [zero_tile_ind - N]
    else legal_actions in
  let legal_actions :=
    if zero_tile_ind + N <? max_index then legal_actions ++ [zero_tile_ind + N]
    else legal_actions in
  right <- lift (py_mod (zero_tile_ind + 1) N) ;;
  let legal_actions :=
    if negb (right =? 0) then legal_actions ++ [zero_tile_ind + 1]
    else legal_actions in
  left <- lift (py_mod zero_tile_ind N) ;;
  let legal_actions :=
    if negb (left =? 0) then legal_actions ++ [zero_tile_ind - 1]
    else legal_actions in
  ret legal_actions.

(** [Algorithm.apply_action]: the right-hand side of the swap is read
    before the two stores. *)
Definition apply_action (state : list Z) (action : Z) : M (list Z) :=
  _ <- count_generated ;;
  let copy_state := state in
  zero_tile_ind <- lift (index state 0) ;;
  zero <- lift (getitem copy_state zero_tile_ind) ;;
  tile <- lift (getitem copy_state action) ;;
  copy_state <- lift (setitem copy_state action zero) ;;
  copy_state <- lift (setitem copy_state zero_tile_ind tile) ;;
  ret copy_state.

(** ** Heuristics *)

(** [HammingHeuristic.get_evaluation]: the loop over the tiles, from the
    values [order] and [heuristic] have on entry. *)
Fixpoint hamming_loop (state : list Z) (order heuristic : Z) : Z :=
  match state with
  | [] => heuristic
  | tile :: rest =>
      let heuristic :=
        if negb (tile =? 0) && negb (tile - 1 =? order) then heuristic + 1
        else heuristic in
      hamming_loop rest (order + 1) heuristic
  end.

Definition HammingHeuristic_get_evaluation (state : list Z) : Z :=
  hamming_loop state 0 0.

Definition rbind {A B : Type} (c : result A) (k : A -> result B) : result B :=
  match c with
  | Return a => k a
  | Raise e => Raise e
  | Unfinished => Unfinished
  end.

(** [ManhattanHeuristic.get_evaluation] *)
Fixpoint manhattan_loop (state : list Z) (order heuristic : Z) : result Z :=
  match state with
  | [] => Return heuristic
  | tile :: rest =>
      if negb (tile =? 0) && negb (tile - 1 =? order) then
        rbind (py_floordiv (tile - 1) N) (fun tile_row =>
        rbind (py_floordiv order N) (fun order_row =>
        let row_mov := Z.abs (tile_row - order_row) in
        rbind (py_mod (tile - 1) N) (fun tile_col =>
        rbind (py_mod order N) (fun order_col =>
        let col_mov := Z.abs (tile_col - order_col) in
        manhattan_loop rest (order + 1) (heuristic + (row_mov + col_mov))))))
      else manhattan_loop rest (order + 1) heuristic
  end.

Definition ManhattanHeuristic_get_evaluation (state : list Z) : result Z :=
  manhattan_loop state 0 0.

(** ** Breadth-first search *)

(** [Node]: the parent is [None] for the root only, every other node is
    given its parent when it is created. *)
#[warnings="-register-all"]
Inductive Node : Type :=
| mkNode (action : Z) (state : list Z) (parent : option Node).

Definition action (node : Node) : Z := let (a, _, _) := node in a.
Definition state (node : Node) : list Z := let (_, s, _) := node in s.
Definition parent (node : Node) : option Node := let (_, _, p) := node in p.

(** The body of the [for] loop of [BFSAlgorithm.get_steps] over the
    actions left, appending to the queue. *)
Fixpoint expand (node : Node) (actions : list Z) (queue : list Node)
  : M (list Node) :=
  match actions with
  | [] => ret queue
  | action :: actions =>
      new_state <- apply_action (state node) action ;;
      let new_node := mkNode action new_state (Some node) in
      expand node actions (queue ++ [new_node])
  end.

(** The [while] loop of [BFSAlgorithm.get_steps]; [popleft] on an empty
    deque raises [IndexError]. *)
Fixpoint bfs_loop (fuel : nat) (goal_state : list Z) (node : Node)
    (queue : list Node) (visited_set : list (list Z)) : M Node :=
  match fuel with
  | O => lift Unfinished
  | S fuel =>
      if state_eqb (state node) goal_state then ret node
      else
        match queue with
        | [] => lift (Raise IndexError)
        | node :: queue =>
            if existsb (state_eqb (state node)) visited_set then
              bfs_loop fuel goal_state node queue visited_set
            else
              let visited_set := state node :: visited_set in
              actions <- get_legal_actions (state node) ;;
              queue <- expand node actions queue ;;
              bfs_loop fuel goal_state node queue visited_set
        end
  end.

(** The second loop: the actions from the node found back to the root, the
    one node without a parent. *)
Fixpoint backtrack (node : Node) (solution_actions : list Z) : list Z :=
  match node with
  | mkNode action _ (Some parent) => backtrack parent (solution_actions ++ [action])
  | mkNode _ _ None => solution_actions
  end.

(** [BFSAlgorithm.get_steps]; the states are tuples, compared by value. *)
Definition BFSAlgorithm_get_steps (fuel : nat) (initial_state goal_state : list Z)
  : M (list Z) :=
  let root := mkNode (-1) initial_state None in
  node <- bfs_loop fuel goal_state root [root] [] ;;
  ret (rev (backtrack node [])).

(** ** Reference notions *)

(** The state reached from [state] by the actions in turn, each taken from
    the legal actions of the state it is applied to; [None] when an action
    is not legal or a call raises. *)
Fixpoint replay (state : list Z) (actions : list Z) (self : Algorithm)
  : option (list Z) :=
  match actions with
  | [] => Some state
  | action :: actions =>
      match get_legal_actions state self with
      | (Return legal_actions, self) =>
          if existsb (Z.eqb action) legal_actions then
            match apply_action state action self with
            | (Return new_state, self) => replay new_state actions self
            | _ => None
            end
          else None
      | _ => None
      end
  end.

(** A node whose chain of parents goes back to a root of state
    [initial_state], each node reached from its parent by a legal action of
    the parent's state. *)
Fixpoint linked (initial_state : list Z) (node : Node) : Prop :=
  match node with
  | mkNode _ s None => s = initial_state
  | mkNode a s (Some p) =>
      linked initial_state p
      /\ exists legal_actions self1 self1' self2 self2',
           get_legal_actions (state p) self1 = (Return legal_actions, self1')
           /\ In a legal_actions
           /\ apply_action (state p) a self2 = (Return s, self2')
  end.

End Puzzle.

(** The number of steps from the root to a node. *)
Fixpoint depth (node : Node) : nat :=
  match node with
  | mkNode _ _ None => O
  | mkNode _ _ (Some p) => S (depth p)
  end.

(** A state that an expanded node or a queued node holds at depth [j] at
    most. *)
Definition covered (expanded queue : list Node) (s : list Z) (j : nat) : Prop :=
  (exists e, In e expanded /\ state e = s /\ (depth e <= j)%nat)
  \/ (exists n, In n queue /\ state n = s /\ (depth n <= j)%nat).

Section Layers.

Variable N : Z.

(** What holds each time the [while] loop of [BFSAlgorithm.get_steps] tests
    its condition, [node] being the node popped last and [expanded] the
    nodes whose states were added to [visited_set], latest first: the queue
    holds the nodes of the depth of [node] before those one step deeper;
    no node was expanded below an earlier one; only [node] may hold the goal
    state; every state within [depth node] steps of the initial state, and
    every successor of an expanded state, is held by an expanded or a queued
    node no deeper than the steps taken. *)
Definition bfs_invariant (initial_state goal_state : list Z) (node : Node)
    (queue : list Node) (visited_set : list (list Z)) : Prop :=
  exists expanded same deeper,
    visited_set = map state expanded
    /\ queue = same ++ deeper
    /\ Forall (fun n => depth n = depth node) same
    /\ Forall (fun n => depth n = S (depth node)) deeper
    /\ Forall (fun e => (depth e <= depth node)%nat) expanded
    /\ (forall e, In e expanded -> state e = goal_state -> e = node)
    /\ (forall actions s self,
          (length actions <= depth node)%nat ->
          replay N initial_state actions self = Some s ->
          covered expanded queue s (length actions))
    /\ (forall e a s self,
          In e expanded ->
          replay N (state e) [a] self = Some s ->
          covered expanded queue s (S (depth e))).

End Layers.

(** The lists of length [n] over the tiles [alphabet]. *)
Fixpoint words (alphabet : list Z) (n : nat) : list (list Z) :=
  match n with
  | O => [[]]
  | S n => flat_map (fun w => map (fun x => x :: w) alphabet) (words alphabet n)
  end.

(** The sum over the tiles of [state] of a cost [f tile order], [order]
    being the index of the tile counted from [order] on. *)
Fixpoint total (f : Z -> Z -> Z) (state : list Z) (order : Z) : Z :=
  match state with
  | [] => 0
  | tile :: rest => f tile order + total f rest (order + 1)
  end.

(** A tile other than the empty one that is not at its goal index. *)
Definition misplaced (tile order : Z) : bool :=
  negb (tile =? 0) && negb (tile - 1 =? order).

(** What a tile at index [order] adds to each heuristic. *)
Definition hamming_cost (tile order : Z) : Z :=
  if misplaced tile order then 1 else 0.

Definition manhattan_cost (N tile order : Z) : Z :=
  if misplaced tile order then
    Z.abs ((tile - 1) / N - order / N) + Z.abs ((tile - 1) mod N - order mod N)
  else 0.

(** ** Examples: the 3 x 3 puzzle *)

(** An [Algorithm] object as [__init__] leaves it. *)
Definition fresh : Algorithm := mkAlgorithm 0 0.

(** The empty tile in the middle of the board. *)
Definition centre_state : list Z := [1; 2; 3; 4; 0; 5; 6; 7; 8].

(** Two moves away from the sorted board. *)
Definition two_moves_state : list Z := [1; 2; 3; 4; 5; 6; 0; 7; 8].

Definition sorted_state : list Z := [1; 2; 3; 4; 5; 6; 7; 8; 0].

End Pathfinding.

(** * Informed search (01-Pathfinding/algorithms.py, [heapq])

    The two informed searches keep their open nodes in a list handled by
    [heapq.heappush] and [heapq.heappop]; the two functions and their
    helpers [_siftdown] and [_siftup] are modelled from [heapq.py] of
    CPython, the library module algorithms.py imports, with the comparison
    [<] of the items as a parameter. *)
Module HeapQ.

Section Heap.

Variable A : Type.

(** [x < y], the [__lt__] of the items. *)
Variable lt : A -> A -> bool.

(** [heap[k] = v] *)
Fixpoint set (heap : list A) (k : nat) (v : A) : list A :=
  match heap, k with
  | [], _ => []
  | _ :: rest, O => v :: rest
  | x :: rest, S k => x :: set rest k v
  end.

(** The loop of [_siftdown]: [newitem] is on its way to the root, [pos] is
    the free cell; the loop runs [pos] times at most. *)
Fixpoint siftdown_loop (fuel : nat) (heap : list A) (newitem : A)
    (startpos pos : nat) : list A :=
  match fuel with
  | O => set heap pos newitem
  | S fuel =>
      if (startpos <? pos)%nat then
        let parentpos := ((pos - 1) / 2)%nat in
        let parent := nth parentpos heap newitem in
        if lt newitem parent then
          siftdown_loop fuel (set heap pos parent) newitem startpos parentpos
        else set heap pos newitem
      else set heap pos newitem
  end.

(** [_siftdown(heap, startpos, pos)], [newitem] being [heap[pos]]. *)
Definition siftdown (heap : list A) (newitem : A) (startpos pos : nat) : list A :=
  siftdown_loop pos heap newitem startpos pos.

(** The loop of [_siftup] and the two statements after it: the smaller
    child moves up until [pos] is a leaf, then [newitem] is put there and
    sifted down; the loop runs [endpos] times at most. *)
Fixpoint siftup_loop (fuel : nat) (heap : list A) (newitem : A)
    (endpos startpos pos : nat) : list A :=
  let childpos := (2 * pos + 1)%nat in
  match fuel with
  | O => siftdown (set heap pos newitem) newitem startpos pos
  | S fuel =>
      if (childpos <? endpos)%nat then
        let rightpos := (childpos + 1)%nat in
        let childpos :=
          if (rightpos <? endpos)%nat
             && negb (lt (nth childpos heap newitem) (nth rightpos heap newitem))
          then rightpos else childpos in
        siftup_loop fuel (set heap pos (nth childpos heap newitem)) newitem
          endpos startpos childpos
      else siftdown (set heap pos newitem) newitem startpos pos
  end.

(** [_siftup(heap, pos)], [newitem] being [heap[pos]]. *)
Definition siftup (heap : list A) (newitem : A) (pos : nat) : list A :=
  siftup_loop (length heap) heap newitem (length heap) pos pos.

(** [heapq.heappush(heap, item)]: the heap it leaves. *)
Definition heappush (heap : list A) (item : A) : list A :=
  let heap := heap ++ [item] in
  siftdown heap item 0 (length heap - 1).

(** [heapq.heappop(heap)]: the item returned with the heap it leaves;
    [None] stands for the [IndexError] of [heap.pop()] on an empty list. *)
Definition heappop (heap : list A) : option (A * list A) :=
  match rev heap with
  | [] => None
  | lastelt :: front =>
      match rev front with
      | [] => Some (lastelt, [])
      | returnitem :: rest =>
          let heap := lastelt :: rest in
          Some (returnitem, siftup heap lastelt 0)
      end
  end.

End Heap.

End HeapQ.

(** [tuple < tuple] on tuples of integers. *)
Fixpoint state_ltb (s1 s2 : list Z) : bool :=
  match s1, s2 with
  | [], [] => false
  | [], _ :: _ => true
  | _ :: _, [] => false
  | x :: r1, y :: r2 => if x =? y then state_ltb r1 r2 else x <? y
  end.

(** [BestFirstAlgorithm] *)
Module BestFirst.

Import Pathfinding.
Local Open Scope method_scope.

(** [NodeBF].  The attribute [predecessors] is left out of the node: the
    root creates the one set there is, and every node is given the set of
    its parent, the same object, so the search has one set of states, kept
    beside the heap.  The heuristic is [None] for the root only. *)
#[warnings="-register-all"]
Inductive NodeBF : Type :=
| mkNodeBF (action : Z) (state : list Z) (parent : option NodeBF)
    (heuristic : option Z).

Definition action (node : NodeBF) : Z := let (a, _, _, _) := node in a.
Definition state (node : NodeBF) : list Z := let (_, s, _, _) := node in s.
Definition parent (node : NodeBF) : option NodeBF := let (_, _, p, _) := node in p.
Definition heuristic (node : NodeBF) : option Z := let (_, _, _, h) := node in h.

(** [NodeBF.__lt__].  Python raises [TypeError] on a heuristic that is
    [None]; the root, the one node with none, is alone in the heap when it
    is popped and is never pushed, so it is never compared. *)
Definition lt (self other : NodeBF) : bool :=
  match heuristic self, heuristic other with
  | Some h1, Some h2 =>
      (h1 <? h2) || ((h1 =? h2) && state_ltb (state self) (state other))
  | _, _ => false
  end.

Section Search.

(** [config.N] and [self.heuristic.get_evaluation] *)
Variable N : Z.
Variable get_evaluation : list Z -> result Z.

(** The [for] loop over the actions left. *)
Fixpoint expand (node : NodeBF) (actions : list Z) (lst : list NodeBF)
    (predecessors : list (list Z)) : M (list NodeBF * list (list Z)) :=
  match actions with
  | [] => ret (lst, predecessors)
  | action :: actions =>
      new_state <- apply_action (state node) action ;;
      if existsb (state_eqb new_state) predecessors then
        expand node actions lst predecessors
      else
        h <- lift (get_evaluation new_state) ;;
        let new_node := mkNodeBF action new_state (Some node) (Some h) in
        let predecessors := state node :: predecessors in
        expand node actions (HeapQ.heappush lt lst new_node) predecessors
  end.

(** The [while] loop. *)
Fixpoint loop (fuel : nat) (goal_state : list Z) (node : NodeBF)
    (lst : list NodeBF) (predecessors : list (list Z)) : M NodeBF :=
  match fuel with
  | O => lift Unfinished
  | S fuel =>
      if state_eqb (state node) goal_state then ret node
      else
        match HeapQ.heappop lt lst with
        | None => lift (Raise IndexError)
        | Some (node, lst) =>
            actions <- get_legal_actions N (state node) ;;
            r <- expand node actions lst predecessors ;;
            loop fuel goal_state node (fst r) (snd r)
        end
  end.

Fixpoint backtrack (node : NodeBF) (solution_actions : list Z) : list Z :=
  match node with
  | mkNodeBF action _ (Some parent) _ =>
      backtrack parent (solution_actions ++ [action])
  | mkNodeBF _ _ None _ => solution_actions
  end.

(** [BestFirstAlgorithm.get_steps]; [heapq.heapify] leaves a list of one
    item as it is. *)
Definition get_steps (fuel : nat) (initial_state goal_state : list Z)
  : M (list Z) :=
  let root := mkNodeBF (-1) initial_state None None in
  node <- loop fuel goal_state root [root] [] ;;
  ret (rev (backtrack node [])).

(** A node whose parents go back to a root of state [initial_state] by
    legal actions. *)
Fixpoint linked (initial_state : list Z) (node : NodeBF) : Prop :=
  match node with
  | mkNodeBF _ s None _ => s = initial_state
  | mkNodeBF a s (Some p) _ =>
      linked initial_state p
      /\ exists legal_actions self1 self1' self2 self2',
           get_legal_actions N (state p) self1 = (Return legal_actions, self1')
           /\ In a legal_actions
           /\ apply_action (state p) a self2 = (Return s, self2')
  end.

End Search.

End BestFirst.

(** [AStarAlgorithm] *)
Module AStar.

Import Pathfinding.
Local Open Scope method_scope.

(** [NodeAStar]; the set [predecessors] is shared by all nodes, as in
    [NodeBF]; the heuristic of a node is set before it is read. *)
#[warnings="-register-all"]
Inductive NodeAStar : Type :=
| mkNodeAStar (action : Z) (state : list Z) (parent : option NodeAStar)
    (heuristic : Z) (cumulated_cost : Z).

Definition action (node : NodeAStar) : Z := let (a, _, _, _, _) := node in a.
Definition state (node : NodeAStar) : list Z := let (_, s, _, _, _) := node in s.
Definition parent (node : NodeAStar) : option NodeAStar :=
  let (_, _, p, _, _) := node in p.
Definition heuristic (node : NodeAStar) : Z := let (_, _, _, h, _) := node in h.
Definition cumulated_cost (node : NodeAStar) : Z :=
  let (_, _, _, _, c) := node in c.

(** [NodeAStar.__lt__] *)
Definition lt (self other : NodeAStar) : bool :=
  (cumulated_cost self <? cumulated_cost other)
  || ((cumulated_cost self =? cumulated_cost other)
      && state_ltb (state self) (state other)).

Section Search.

Variable N : Z.
Variable get_evaluation : list Z -> result Z.

Definition cost : Z := 1.

Fixpoint expand (node : NodeAStar) (actions : list Z) (lst : list NodeAStar)
    (predecessors : list (list Z)) : M (list NodeAStar * list (list Z)) :=
  match actions with
  | [] => ret (lst, predecessors)
  | action :: actions =>
      new_state <- apply_action (state node) action ;;
      if existsb (state_eqb new_state) predecessors then
        expand node actions lst predecessors
      else
        h <- lift (get_evaluation new_state) ;;
        let new_node :=
          mkNodeAStar action new_state (Some node) h
            (cumulated_cost node - heuristic node + cost + h) in
        let predecessors := state node :: predecessors in
        expand node actions (HeapQ.heappush lt lst new_node) predecessors
  end.

Fixpoint loop (fuel : nat) (goal_state : list Z) (node : NodeAStar)
    (lst : list NodeAStar) (predecessors : list (list Z)) : M NodeAStar :=
  match fuel with
  | O => lift Unfinished
  | S fuel =>
      if state_eqb (state node) goal_state then ret node
      else
        match HeapQ.heappop lt lst with
        | None => lift (Raise IndexError)
        | Some (node, lst) =>
            actions <- get_legal_actions N (state node) ;;
            r <- expand node actions lst predecessors ;;
            loop fuel goal_state node (fst r) (snd r)
        end
  end.

Fixpoint backtrack (node : NodeAStar) (solution_actions : list Z) : list Z :=
  match node with
  | mkNodeAStar action _ (Some parent) _ _ =>
      backtrack parent (solution_actions ++ [action])
  | mkNodeAStar _ _ None _ _ => solution_actions
  end.

(** [AStarAlgorithm.get_steps] *)
Definition get_steps (fuel : nat) (initial_state goal_state : list Z)
  : M (list Z) :=
  let root := mkNodeAStar (-1) initial_state None 0 0 in
  node <- loop fuel goal_state root [root] [] ;;
  ret (rev (backtrack node [])).

Fixpoint linked (initial_state : list Z) (node : NodeAStar) : Prop :=
  match node with
  | mkNodeAStar _ s None _ _ => s = initial_state
  | mkNodeAStar a s (Some p) _ _ =>
      linked initial_state p
      /\ exists legal_actions self1 self1' self2 self2',
           get_legal_actions N (state p) self1 = (Return legal_actions, self1')
           /\ In a legal_actions
           /\ apply_action (state p) a self2 = (Return s, self2')
  end.

End Search.

End AStar.

(** The three heuristics as [get_evaluation] methods. *)
Definition ExampleHeuristic_get_evaluation (state : list Z)
  : Pathfinding.result Z := Pathfinding.Return 0.

Definition Hamming_get_evaluation (state : list Z) : Pathfinding.result Z :=
  Pathfinding.Return (Pathfinding.HammingHeuristic_get_evaluation state).

(** * Properties *)

(** ** Arithmetic on [ext] *)

Ltac ext_cases :=
  repeat match goal with
         | x : ext |- _ =>
             destruct x; simpl in *; try contradiction; try discriminate
         end.

Ltac z_cases :=
  repeat match goal with
         | |- context [?a <? ?b] => destruct (Z.ltb_spec a b)
         | H : context [?a <? ?b] |- _ => destruct (Z.ltb_spec a b)
         | |- context [?a =? ?b] => destruct (Z.eqb_spec a b)
         | H : context [?a =? ?b] |- _ => destruct (Z.eqb_spec a b)
         end.

(** Decides the order facts of [ext] the proofs below need. *)
Ltac ext_solve :=
  unfold within, Ext.geb, Ext.max, Ext.min in *;
  ext_cases; simpl in *; z_cases; simpl in *;
  try discriminate; try tauto; try lia; try (f_equal; lia).

Lemma ltb_lt (x y : ext) : Ext.ltb x y = true <-> Ext.lt x y.
Proof. destruct x, y; simpl; rewrite ?Z.ltb_lt; intuition discriminate. Qed.

Lemma ltb_ge (x y : ext) : Ext.ltb x y = false <-> Ext.le y x.
Proof. destruct x, y; simpl; rewrite ?Z.ltb_ge; intuition discriminate. Qed.

Lemma le_antisym (x y : ext) : Ext.le x y -> Ext.le y x -> x = y.
Proof. destruct x, y; simpl; intros; try tauto; f_equal; lia. Qed.

Lemma finite_Fin (x : ext) : Ext.finite x -> exists z, x = Fin z.
Proof. destruct x; simpl; intros H; try tauto. now eexists. Qed.

Lemma player_eqb_eq (p q : player) : player_eqb p q = true <-> p = q.
Proof. destruct p, q; simpl; split; congruence. Qed.

Lemma player_eqb_refl (p : player) : player_eqb p p = true.
Proof. now destruct p. Qed.

Lemma player_eqb_neq (p q : player) : p <> q -> player_eqb p q = false.
Proof. destruct p, q; simpl; congruence. Qed.

Lemma two_players (p q r : player) : p <> q -> r = p \/ r = q.
Proof. destruct p, q, r; intuition congruence. Qed.

(** ** The evaluator *)

Lemma land_pow2_eqb (a : Z) (i : nat) :
  (Z.land a (2 ^ Z.of_nat i) =? 0) = negb (Z.testbit a (Z.of_nat i)).
Proof.
  destruct (Z.testbit a (Z.of_nat i)) eqn:Hbit; simpl.
  - apply Z.eqb_neq. intros H0.
    assert (Hb : Z.testbit (Z.land a (2 ^ Z.of_nat i)) (Z.of_nat i) = true).
    { rewrite Z.land_spec, Hbit, Z.pow2_bits_true by lia. reflexivity. }
    rewrite H0, Z.bits_0 in Hb. discriminate.
  - apply Z.eqb_eq, Z.bits_inj'. intros n Hn.
    rewrite Z.land_spec, Z.bits_0, Z.pow2_bits_eqb by lia.
    destruct (Z.eqb_spec (Z.of_nat i) n) as [<- | _].
    + now rewrite Hbit.
    + apply andb_false_r.
Qed.

Lemma count_step_pow2 (checkers : Z) (i : nat) (cnt : Z) :
  count_step checkers (cnt, 2 ^ Z.of_nat i)
  = (if Z.testbit checkers (Z.of_nat i) then cnt + 1 else cnt, 2 ^ Z.of_nat (S i)).
Proof.
  unfold count_step. rewrite land_pow2_eqb. f_equal.
  - now destruct (Z.testbit checkers (Z.of_nat i)).
  - rewrite Z.shiftl_mul_pow2 by lia.
    rewrite Nat2Z.inj_succ, Z.pow_succ_r by lia. lia.
Qed.

Lemma count_tokens_loop (checkers : Z) (n start : nat) (cnt : Z) :
  fold_left (fun st (_ : nat) => count_step checkers st) (seq start n)
    (cnt, 2 ^ Z.of_nat start)
  = (cnt + Z.of_nat (length (filter (fun i => Z.testbit checkers (Z.of_nat i))
                               (seq start n))),
     2 ^ Z.of_nat (start + n)).
Proof.
  revert start cnt. induction n as [| n IH]; intros start cnt.
  - simpl. f_equal; [lia | now rewrite Nat.add_0_r].
  - cbn [seq fold_left filter]. rewrite count_step_pow2, IH.
    replace (S start + n)%nat with (start + S n)%nat by lia.
    destruct (Z.testbit checkers (Z.of_nat start)); cbn [length]; f_equal; lia.
Qed.

Section Evaluator.

Context {State : Type} {API : StateAPI State}.

Lemma count_tokens_placed (checkers : Z) :
  count_tokens checkers = tokens_placed checkers.
Proof.
  unfold count_tokens, tokens_placed.
  change (0, 1) with (0, 2 ^ Z.of_nat 0).
  now rewrite count_tokens_loop.
Qed.

Lemma count_tokens_range (checkers : Z) : 0 <= count_tokens checkers <= 42.
Proof.
  rewrite count_tokens_placed. unfold tokens_placed.
  pose proof (filter_length_le (fun i => Z.testbit checkers (Z.of_nat i)) (seq 0 42)) as H.
  rewrite length_seq in H. lia.
Qed.

Lemma mask_loop (mx mn : Z) (masks : list Z) (w l : Z) :
  fold_left (mask_step mx mn) masks (w, l)
  = (w + Z.of_nat (length (filter (fun mask => Z.land mask mn =? 0) masks)),
     l + Z.of_nat (length (filter (fun mask => Z.land mask mx =? 0) masks))).
Proof.
  revert w l. induction masks as [| m masks IH]; intros w l; simpl.
  - f_equal; lia.
  - rewrite IH.
    destruct (Z.land m mn =? 0), (Z.land m mx =? 0); simpl; f_equal; lia.
Qed.

(** The evaluation of a position in progress. *)
Lemma node_evaluation_in_progress (g : Globals) (s : State) :
  get_state_status s = None ->
  node_evaluation g s
  = lines_without (get_checkers s (min_player g))
    - lines_without (get_checkers s (max_player g)).
Proof.
  intros Hs. unfold node_evaluation. rewrite Hs. simpl.
  rewrite mask_loop. unfold lines_without. lia.
Qed.

Lemma lines_without_range (tokens : Z) :
  0 <= lines_without tokens <= Z.of_nat (length win_masks).
Proof.
  unfold lines_without.
  pose proof (filter_length_le (fun mask => Z.land mask tokens =? 0) win_masks). lia.
Qed.

(** C4: the four cases of the evaluator. *)
Theorem node_evaluation_cases (g : Globals) (s : State) :
  max_player g <> min_player g ->
  (get_state_status s = Some (Won (max_player g)) ->
   node_evaluation g s = 1000 - tokens_placed (get_checkers s (max_player g)))
  /\ (get_state_status s = Some (Won (min_player g)) ->
      node_evaluation g s = -1000 + tokens_placed (get_checkers s (min_player g)))
  /\ (get_state_status s = Some DRAW -> node_evaluation g s = 0)
  /\ (get_state_status s = None ->
      node_evaluation g s
      = lines_without (get_checkers s (min_player g))
        - lines_without (get_checkers s (max_player g))).
Proof.
  intros Hne. repeat split; intros Hs.
  - unfold node_evaluation. rewrite Hs. simpl.
    now rewrite player_eqb_refl, count_tokens_placed.
  - unfold node_evaluation. rewrite Hs. simpl.
    rewrite (player_eqb_neq (not_eq_sym Hne)), player_eqb_refl.
    now rewrite count_tokens_placed.
  - unfold node_evaluation. now rewrite Hs.
  - now apply node_evaluation_in_progress.
Qed.

(** C8: exchanging the roles of the two players negates the evaluation of a
    position in progress. *)
Theorem node_evaluation_swap (g : Globals) (s : State) :
  get_state_status s = None ->
  node_evaluation (swap_players g) s = - node_evaluation g s.
Proof.
  intros Hs. rewrite !node_evaluation_in_progress by assumption.
  simpl. lia.
Qed.

End Evaluator.

(** ** The move ordering *)

Section Ordering.

Context {State : Type} {API : StateAPI State}.

Lemma col_priority_in_range (c : Z) :
  0 <= c < 7 -> exists p, col_priority c = Ok p.
Proof.
  intros Hc.
  assert (H : c = 0 \/ c = 1 \/ c = 2 \/ c = 3 \/ c = 4 \/ c = 5 \/ c = 6) by lia.
  repeat destruct H as [-> | H]; try subst c; eexists; reflexivity.
Qed.

Lemma keyed_columns (g : Globals) (s : State) (cols : list Z) (ks : list (key * Z)) :
  keyed g s cols = Ok ks ->
  map snd ks = cols
  /\ Forall (fun x => fst (fst x) = node_evaluation g (generate_successor_state s (snd x))) ks.
Proof.
  revert ks. induction cols as [| c cols IH]; intros ks; simpl.
  - intros [= <-]. split; constructor.
  - unfold sort_key. destruct (col_priority c) as [p | e |]; simpl; try discriminate.
    destruct (keyed g s cols) as [ks' | e |]; simpl; try discriminate.
    intros [= <-]. destruct (IH ks' eq_refl) as [Hm Hf]. split.
    + simpl. now rewrite Hm.
    + constructor; [reflexivity | assumption].
Qed.

Lemma keyed_in_range (g : Globals) (s : State) (cols : list Z) :
  (forall c, In c cols -> 0 <= c < 7) -> exists ks, keyed g s cols = Ok ks.
Proof.
  induction cols as [| c cols IH]; intros Hr; simpl.
  - now eexists.
  - destruct (col_priority_in_range (Hr c (or_introl eq_refl))) as [p Hp].
    destruct IH as [ks Hks]; [intros; apply Hr; now right |].
    unfold sort_key. rewrite Hp; simpl. rewrite Hks; simpl. now eexists.
Qed.

Lemma insert_desc_In (x y : key * Z) (l : list (key * Z)) :
  In y (insert_desc x l) <-> y = x \/ In y l.
Proof.
  induction l as [| z l IH]; simpl.
  - intuition.
  - destruct (key_ltb (fst x) (fst z)); simpl; rewrite ?IH; intuition.
Qed.

Lemma sort_desc_In (y : key * Z) (l : list (key * Z)) :
  In y (sort_desc l) <-> In y l.
Proof.
  induction l as [| x l IH]; simpl; [reflexivity |].
  rewrite insert_desc_In, IH. intuition.
Qed.

Lemma key_ltb_irrefl (k : key) : key_ltb k k = false.
Proof. unfold key_ltb. z_cases; simpl; lia || reflexivity. Qed.

Lemma insert_desc_head (x : key * Z) (l : list (key * Z)) :
  head_largest l -> head_largest (insert_desc x l).
Proof.
  intros Hl. destruct l as [| z l]; simpl.
  - intros x' r [= <- <-] y [<- | []]. apply key_ltb_irrefl.
  - destruct (key_ltb (fst x) (fst z)) eqn:Hxz.
    + intros x' r [= <- <-] y [<- | Hy]; [apply key_ltb_irrefl |].
      apply insert_desc_In in Hy. destruct Hy as [-> | Hy].
      * revert Hxz. unfold key_ltb. z_cases; simpl; try lia; try discriminate; reflexivity.
      * apply (Hl z l eq_refl). now right.
    + intros x' r [= <- <-] y [<- | Hy]; [apply key_ltb_irrefl |].
      assert (Hzy : key_ltb (fst z) (fst y) = false) by now apply (Hl z l eq_refl).
      revert Hxz Hzy. unfold key_ltb.
      z_cases; simpl; try lia; try discriminate; reflexivity.
Qed.

Lemma sort_desc_head (l : list (key * Z)) : head_largest (sort_desc l).
Proof.
  induction l as [| x l IH]; simpl.
  - intros x r [=].
  - now apply insert_desc_head.
Qed.

Lemma sorted_columns_In (g : Globals) (s : State) (l : list Z) (c : Z) :
  sorted_columns g s = Ok l -> (In c l <-> In c (get_possible_columns s)).
Proof.
  unfold sorted_columns.
  destruct (keyed g s (get_possible_columns s)) as [ks | e |] eqn:Hk; simpl; try discriminate.
  intros [= <-]. destruct (keyed_columns _ _ _ Hk) as [Hm _]. rewrite <- Hm.
  rewrite !in_map_iff. split; intros [x [Hx Hin]]; exists x; split; trivial;
    now apply sort_desc_In.
Qed.

Lemma sorted_columns_in_range (g : Globals) (s : State) :
  (forall c, In c (get_possible_columns s) -> 0 <= c < 7) ->
  exists l, sorted_columns g s = Ok l.
Proof.
  intros Hr. destruct (keyed_in_range g s _ Hr) as [ks Hk].
  unfold sorted_columns. rewrite Hk. simpl. now eexists.
Qed.

Lemma sorted_columns_nonempty (g : Globals) (s : State) (l : list Z) :
  sorted_columns g s = Ok l -> get_possible_columns s <> [] -> l <> [].
Proof.
  intros Hl Hne ->. destruct (get_possible_columns s) as [| c cols] eqn:Hc; [congruence |].
  assert (H : In c []) by (apply (sorted_columns_In g s c Hl); rewrite Hc; now left).
  destruct H.
Qed.

(** The first column visited has the largest evaluation of its successor. *)
Lemma sorted_columns_head (g : Globals) (s : State) (c : Z) (rest : list Z) :
  sorted_columns g s = Ok (c :: rest) ->
  forall c', In c' (c :: rest) ->
    node_evaluation g (generate_successor_state s c')
    <= node_evaluation g (generate_successor_state s c).
Proof.
  unfold sorted_columns.
  destruct (keyed g s (get_possible_columns s)) as [ks | e |] eqn:Hk; simpl; try discriminate.
  intros [= Hs] c' Hc'. destruct (keyed_columns _ _ _ Hk) as [_ Hf].
  rewrite Forall_forall in Hf.
  destruct (sort_desc ks) as [| x r] eqn:Hsd; [discriminate |].
  simpl in Hs. injection Hs as Hx Hr.
  assert (Hy : exists y, In y (x :: r) /\ snd y = c').
  { rewrite <- Hx, <- Hr in Hc'. change (In c' (map snd (x :: r))) in Hc'.
    apply in_map_iff in Hc'. destruct Hc' as [y [Hy1 Hy2]]. now exists y. }
  destruct Hy as [y [Hy <-]].
  pose proof (@sort_desc_head ks x r Hsd y) as Hlt.
  rewrite Hsd in Hlt. specialize (Hlt Hy). rewrite <- Hx.
  rewrite <- (Hf x), <- (Hf y).
  - revert Hlt. unfold key_ltb. z_cases; simpl; try lia; discriminate.
  - apply sort_desc_In. rewrite Hsd. exact Hy.
  - apply sort_desc_In. rewrite Hsd. now left.
Qed.

Lemma ordered_sorted (g : Globals) (s : State) (l : list Z) :
  sorted_columns g s = Ok l -> ordered g s = l.
Proof. unfold ordered. now intros ->. Qed.

End Ordering.

(** ** Windows *)

Lemma within_neg (a b t v : ext) :
  within (Ext.neg b) (Ext.neg a) (Ext.neg t) v -> within a b t (Ext.neg v).
Proof. intros H. ext_solve. Qed.

Lemma within_finite (a b t v : ext) :
  Ext.lt a b -> Ext.finite t -> within a b t v -> Ext.finite v.
Proof. intros Hab Ht H. ext_solve. Qed.

Lemma within_full (t v : ext) : within NInf PInf t v -> v = t.
Proof. intros H. apply le_antisym; ext_solve. Qed.

Lemma within_exact (a b t : ext) : within a b t t.
Proof. ext_solve. Qed.

(** A null-window probe above a finite [alpha] that does not land inside
    [(alpha, beta)] already tells what the full window would. *)
Lemma within_probe (z : Z) (b t v : ext) :
  Ext.lt (Fin z) b ->
  within (Ext.pred (Ext.neg (Fin z))) (Ext.neg (Fin z)) (Ext.neg t) v ->
  Ext.ltb (Fin z) (Ext.neg v) && Ext.ltb (Ext.neg v) b = false ->
  within (Fin z) b t (Ext.neg v).
Proof. intros Hb H Hp. ext_solve. Qed.

Lemma neg_involutive (x : ext) : Ext.neg (Ext.neg x) = x.
Proof. destruct x; simpl; try reflexivity; f_equal; lia. Qed.

Lemma fold_max_finite (vs : list ext) :
  vs <> [] -> Forall Ext.finite vs -> Ext.finite (fold_right Ext.max NInf vs).
Proof.
  induction vs as [| v vs IH]; [congruence |]. intros _ Hf.
  inversion Hf as [| ? ? Hv Hf']; subst. simpl.
  destruct vs as [| w vs].
  - simpl. ext_solve.
  - assert (Hm : Ext.finite (fold_right Ext.max NInf (w :: vs)))
      by (apply IH; [congruence | assumption]).
    revert Hm. generalize (fold_right Ext.max NInf (w :: vs)). intros m Hm. ext_solve.
Qed.

Lemma fold_min_finite (vs : list ext) :
  vs <> [] -> Forall Ext.finite vs -> Ext.finite (fold_right Ext.min PInf vs).
Proof.
  induction vs as [| v vs IH]; [congruence |]. intros _ Hf.
  inversion Hf as [| ? ? Hv Hf']; subst. simpl.
  destruct vs as [| w vs].
  - simpl. ext_solve.
  - assert (Hm : Ext.finite (fold_right Ext.min PInf (w :: vs)))
      by (apply IH; [congruence | assumption]).
    revert Hm. generalize (fold_right Ext.min PInf (w :: vs)). intros m Hm. ext_solve.
Qed.

Lemma fold_max_neg (vs : list ext) :
  fold_right Ext.max NInf (map Ext.neg vs) = Ext.neg (fold_right Ext.min PInf vs).
Proof.
  induction vs as [| v vs IH]; [reflexivity |]. simpl. rewrite IH.
  generalize (fold_right Ext.min PInf vs). intros m. ext_solve.
Qed.

(** ** One turn of a loop, on the order alone *)

Lemma max_step_break (score alpha beta v tc T : ext) :
  Ext.lt alpha beta -> within alpha beta tc v ->
  Ext.ltb score v = true -> Ext.geb v beta = true ->
  Ext.le score v
  /\ (Ext.lt v beta -> Ext.le (Ext.max tc T) v)
  /\ (Ext.lt score v -> Ext.lt alpha v -> Ext.le v (Ext.max tc T)).
Proof. intros Hab Hw Hlt Hge. ext_solve. Qed.

Lemma max_step_improve (score alpha beta v tc T V : ext) :
  Ext.lt alpha beta -> within alpha beta tc v ->
  Ext.ltb score v = true -> Ext.geb v beta = false ->
  Ext.le v V /\ (Ext.lt V beta -> Ext.le T V)
  /\ (Ext.lt v V -> Ext.lt v V -> Ext.le V T) ->
  Ext.le score V
  /\ (Ext.lt V beta -> Ext.le (Ext.max tc T) V)
  /\ (Ext.lt score V -> Ext.lt alpha V -> Ext.le V (Ext.max tc T)).
Proof. intros Hab Hw Hlt Hge HP. ext_solve. Qed.

Lemma max_step_keep (score alpha beta v tc T V : ext) :
  Ext.lt alpha beta -> within alpha beta tc v ->
  Ext.ltb score v = false ->
  Ext.le score V /\ (Ext.lt V beta -> Ext.le T V)
  /\ (Ext.lt score V -> Ext.lt alpha V -> Ext.le V T) ->
  Ext.le score V
  /\ (Ext.lt V beta -> Ext.le (Ext.max tc T) V)
  /\ (Ext.lt score V -> Ext.lt alpha V -> Ext.le V (Ext.max tc T)).
Proof. intros Hab Hw Hlt HP. ext_solve. Qed.

Lemma min_step_break (score alpha beta v tc T : ext) :
  Ext.lt alpha beta -> within alpha beta tc v ->
  Ext.ltb v score = true -> Ext.geb alpha v = true ->
  Ext.le v score
  /\ (Ext.lt alpha v -> Ext.le v (Ext.min tc T))
  /\ (Ext.lt v score -> Ext.lt v beta -> Ext.le (Ext.min tc T) v).
Proof. intros Hab Hw Hlt Hge. ext_solve. Qed.

Lemma min_step_improve (score alpha beta v tc T V : ext) :
  Ext.lt alpha beta -> within alpha beta tc v ->
  Ext.ltb v score = true -> Ext.geb alpha v = false ->
  Ext.le V v /\ (Ext.lt alpha V -> Ext.le V T)
  /\ (Ext.lt V v -> Ext.lt V v -> Ext.le T V) ->
  Ext.le V score
  /\ (Ext.lt alpha V -> Ext.le V (Ext.min tc T))
  /\ (Ext.lt V score -> Ext.lt V beta -> Ext.le (Ext.min tc T) V).
Proof. intros Hab Hw Hlt Hge HP. ext_solve. Qed.

Lemma min_step_keep (score alpha beta v tc T V : ext) :
  Ext.lt alpha beta -> within alpha beta tc v ->
  Ext.ltb v score = false ->
  Ext.le V score /\ (Ext.lt alpha V -> Ext.le V T)
  /\ (Ext.lt V score -> Ext.lt V beta -> Ext.le T V) ->
  Ext.le V score
  /\ (Ext.lt alpha V -> Ext.le V (Ext.min tc T))
  /\ (Ext.lt V score -> Ext.lt V beta -> Ext.le (Ext.min tc T) V).
Proof. intros Hab Hw Hlt HP. ext_solve. Qed.

Lemma max_done (score alpha beta : ext) :
  Ext.le score score
  /\ (Ext.lt score beta -> Ext.le NInf score)
  /\ (Ext.lt score score -> Ext.lt alpha score -> Ext.le score NInf).
Proof. ext_solve. Qed.

Lemma min_done (score alpha beta : ext) :
  Ext.le score score
  /\ (Ext.lt alpha score -> Ext.le score PInf)
  /\ (Ext.lt score score -> Ext.lt score beta -> Ext.le PInf score).
Proof. ext_solve. Qed.

Lemma window_top (a b T V : ext) :
  Ext.lt a b ->
  Ext.le NInf V /\ (Ext.lt V b -> Ext.le T V)
  /\ (Ext.lt NInf V -> Ext.lt a V -> Ext.le V T) ->
  within a b T V.
Proof. intros Hab HP. ext_solve. Qed.

Lemma window_bottom (a b T V : ext) :
  Ext.lt a b ->
  Ext.le V PInf /\ (Ext.lt a V -> Ext.le V T)
  /\ (Ext.lt V PInf -> Ext.lt V b -> Ext.le T V) ->
  within a b T V.
Proof. intros Hab HP. ext_solve. Qed.

Lemma geb_false_lt (x y : ext) : Ext.geb x y = false -> Ext.lt x y.
Proof. intros H. ext_solve. Qed.

Lemma lt_not_geb (x y : ext) : Ext.lt x y -> Ext.geb x y = false.
Proof. intros H. ext_solve. Qed.

(** ** The loops of alpha-beta minimax *)

Section Loops.

Context {State : Type} {API : StateAPI State}.
Variables (g : Globals) (rec : @search State) (s : State) (beta : ext) (depth : Z).
Variable t : Z -> ext.

Lemma answers_tail (p : player) (c : Z) (rest : list Z) :
  answers rec s p depth t (c :: rest) -> answers rec s p depth t rest.
Proof. intros H c' Hc'. apply H. now right. Qed.

Lemma max_loop_spec (cols : list Z) :
  forall (node : Node State) (score alpha : ext),
    state node = s -> Ext.lt alpha beta ->
    answers rec s (min_player g) depth t cols ->
    exists V n',
      max_loop g rec cols node score alpha beta depth = Ok (V, n')
      /\ Ext.le score V
      /\ (Ext.lt V beta -> Ext.le (fold_right Ext.max NInf (map t cols)) V)
      /\ (Ext.lt score V -> Ext.lt alpha V ->
          Ext.le V (fold_right Ext.max NInf (map t cols))).
Proof.
  induction cols as [| c rest IH]; intros node score alpha Hs Hab Hans.
  - exists score, node. split; [reflexivity |]. apply max_done.
  - cbn [max_loop]. rewrite Hs.
    destruct (Hans c (or_introl eq_refl) alpha beta Hab) as (v & n & Hrec & Hw).
    rewrite Hrec. cbn [bind fst]. apply answers_tail in Hans.
    cbn [map fold_right].
    destruct (Ext.ltb score v) eqn:Hlt.
    + destruct (Ext.geb v beta) eqn:Hge.
      * exists v, (set_chosen_succ node c). split; [reflexivity |].
        now apply max_step_break with (alpha := alpha) (beta := beta).
      * destruct (IH (set_chosen_succ node c) v v Hs (geb_false_lt _ _ Hge) Hans)
          as (V & n' & Hl & HP).
        exists V, n'. split; [exact Hl |].
        now apply max_step_improve with (beta := beta) (v := v).
    + rewrite (lt_not_geb _ _ Hab).
      destruct (IH node score alpha Hs Hab Hans) as (V & n' & Hl & HP).
      exists V, n'. split; [exact Hl |].
      now apply max_step_keep with (beta := beta) (v := v).
Qed.

Lemma min_loop_spec (cols : list Z) :
  forall (node : Node State) (score alpha beta' : ext),
    state node = s -> Ext.lt alpha beta' ->
    answers rec s (max_player g) depth t cols ->
    exists V n',
      min_loop g rec cols node score alpha beta' depth = Ok (V, n')
      /\ Ext.le V score
      /\ (Ext.lt alpha V -> Ext.le V (fold_right Ext.min PInf (map t cols)))
      /\ (Ext.lt V score -> Ext.lt V beta' ->
          Ext.le (fold_right Ext.min PInf (map t cols)) V).
Proof.
  induction cols as [| c rest IH]; intros node score alpha beta' Hs Hab Hans.
  - exists score, node. split; [reflexivity |]. apply min_done.
  - cbn [min_loop]. rewrite Hs.
    destruct (Hans c (or_introl eq_refl) alpha beta' Hab) as (v & n & Hrec & Hw).
    rewrite Hrec. cbn [bind fst]. apply answers_tail in Hans.
    cbn [map fold_right].
    destruct (Ext.ltb v score) eqn:Hlt.
    + destruct (Ext.geb alpha v) eqn:Hge.
      * exists v, (set_chosen_succ node c). split; [reflexivity |].
        now apply min_step_break with (alpha := alpha) (beta := beta').
      * destruct (IH (set_chosen_succ node c) v alpha v Hs (geb_false_lt _ _ Hge) Hans)
          as (V & n' & Hl & HP).
        exists V, n'. split; [exact Hl |].
        now apply min_step_improve with (alpha := alpha) (v := v).
    + rewrite (lt_not_geb _ _ Hab).
      destruct (IH node score alpha beta' Hs Hab Hans) as (V & n' & Hl & HP).
      exists V, n'. split; [exact Hl |].
      now apply min_step_keep with (alpha := alpha) (v := v).
Qed.

End Loops.

(** ** The loop of NegaScout *)

Lemma ns_step_break (score alpha beta cs tc T : ext) :
  Ext.lt alpha beta -> Ext.le score alpha -> within alpha beta tc cs ->
  Ext.geb (Ext.max alpha (Ext.max score cs)) beta = true ->
  Ext.le score (Ext.max score cs)
  /\ (Ext.lt (Ext.max score cs) beta -> Ext.le (Ext.max tc T) (Ext.max score cs))
  /\ (Ext.lt alpha (Ext.max score cs) -> Ext.le (Ext.max score cs) (Ext.max tc T)).
Proof. intros Hab Hsa Hw Hge. ext_solve. Qed.

Lemma ns_step_continue (score alpha beta cs tc T V : ext) :
  Ext.lt alpha beta -> Ext.le score alpha -> within alpha beta tc cs ->
  Ext.geb (Ext.max alpha (Ext.max score cs)) beta = false ->
  Ext.le (Ext.max score cs) V /\ (Ext.lt V beta -> Ext.le T V)
  /\ (Ext.lt (Ext.max alpha (Ext.max score cs)) V -> Ext.le V T) ->
  Ext.le score V
  /\ (Ext.lt V beta -> Ext.le (Ext.max tc T) V)
  /\ (Ext.lt alpha V -> Ext.le V (Ext.max tc T)).
Proof. intros Hab Hsa Hw Hge HP. ext_solve. Qed.

Lemma ns_done (score alpha beta : ext) :
  Ext.le score alpha ->
  Ext.le score score
  /\ (Ext.lt score beta -> Ext.le NInf score)
  /\ (Ext.lt alpha score -> Ext.le score NInf).
Proof. intros Hsa. ext_solve. Qed.

Lemma ns_next_window (score alpha beta cs : ext) :
  Ext.le score alpha -> Ext.finite cs ->
  Ext.geb (Ext.max alpha (Ext.max score cs)) beta = false ->
  Ext.lt (Ext.max alpha (Ext.max score cs)) beta
  /\ Ext.le (Ext.max score cs) (Ext.max alpha (Ext.max score cs))
  /\ Ext.max alpha (Ext.max score cs) <> NInf.
Proof. intros Hsa Hf Hge. repeat split; try intros Habs; ext_solve. Qed.

Lemma neg_window (a b : ext) : Ext.lt a b -> Ext.lt (Ext.neg b) (Ext.neg a).
Proof. intros H. ext_solve. Qed.

Lemma finite_window (a b : ext) :
  Ext.lt a b -> a <> NInf -> exists z, a = Fin z.
Proof. intros H Hn. destruct a; [congruence | now eexists | destruct b; destruct H]. Qed.

Lemma probe_window (z : Z) :
  Ext.lt (Ext.pred (Ext.neg (Fin z))) (Ext.neg (Fin z)).
Proof. simpl. lia. Qed.

Lemma neg_finite (x : ext) : Ext.finite x -> Ext.finite (Ext.neg x).
Proof. destruct x; simpl; tauto. Qed.

Section NegascoutLoop.

Context {State : Type} {API : StateAPI State}.
Variables (rec : @search State) (s : State) (other : player) (first : Z) (depth : Z).
Variable tchild : Z -> ext.

Lemma negascout_loop_spec (beta : ext) (cols : list Z) :
  forall (node : Node State) (score alpha : ext),
    state node = s -> Ext.lt alpha beta -> Ext.le score alpha ->
    (alpha = NInf -> match cols with [] => True | c :: _ => c = first end) ->
    answers rec s other depth tchild cols ->
    (forall c, In c cols -> Ext.finite (tchild c)) ->
    exists V n',
      negascout_loop rec other first cols node score alpha beta depth = Ok (V, n')
      /\ Ext.le score V
      /\ (Ext.lt V beta ->
          Ext.le (fold_right Ext.max NInf (map (fun c => Ext.neg (tchild c)) cols)) V)
      /\ (Ext.lt alpha V ->
          Ext.le V (fold_right Ext.max NInf (map (fun c => Ext.neg (tchild c)) cols))).
Proof.
  induction cols as [| c rest IH]; intros node score alpha Hs Hab Hsa Hfirst Hans Hfin.
  - exists score, node. split; [reflexivity |]. now apply ns_done.
  - cbn [negascout_loop map fold_right]. rewrite Hs.
    pose proof (Hans c (or_introl eq_refl)) as Hc.
    pose proof (Hfin c (or_introl eq_refl)) as Hfc.
    assert (Htail : forall cs n1, state n1 = s ->
              within alpha beta (Ext.neg (tchild c)) cs ->
              exists V n',
                (if Ext.geb (Ext.max alpha (Ext.max score cs)) beta
                 then Ok (Ext.max score cs, n1)
                 else negascout_loop rec other first rest n1 (Ext.max score cs)
                        (Ext.max alpha (Ext.max score cs)) beta depth) = Ok (V, n')
                /\ Ext.le score V
                /\ (Ext.lt V beta ->
                    Ext.le (Ext.max (Ext.neg (tchild c))
                              (fold_right Ext.max NInf
                                 (map (fun c => Ext.neg (tchild c)) rest))) V)
                /\ (Ext.lt alpha V ->
                    Ext.le V (Ext.max (Ext.neg (tchild c))
                                (fold_right Ext.max NInf
                                   (map (fun c => Ext.neg (tchild c)) rest))))).
    { intros cs n1 Hs1 Hw.
      destruct (Ext.geb (Ext.max alpha (Ext.max score cs)) beta) eqn:Hge.
      - exists (Ext.max score cs), n1. split; [reflexivity |].
        now apply ns_step_break.
      - assert (Hcs : Ext.finite cs)
          by (apply (within_finite Hab (neg_finite _ Hfc) Hw)).
        destruct (ns_next_window _ _ _ _ Hsa Hcs Hge) as (Hab' & Hsa' & Hne).
        destruct (IH n1 (Ext.max score cs) (Ext.max alpha (Ext.max score cs)))
          as (V & n' & Hl & HP); trivial.
        + intros Habs. now destruct Hne.
        + intros c' Hc'. apply Hans. now right.
        + intros c' Hc'. apply Hfin. now right.
        + exists V, n'. split; [exact Hl |].
          now apply ns_step_continue with (beta := beta) (cs := cs) (score := score). }
    destruct (c =? first) eqn:Hcf.
    + destruct (Hc _ _ (neg_window _ _ Hab)) as (v & n & Hrec & Hw).
      rewrite Hrec. cbn [bind fst]. apply Htail; [exact Hs |].
      apply within_neg. now rewrite neg_involutive.
    + assert (Hna : alpha <> NInf).
      { intros Habs. apply Hfirst in Habs. apply Z.eqb_neq in Hcf. contradiction. }
      destruct (@finite_window alpha beta Hab Hna) as [z ->].
      destruct (Hc _ _ (probe_window z)) as (v1 & n1 & Hrec1 & Hw1).
      rewrite Hrec1. cbn [bind fst].
      destruct (Ext.ltb (Fin z) (Ext.neg v1) && Ext.ltb (Ext.neg v1) beta) eqn:Hin.
      * destruct (Hc _ _ (neg_window _ _ Hab)) as (v2 & n2 & Hrec2 & Hw2).
        rewrite Hrec2. cbn [bind fst]. apply Htail; [exact Hs |].
        apply within_neg. now rewrite neg_involutive.
      * cbn [bind]. apply Htail; [exact Hs |].
        apply within_probe; trivial. now rewrite neg_involutive.
Qed.

End NegascoutLoop.

(** ** Both searches compute the minimax value *)

Section Correctness.

Context {State : Type} {API : StateAPI State}.
Variable g : Globals.
Hypothesis Hrange : columns_in_range.
Hypothesis Hcol : in_progress_has_column.
Hypothesis Hpl : max_player g <> min_player g.

Lemma cutoff_false_in_progress (s : State) (depth : Z) :
  cutoff g s depth = false -> get_state_status s = None.
Proof.
  unfold cutoff, is_terminal_node. destruct (get_state_status s); simpl; congruence.
Qed.

Lemma bounded_cutoff (fuel : nat) (s : State) (depth : Z) :
  cutoff g s depth = true -> bounded g fuel s depth = true.
Proof. intros H. destruct fuel; simpl; now rewrite H. Qed.

Lemma bounded_zero (s : State) (depth : Z) :
  bounded g 0 s depth = true -> cutoff g s depth = true.
Proof. simpl. now rewrite orb_false_r. Qed.

Lemma bounded_child (fuel : nat) (s : State) (depth : Z) (c : Z) :
  cutoff g s depth = false -> bounded g (S fuel) s depth = true ->
  In c (get_possible_columns s) ->
  bounded g fuel (generate_successor_state s c) (depth + 1) = true.
Proof.
  intros Hcut Hb Hc. cbn [bounded] in Hb. rewrite Hcut in Hb. simpl in Hb.
  rewrite forallb_forall in Hb. now apply Hb.
Qed.

Lemma minimax_value_leaf (fuel : nat) (s : State) (m : bool) (depth : Z) :
  cutoff g s depth = true ->
  minimax_value g fuel s m depth = Fin (node_evaluation g s).
Proof. intros H. destruct fuel; simpl; now rewrite H. Qed.

Lemma minimax_value_step (fuel : nat) (s : State) (m : bool) (depth : Z) (l : list Z) :
  cutoff g s depth = false -> sorted_columns g s = Ok l ->
  minimax_value g (S fuel) s m depth
  = if m
    then fold_right Ext.max NInf
           (map (fun c => minimax_value g fuel (generate_successor_state s c)
                            (negb m) (depth + 1)) l)
    else fold_right Ext.min PInf
           (map (fun c => minimax_value g fuel (generate_successor_state s c)
                            (negb m) (depth + 1)) l).
Proof.
  intros Hcut Hl. cbn [minimax_value]. rewrite Hcut.
  now rewrite (ordered_sorted _ _ Hl).
Qed.

Lemma minimax_value_finite (fuel : nat) :
  forall (s : State) (m : bool) (depth : Z),
    bounded g fuel s depth = true -> Ext.finite (minimax_value g fuel s m depth).
Proof.
  induction fuel as [| fuel IH]; intros s m depth Hb.
  - rewrite minimax_value_leaf by now apply bounded_zero. exact I.
  - destruct (cutoff g s depth) eqn:Hcut.
    + rewrite minimax_value_leaf by assumption. exact I.
    + destruct (sorted_columns_in_range g s (Hrange s)) as [l Hl].
      erewrite minimax_value_step by eassumption.
      assert (Hne : l <> []).
      { apply (sorted_columns_nonempty _ _ Hl), Hcol.
        now apply cutoff_false_in_progress with (depth := depth). }
      assert (Hall : Forall Ext.finite
                (map (fun c => minimax_value g fuel (generate_successor_state s c)
                                 (negb m) (depth + 1)) l)).
      { apply Forall_forall. intros v Hv. apply in_map_iff in Hv.
        destruct Hv as (c & <- & Hc). apply IH.
        apply bounded_child; trivial. now apply (sorted_columns_In g s c Hl). }
      assert (Hne' : map (fun c => minimax_value g fuel (generate_successor_state s c)
                                     (negb m) (depth + 1)) l <> []).
      { destruct l; simpl; congruence. }
      destruct m; [now apply fold_max_finite | now apply fold_min_finite].
Qed.

Lemma minimax_ab_correct (fuel : nat) :
  forall (node : Node State) (p : player) (a b : ext) (depth : Z),
    Ext.lt a b -> bounded g fuel (state node) depth = true ->
    exists v n,
      minimax_ab g fuel node p a b depth = Ok (v, n)
      /\ within a b
           (minimax_value g fuel (state node) (player_eqb p (max_player g)) depth) v.
Proof.
  induction fuel as [| fuel IH]; intros node p a b depth Hab Hb.
  - apply bounded_zero in Hb. cbn [minimax_ab]. rewrite Hb.
    do 2 eexists. split; [reflexivity |].
    rewrite minimax_value_leaf by assumption. apply within_exact.
  - destruct (cutoff g (state node) depth) eqn:Hcut.
    + cbn [minimax_ab]. rewrite Hcut. do 2 eexists. split; [reflexivity |].
      rewrite minimax_value_leaf by assumption. apply within_exact.
    + destruct (sorted_columns_in_range g (state node) (Hrange (state node))) as [l Hl].
      cbn [minimax_ab]. rewrite Hcut, Hl. cbn [bind].
      erewrite minimax_value_step by eassumption.
      destruct (player_eqb p (max_player g)) eqn:Hp.
      * destruct (@max_loop_spec _ _ g (minimax_ab g fuel) (state node) b depth
                    (fun c => minimax_value g fuel
                                (generate_successor_state (state node) c) false (depth + 1))
                    l node NInf a eq_refl Hab) as (V & n' & Hloop & HP).
        { intros c Hc a' b' Hab'.
          destruct (IH (new_Node (generate_successor_state (state node) c) c)
                      (min_player g) a' b' (depth + 1) Hab') as (v & n & Hv & Hw).
          - apply bounded_child; trivial. now apply (sorted_columns_In g _ c Hl).
          - exists v, n. split; [exact Hv |].
            rewrite (player_eqb_neq (not_eq_sym Hpl)) in Hw. exact Hw. }
        exists V, n'. split; [exact Hloop |]. now apply window_top.
      * destruct (@min_loop_spec _ _ g (minimax_ab g fuel) (state node) depth
                    (fun c => minimax_value g fuel
                                (generate_successor_state (state node) c) true (depth + 1))
                    l node PInf a b eq_refl Hab) as (V & n' & Hloop & HP).
        { intros c Hc a' b' Hab'.
          destruct (IH (new_Node (generate_successor_state (state node) c) c)
                      (max_player g) a' b' (depth + 1) Hab') as (v & n & Hv & Hw).
          - apply bounded_child; trivial. now apply (sorted_columns_In g _ c Hl).
          - exists v, n. split; [exact Hv |].
            rewrite player_eqb_refl in Hw. exact Hw. }
        exists V, n'. split; [exact Hloop |]. now apply window_bottom.
Qed.

End Correctness.

Lemma ns_window (a b T V : ext) :
  Ext.lt a b ->
  Ext.le NInf V /\ (Ext.lt V b -> Ext.le T V) /\ (Ext.lt a V -> Ext.le V T) ->
  within a b T V.
Proof. intros Hab HP. ext_solve. Qed.

Section NegascoutCorrectness.

Context {State : Type} {API : StateAPI State}.
Variable g : Globals.
Hypothesis Hrange : columns_in_range.
Hypothesis Hcol : in_progress_has_column.
Hypothesis Hpl : max_player g <> min_player g.

Lemma negamax_value_finite (fuel : nat) (s : State) (p : player) (depth : Z) :
  bounded g fuel s depth = true -> Ext.finite (negamax_value g fuel s p depth).
Proof.
  intros Hb. unfold negamax_value.
  destruct (player_eqb p (max_player g)); [| apply neg_finite];
    now apply minimax_value_finite.
Qed.

Lemma negamax_value_leaf (fuel : nat) (s : State) (p : player) (depth : Z) :
  cutoff g s depth = true ->
  negamax_value g fuel s p depth
  = Fin (node_evaluation g s * (if player_eqb p (min_player g) then -1 else 1)).
Proof.
  intros Hcut. unfold negamax_value. rewrite !minimax_value_leaf by assumption.
  destruct (two_players p Hpl) as [-> | ->].
  - rewrite player_eqb_refl, (player_eqb_neq Hpl). f_equal. lia.
  - rewrite player_eqb_refl, (player_eqb_neq (not_eq_sym Hpl)). simpl. f_equal. lia.
Qed.

Lemma negamax_value_step (fuel : nat) (s : State) (p : player) (depth : Z) (l : list Z) :
  cutoff g s depth = false -> sorted_columns g s = Ok l ->
  negamax_value g (S fuel) s p depth
  = fold_right Ext.max NInf
      (map (fun c => Ext.neg (negamax_value g fuel (generate_successor_state s c)
                                (if player_eqb p (min_player g)
                                 then max_player g else min_player g)
                                (depth + 1))) l).
Proof.
  intros Hcut Hl. unfold negamax_value. erewrite !minimax_value_step by eassumption.
  destruct (two_players p Hpl) as [-> | ->].
  - rewrite player_eqb_refl, (player_eqb_neq Hpl).
    rewrite (player_eqb_neq (not_eq_sym Hpl)). simpl negb.
    f_equal. apply map_ext. intros c. now rewrite neg_involutive.
  - rewrite player_eqb_refl, (player_eqb_neq (not_eq_sym Hpl)). simpl negb.
    rewrite <- fold_max_neg, map_map. f_equal. apply map_ext. intros c.
    now rewrite player_eqb_refl.
Qed.

Lemma negascout_correct (fuel : nat) :
  forall (node : Node State) (p : player) (a b : ext) (depth : Z),
    Ext.lt a b -> bounded g fuel (state node) depth = true ->
    exists v n,
      negascout g fuel node p a b depth = Ok (v, n)
      /\ within a b (negamax_value g fuel (state node) p depth) v.
Proof.
  induction fuel as [| fuel IH]; intros node p a b depth Hab Hb.
  - apply (bounded_zero g) in Hb. cbn [negascout]. rewrite Hb.
    do 2 eexists. split; [reflexivity |].
    rewrite negamax_value_leaf by assumption. apply within_exact.
  - destruct (cutoff g (state node) depth) eqn:Hcut.
    + cbn [negascout]. rewrite Hcut. do 2 eexists. split; [reflexivity |].
      rewrite negamax_value_leaf by assumption. apply within_exact.
    + destruct (sorted_columns_in_range g (state node) (Hrange (state node))) as [l Hl].
      cbn [negascout]. rewrite Hcut, Hl. cbn [bind].
      erewrite negamax_value_step by eassumption.
      set (other := if player_eqb p (min_player g) then max_player g else min_player g).
      destruct (@negascout_loop_spec _ _ (negascout g fuel) (state node) other
                  (first_col l) depth
                  (fun c => negamax_value g fuel
                              (generate_successor_state (state node) c) other (depth + 1))
                  b l node NInf a eq_refl Hab) as (V & n' & Hloop & HP).
      * exact I.
      * intros _. destruct l; [exact I | reflexivity].
      * intros c Hc a' b' Hab'.
        apply (IH (new_Node (generate_successor_state (state node) c) c)); trivial.
        eapply bounded_child; eauto. now apply (sorted_columns_In g _ c Hl).
      * intros c Hc. apply negamax_value_finite.
        eapply bounded_child; eauto. now apply (sorted_columns_In g _ c Hl).
      * exists V, n'. split; [exact Hloop |]. now apply ns_window.
Qed.

End NegascoutCorrectness.

(** ** The claims on the two searches *)

Section Agreement.

Context {State : Type} {API : StateAPI State}.

Lemma set_globals_players (s : State) (depth : Z) :
  max_player (set_globals s depth) <> min_player (set_globals s depth).
Proof. unfold set_globals. simpl. now destruct (get_next_on_move s). Qed.

Lemma set_globals_max_player (s : State) (depth : Z) :
  max_player (set_globals s depth) = get_next_on_move s.
Proof. reflexivity. Qed.

Lemma searches_agree (g : Globals) (s : State) (fuel : nat) (depth : Z) :
  columns_in_range -> in_progress_has_column ->
  max_player g <> min_player g ->
  bounded g fuel s depth = true ->
  exists n1 n2,
    minimax_ab g fuel (new_Node s (-1)) (max_player g) NInf PInf depth
    = Ok (minimax_value g fuel s true depth, n1)
    /\ negascout g fuel (new_Node s (-1)) (max_player g) NInf PInf depth
       = Ok (minimax_value g fuel s true depth, n2).
Proof.
  intros Hrange Hcol Hpl Hb.
  destruct (minimax_ab_correct g Hrange Hpl fuel (new_Node s (-1)) (max_player g)
              NInf PInf depth I Hb) as (v1 & n1 & H1 & Hw1).
  destruct (negascout_correct g Hrange Hcol Hpl fuel (new_Node s (-1)) (max_player g)
              NInf PInf depth I Hb) as (v2 & n2 & H2 & Hw2).
  apply within_full in Hw1, Hw2. subst v1 v2.
  unfold negamax_value in H2. rewrite player_eqb_refl in H1, H2.
  now exists n1, n2.
Qed.

(** A positive depth bound bounds every line of play. *)
Lemma bounded_by_depth (g : Globals) (d : Z) (n : nat) :
  max_depth g = Fin d ->
  forall (s : State) (depth : Z),
    d - depth = Z.of_nat n -> bounded g n s depth = true.
Proof.
  intros Hd. induction n as [| n IH]; intros s depth Hn.
  - simpl. unfold cutoff. rewrite Hd. simpl.
    replace (depth =? d) with true by (symmetry; apply Z.eqb_eq; lia).
    now rewrite orb_true_r.
  - cbn [bounded]. destruct (cutoff g s depth); [reflexivity |]. simpl.
    apply forallb_forall. intros c _. apply IH. lia.
Qed.

(** C1: called at the root with the maximizing player to move and the full
    window, alpha-beta minimax and NegaScout return the same value, the
    minimax value of the position, whenever the budget covers the tree. *)
Theorem search_values_agree (g : Globals) (s : State) (fuel : nat) :
  columns_in_range -> in_progress_has_column ->
  max_player g <> min_player g ->
  bounded g fuel s 0 = true ->
  exists v n1 n2,
    minimax_ab g fuel (new_Node s (-1)) (max_player g) NInf PInf 0 = Ok (v, n1)
    /\ negascout g fuel (new_Node s (-1)) (max_player g) NInf PInf 0 = Ok (v, n2)
    /\ v = minimax_value g fuel s true 0.
Proof.
  intros Hrange Hcol Hpl Hb.
  destruct (searches_agree g s fuel 0 Hrange Hcol Hpl Hb) as (n1 & n2 & H1 & H2).
  now exists (minimax_value g fuel s true 0), n1, n2.
Qed.

(** With a positive depth bound, as the agents set it, the two searches
    return the same value on every position, with no more budget than the
    bound. *)
Lemma agreement_at_positive_depth (s : State) (depth : Z) :
  columns_in_range -> in_progress_has_column -> 0 < depth ->
  exists v n1 n2,
    minimax_ab (set_globals s depth) (Z.to_nat depth) (new_Node s (-1))
      (get_next_on_move s) NInf PInf 0 = Ok (v, n1)
    /\ negascout (set_globals s depth) (Z.to_nat depth) (new_Node s (-1))
         (get_next_on_move s) NInf PInf 0 = Ok (v, n2).
Proof.
  intros Hrange Hcol Hd.
  assert (Hb : bounded (set_globals s depth) (Z.to_nat depth) s 0 = true).
  { apply bounded_by_depth with (d := depth); [| lia].
    unfold set_globals. simpl. now replace (depth =? 0) with false
      by (symmetry; apply Z.eqb_neq; lia). }
  destruct (searches_agree (set_globals s depth) s (Z.to_nat depth) 0 Hrange Hcol
              (set_globals_players s depth) Hb) as (n1 & n2 & H1 & H2).
  now exists (minimax_value (set_globals s depth) (Z.to_nat depth) s true 0), n1, n2.
Qed.

End Agreement.

(** ** The agents *)

Section Agents.

Context {State : Type} {API : StateAPI State}.

Lemma terminal_cutoff (g : Globals) (s : State) (o : outcome) (depth : Z) :
  get_state_status s = Some o -> cutoff g s depth = true.
Proof. intros H. unfold cutoff, is_terminal_node. now rewrite H. Qed.

Lemma terminal_evaluation (g : Globals) (s : State) (o : outcome) :
  max_player g <> min_player g -> get_state_status s = Some o ->
  node_evaluation g s = terminal_score g s o.
Proof.
  intros Hpl Hs. unfold node_evaluation, terminal_score. rewrite Hs.
  destruct o as [q |]; simpl; [| reflexivity].
  destruct (two_players q Hpl) as [-> | ->].
  - now rewrite player_eqb_refl.
  - now rewrite (player_eqb_neq (not_eq_sym Hpl)), player_eqb_refl.
Qed.

(** On a finished game both searches return at once, with the node as they
    found it. *)
Lemma terminal_search (g : Globals) (fuel : nat) (node : Node State) (o : outcome)
    (p : player) (a b : ext) (depth : Z) :
  get_state_status (state node) = Some o ->
  minimax_ab g fuel node p a b depth
  = Ok (Fin (node_evaluation g (state node)), node)
  /\ negascout g fuel node p a b depth
     = Ok (Fin (node_evaluation g (state node) * negamax_sign g p), node).
Proof.
  intros Hs. pose proof (terminal_cutoff g _ depth Hs) as Hcut.
  destruct fuel; cbn [minimax_ab negascout]; rewrite Hcut; now split.
Qed.

Lemma terminal_root (fuel : nat) (s : State) (o : outcome) (depth : Z) :
  get_state_status s = Some o ->
  minimax_ab (set_globals s depth) fuel (new_Node s (-1)) (get_next_on_move s)
    NInf PInf 0
  = Ok (Fin (node_evaluation (set_globals s depth) s), new_Node s (-1))
  /\ negascout (set_globals s depth) fuel (new_Node s (-1)) (get_next_on_move s)
       NInf PInf 0
     = Ok (Fin (node_evaluation (set_globals s depth) s), new_Node s (-1)).
Proof.
  intros Hs.
  destruct (terminal_search (set_globals s depth) fuel (new_Node s (-1))
              (get_next_on_move s) NInf PInf 0 Hs) as [H1 H2].
  split; [exact H1 |]. rewrite H2. unfold negamax_sign.
  rewrite <- (set_globals_max_player s depth).
  rewrite (player_eqb_neq (set_globals_players s depth)).
  now rewrite Z.mul_1_r.
Qed.

(** C2 (as the code has it): a finished game is not rejected. Neither agent
    raises on it, whatever the budget: each runs its search on the root,
    which answers at once, and returns normally what the root holds. *)
Theorem terminal_position_not_rejected (fuel : nat) (g0 : Globals) (s : State)
    (o : outcome) (depth : Z) :
  get_state_status s = Some o ->
  (forall e, MinimaxABAgent_get_chosen_column fuel g0 s depth <> Raised e)
  /\ (forall e, Negascout_get_chosen_column fuel g0 s depth <> Raised e)
  /\ (exists v root,
        minimax_ab (set_globals s depth) fuel (new_Node s (-1)) (get_next_on_move s)
          NInf PInf 0 = Ok (v, root)
        /\ MinimaxABAgent_get_chosen_column fuel g0 s depth
           = Ok (set_globals s depth, chosen_succ root))
  /\ (exists v root,
        negascout (set_globals s depth) fuel (new_Node s (-1)) (get_next_on_move s)
          NInf PInf 0 = Ok (v, root)
        /\ Negascout_get_chosen_column fuel g0 s depth
           = Ok (set_globals s depth, chosen_succ root)).
Proof.
  intros Hs. destruct (terminal_root fuel s depth Hs) as [H1 H2].
  unfold MinimaxABAgent_get_chosen_column, Negascout_get_chosen_column.
  rewrite set_globals_max_player, H1, H2. simpl.
  repeat split; try discriminate; do 2 eexists; split; reflexivity.
Qed.

(** C10: on a finished game the search returns at the root without assigning
    the root's best child, and both agents return [None], raising nothing. *)
Theorem terminal_position_returns_none (fuel : nat) (g0 : Globals) (s : State)
    (o : outcome) (depth : Z) :
  get_state_status s = Some o ->
  (exists v root,
     minimax_ab (set_globals s depth) fuel (new_Node s (-1)) (get_next_on_move s)
       NInf PInf 0 = Ok (v, root)
     /\ chosen_succ root = None)
  /\ (exists v root,
        negascout (set_globals s depth) fuel (new_Node s (-1)) (get_next_on_move s)
          NInf PInf 0 = Ok (v, root)
        /\ chosen_succ root = None)
  /\ MinimaxABAgent_get_chosen_column fuel g0 s depth = Ok (set_globals s depth, None)
  /\ Negascout_get_chosen_column fuel g0 s depth = Ok (set_globals s depth, None).
Proof.
  intros Hs. destruct (terminal_root fuel s depth Hs) as [H1 H2].
  unfold MinimaxABAgent_get_chosen_column, Negascout_get_chosen_column.
  rewrite set_globals_max_player, H1, H2. simpl.
  repeat split; do 2 eexists; split; reflexivity.
Qed.

(** C3 (as the code has it): the parameters of a search are the module
    globals, which each agent overwrites before it searches; so what an
    agent returns, and the store it leaves, depend on the position and the
    depth bound alone, not on the store left by an earlier search. *)
Theorem get_chosen_column_ignores_store (fuel : nat) (g1 g2 : Globals) (s : State)
    (depth : Z) :
  MinimaxABAgent_get_chosen_column fuel g1 s depth
  = MinimaxABAgent_get_chosen_column fuel g2 s depth
  /\ Negascout_get_chosen_column fuel g1 s depth
     = Negascout_get_chosen_column fuel g2 s depth
  /\ (forall g' r, MinimaxABAgent_get_chosen_column fuel g1 s depth = Ok (g', r) ->
                   g' = set_globals s depth)
  /\ (forall g' r, Negascout_get_chosen_column fuel g1 s depth = Ok (g', r) ->
                   g' = set_globals s depth).
Proof.
  repeat split; try reflexivity; intros g' r;
    unfold MinimaxABAgent_get_chosen_column, Negascout_get_chosen_column;
    match goal with |- bind ?c _ = _ -> _ => destruct c end; simpl; congruence.
Qed.

(** C5 (as the code has it): at a finished game reached at the depth limit,
    alpha-beta minimax returns the terminal score of the evaluator, and
    NegaScout returns that score for the player to move: negated when the
    minimizing player is to move.  Neither returns the heuristic count. *)
Theorem terminal_score_at_depth_limit (g : Globals) (fuel : nat) (node : Node State)
    (o : outcome) (p : player) (a b : ext) (depth : Z) :
  max_player g <> min_player g ->
  get_state_status (state node) = Some o ->
  max_depth g = Fin depth ->
  minimax_ab g fuel node p a b depth
  = Ok (Fin (terminal_score g (state node) o), node)
  /\ negascout g fuel node p a b depth
     = Ok (Fin (terminal_score g (state node) o * negamax_sign g p), node).
Proof.
  intros Hpl Hs _. rewrite <- (terminal_evaluation g (state node) Hpl Hs).
  now apply terminal_search with (o := o).
Qed.

(** C9: with depth argument 0 the bound is infinite, the depth test of the
    cut-off never holds, and a search stops at finished games only: at any
    other node it goes on to the children. *)
Theorem depth_zero_unbounded (s0 : State) :
  max_depth (set_globals s0 0) = PInf
  /\ (forall depth : Z, Ext.eqb (Fin depth) (max_depth (set_globals s0 0)) = false)
  /\ (forall (s : State) (depth : Z),
        cutoff (set_globals s0 0) s depth = is_terminal_node s)
  /\ (forall fuel node p a b depth,
        is_terminal_node (state node) = false ->
        minimax_ab (set_globals s0 0) (S fuel) node p a b depth
        = (sorted_cols <- sorted_columns (set_globals s0 0) (state node) ;;
           if player_eqb p (max_player (set_globals s0 0))
           then max_loop (set_globals s0 0) (minimax_ab (set_globals s0 0) fuel)
                  sorted_cols node NInf a b depth
           else min_loop (set_globals s0 0) (minimax_ab (set_globals s0 0) fuel)
                  sorted_cols node PInf a b depth)
        /\ negascout (set_globals s0 0) (S fuel) node p a b depth
           = (sorted_cols <- sorted_columns (set_globals s0 0) (state node) ;;
              negascout_loop (negascout (set_globals s0 0) fuel)
                (if player_eqb p (min_player (set_globals s0 0))
                 then max_player (set_globals s0 0)
                 else min_player (set_globals s0 0))
                (first_col sorted_cols) sorted_cols node NInf a b depth)).
Proof.
  assert (Hcut : forall s depth, cutoff (set_globals s0 0) s depth = is_terminal_node s).
  { intros s depth. unfold cutoff. simpl. apply orb_false_r. }
  repeat split; trivial.
  - cbn [minimax_ab]. now rewrite Hcut, H.
  - cbn [negascout]. now rewrite Hcut, H.
Qed.

End Agents.

(** ** The column a search records at its node *)

Lemma finite_neq_PInf (x : ext) : Ext.finite x -> x <> PInf.
Proof. destruct x; simpl; intros H; [tauto | discriminate | tauto]. Qed.

Lemma finite_neq_NInf (x : ext) : Ext.finite x -> x <> NInf.
Proof. destruct x; simpl; intros H; [tauto | discriminate | tauto]. Qed.

Lemma keep_finite_max (score v : ext) :
  Ext.finite v -> score <> PInf -> Ext.ltb score v = false -> Ext.finite score.
Proof. destruct score, v; simpl; intros; try tauto; try discriminate; congruence. Qed.

Lemma keep_finite_min (score v : ext) :
  Ext.finite v -> score <> NInf -> Ext.ltb v score = false -> Ext.finite score.
Proof. destruct score, v; simpl; intros; try tauto; try discriminate; congruence. Qed.

Lemma finite_above_NInf (v : ext) : Ext.finite v -> Ext.ltb NInf v = true.
Proof. destruct v; simpl; intros; tauto || reflexivity. Qed.

Section Chosen.

Context {State : Type} {API : StateAPI State}.
Variable g : Globals.
Variable rec : @search State.
Hypothesis rec_finite :
  forall node p a b depth v n, rec node p a b depth = Ok (v, n) -> Ext.finite v.

Lemma max_loop_finite (beta : ext) (depth : Z) (cols : list Z) :
  forall (node : Node State) (score alpha V : ext) (n' : Node State),
    max_loop g rec cols node score alpha beta depth = Ok (V, n') ->
    score <> PInf -> Ext.finite score \/ cols <> [] -> Ext.finite V.
Proof.
  induction cols as [| c rest IH]; intros node score alpha V n' Hloop Hne Hor.
  - simpl in Hloop. injection Hloop as <- <-. destruct Hor; [assumption | congruence].
  - cbn [max_loop] in Hloop.
    destruct (rec _ _ _ _ _) as [[v n] | e |] eqn:Hrec; cbn [bind fst] in Hloop;
      try discriminate.
    pose proof Hrec as Hv. apply rec_finite in Hv.
    destruct (Ext.ltb score v) eqn:Hlt.
    + destruct (Ext.geb v beta).
      * now injection Hloop as <- <-.
      * apply IH in Hloop; auto using finite_neq_PInf.
    + pose proof (@keep_finite_max score v Hv Hne Hlt) as Hsc.
      destruct (Ext.geb alpha beta).
      * now injection Hloop as <- <-.
      * apply IH in Hloop; auto.
Qed.

Lemma min_loop_finite (alpha : ext) (depth : Z) (cols : list Z) :
  forall (node : Node State) (score beta V : ext) (n' : Node State),
    min_loop g rec cols node score alpha beta depth = Ok (V, n') ->
    score <> NInf -> Ext.finite score \/ cols <> [] -> Ext.finite V.
Proof.
  induction cols as [| c rest IH]; intros node score beta V n' Hloop Hne Hor.
  - simpl in Hloop. injection Hloop as <- <-. destruct Hor; [assumption | congruence].
  - cbn [min_loop] in Hloop.
    destruct (rec _ _ _ _ _) as [[v n] | e |] eqn:Hrec; cbn [bind fst] in Hloop;
      try discriminate.
    pose proof Hrec as Hv. apply rec_finite in Hv.
    destruct (Ext.ltb v score) eqn:Hlt.
    + destruct (Ext.geb alpha v).
      * now injection Hloop as <- <-.
      * apply IH in Hloop; auto using finite_neq_NInf.
    + pose proof (@keep_finite_min score v Hv Hne Hlt) as Hsc.
      destruct (Ext.geb alpha beta).
      * now injection Hloop as <- <-.
      * apply IH in Hloop; auto.
Qed.

(** The node a loop hands back holds one of the columns [all] when the
    loop starts from minus infinity on a list that is not empty, or when the
    node held one already. *)
Lemma max_loop_chosen (all : list Z) (beta : ext) (depth : Z) (cols : list Z) :
  forall (node : Node State) (score alpha V : ext) (n' : Node State),
    max_loop g rec cols node score alpha beta depth = Ok (V, n') ->
    (forall c, In c cols -> In c all) ->
    (score = NInf /\ cols <> []) \/ (exists c, In c all /\ chosen_succ node = Some c) ->
    exists c, In c all /\ chosen_succ n' = Some c.
Proof.
  induction cols as [| c rest IH]; intros node score alpha V n' Hloop Hsub Hor.
  - simpl in Hloop. injection Hloop as <- <-.
    destruct Hor as [[_ Hne] | H]; [congruence | exact H].
  - cbn [max_loop] in Hloop.
    destruct (rec _ _ _ _ _) as [[v n] | e |] eqn:Hrec; cbn [bind fst] in Hloop;
      try discriminate.
    pose proof Hrec as Hv. apply rec_finite in Hv.
    assert (Hc : In c all) by (apply Hsub; now left).
    assert (Hsub' : forall c', In c' rest -> In c' all) by (intros; apply Hsub; now right).
    destruct (Ext.ltb score v) eqn:Hlt.
    + assert (Hnew : exists c', In c' all /\ chosen_succ (set_chosen_succ node c) = Some c')
        by (exists c; now split).
      destruct (Ext.geb v beta).
      * now injection Hloop as <- <-.
      * apply IH in Hloop; auto.
    + assert (Hold : exists c', In c' all /\ chosen_succ node = Some c').
      { destruct Hor as [[-> _] | H]; [| exact H].
        rewrite (@finite_above_NInf v Hv) in Hlt. discriminate. }
      destruct (Ext.geb alpha beta).
      * now injection Hloop as <- <-.
      * apply IH in Hloop; auto.
Qed.

End Chosen.

Section ChosenSearch.

Context {State : Type} {API : StateAPI State}.
Variable g : Globals.
Hypothesis Hcol : in_progress_has_column.

Lemma negascout_loop_chosen (rec : @search State) (other : player) (first : Z)
    (all : list Z) (beta : ext) (depth : Z) (cols : list Z) :
  forall (node : Node State) (score alpha V : ext) (n' : Node State),
    negascout_loop rec other first cols node score alpha beta depth = Ok (V, n') ->
    (forall c, In c cols -> In c all) ->
    (exists rest, cols = first :: rest)
    \/ (exists c, In c all /\ chosen_succ node = Some c) ->
    exists c, In c all /\ chosen_succ n' = Some c.
Proof.
  induction cols as [| c rest IH]; intros node score alpha V n' Hloop Hsub Hor.
  - simpl in Hloop. injection Hloop as <- <-.
    destruct Hor as [[r Hr] | H]; [discriminate | exact H].
  - cbn [negascout_loop] in Hloop.
    assert (Hc : In c all) by (apply Hsub; now left).
    assert (Hsub' : forall c', In c' rest -> In c' all) by (intros; apply Hsub; now right).
    assert (Hnew : exists c', In c' all /\ chosen_succ (set_chosen_succ node c) = Some c')
      by (exists c; now split).
    assert (Htail : forall cs n1,
              (exists c', In c' all /\ chosen_succ n1 = Some c') ->
              (if Ext.geb (Ext.max alpha (Ext.max score cs)) beta
               then Ok (Ext.max score cs, n1)
               else negascout_loop rec other first rest n1 (Ext.max score cs)
                      (Ext.max alpha (Ext.max score cs)) beta depth) = Ok (V, n') ->
              exists c', In c' all /\ chosen_succ n' = Some c').
    { intros cs n1 Hn1 H.
      destruct (Ext.geb (Ext.max alpha (Ext.max score cs)) beta).
      - now injection H as <- <-.
      - apply IH in H; auto. }
    destruct (c =? first) eqn:Hcf.
    + destruct (rec _ _ _ _ _) as [[v n] | e |]; cbn [bind fst] in Hloop;
        try discriminate.
      exact (Htail _ _ Hnew Hloop).
    + assert (Hold : exists c', In c' all /\ chosen_succ node = Some c').
      { destruct Hor as [[r Hr] | H]; [| exact H].
        injection Hr as -> _. rewrite Z.eqb_refl in Hcf. discriminate. }
      destruct (rec _ _ _ _ _) as [[v1 n1] | e |]; cbn [bind fst] in Hloop;
        try discriminate.
      destruct (Ext.ltb alpha (Ext.neg v1) && Ext.ltb (Ext.neg v1) beta).
      * destruct (rec _ _ _ _ _) as [[v2 n2] | e |]; cbn [bind fst] in Hloop;
          try discriminate.
        exact (Htail _ _ Hnew Hloop).
      * cbn [bind] in Hloop. exact (Htail _ _ Hold Hloop).
Qed.

Lemma minimax_ab_finite (fuel : nat) :
  forall (node : Node State) (p : player) (a b : ext) (depth : Z) (v : ext)
         (n : Node State),
    minimax_ab g fuel node p a b depth = Ok (v, n) -> Ext.finite v.
Proof.
  induction fuel as [| fuel IH]; intros node p a b depth v n H; cbn [minimax_ab] in H;
    destruct (cutoff g (state node) depth) eqn:Hcut;
    try (injection H as <- <-; exact I); try discriminate.
  destruct (sorted_columns g (state node)) as [l | e |] eqn:Hl; cbn [bind] in H;
    try discriminate.
  assert (Hne : l <> []).
  { apply (sorted_columns_nonempty _ _ Hl), Hcol.
    now apply cutoff_false_in_progress with (g := g) (depth := depth). }
  destruct (player_eqb p (max_player g)).
  - eapply max_loop_finite in H; eauto. discriminate.
  - eapply min_loop_finite in H; eauto. discriminate.
Qed.

End ChosenSearch.

Section RootColumn.

Context {State : Type} {API : StateAPI State}.

Lemma root_not_cut (s : State) (depth : Z) :
  get_state_status s = None -> cutoff (set_globals s depth) s 0 = false.
Proof.
  intros Hs. unfold cutoff, is_terminal_node. rewrite Hs.
  now destruct depth.
Qed.

(** C7: on a position in progress, a search the agents start at the root
    that completes leaves one of the legal columns of the position in the
    root's [chosen_succ]. *)
Theorem chosen_column_is_legal (fuel : nat) (s : State) (depth : Z) :
  in_progress_has_column ->
  get_state_status s = None ->
  (forall v root,
     minimax_ab (set_globals s depth) fuel (new_Node s (-1)) (get_next_on_move s)
       NInf PInf 0 = Ok (v, root) ->
     exists c, chosen_succ root = Some c /\ In c (get_possible_columns s))
  /\ (forall v root,
        negascout (set_globals s depth) fuel (new_Node s (-1)) (get_next_on_move s)
          NInf PInf 0 = Ok (v, root) ->
        exists c, chosen_succ root = Some c /\ In c (get_possible_columns s)).
Proof.
  intros Hcol Hs. pose proof (root_not_cut s depth Hs) as Hcut.
  split; intros v root H.
  - destruct fuel as [| fuel]; cbn [minimax_ab state new_Node] in H; rewrite Hcut in H;
      [discriminate |].
    destruct (sorted_columns (set_globals s depth) s) as [l | e |] eqn:Hl;
      cbn [bind] in H; try discriminate.
    rewrite set_globals_max_player, player_eqb_refl in H.
    eapply max_loop_chosen with (all := get_possible_columns s) in H.
    + destruct H as (c & Hc & Hch). now exists c.
    + intros. eapply minimax_ab_finite; eauto.
    + intros c Hc. now apply (sorted_columns_In _ s c Hl).
    + left. split; [reflexivity |].
      apply (sorted_columns_nonempty _ _ Hl). now apply Hcol.
  - destruct fuel as [| fuel]; cbn [negascout state new_Node] in H; rewrite Hcut in H;
      [discriminate |].
    destruct (sorted_columns (set_globals s depth) s) as [l | e |] eqn:Hl;
      cbn [bind] in H; try discriminate.
    eapply negascout_loop_chosen with (all := get_possible_columns s) in H.
    + destruct H as (c & Hc & Hch). now exists c.
    + intros c Hc. now apply (sorted_columns_In _ s c Hl).
    + left. destruct l as [| c rest].
      * exfalso. apply (sorted_columns_nonempty _ _ Hl); [now apply Hcol | reflexivity].
      * now exists rest.
Qed.

End RootColumn.

(** ** A search of depth one *)

Lemma leaf_score_neg (e : Z) : Ext.neg (Fin (e * -1)) = Fin e.
Proof. simpl. f_equal. lia. Qed.

Lemma ltb_Fin_ge (E e : Z) : e <= E -> Ext.ltb (Fin E) (Fin e) = false.
Proof. intros H. simpl. now apply Z.ltb_ge. Qed.

Lemma max_keep (E e : Z) : e <= E -> Ext.max (Fin E) (Fin e) = Fin E.
Proof. intros H. unfold Ext.max. now rewrite ltb_Fin_ge. Qed.

Lemma status_is_won (status : option outcome) (p : player) :
  status_is status p = true -> status = Some (Won p).
Proof.
  destruct status as [[q |] |]; simpl; try discriminate.
  intros H. apply player_eqb_eq in H. now subst.
Qed.

Lemma max_NInf_Fin (e : Z) : Ext.max NInf (Fin e) = Fin e.
Proof. reflexivity. Qed.

Lemma geb_Fin_PInf (e : Z) : Ext.geb (Fin e) PInf = false.
Proof. reflexivity. Qed.

Section DepthOne.

Context {State : Type} {API : StateAPI State}.
Variable g : Globals.
Variable limit : Z.
Hypothesis Hlimit : max_depth g = Fin limit.

Lemma limit_cutoff (s : State) : cutoff g s limit = true.
Proof. unfold cutoff. rewrite Hlimit. simpl. rewrite Z.eqb_refl. apply orb_true_r. Qed.

Lemma minimax_ab_at_limit (fuel : nat) (node : Node State) (p : player) (a b : ext) :
  minimax_ab g fuel node p a b limit = Ok (Fin (node_evaluation g (state node)), node).
Proof. destruct fuel; cbn [minimax_ab]; now rewrite limit_cutoff. Qed.

Lemma negascout_at_limit (fuel : nat) (node : Node State) (a b : ext) :
  negascout g fuel node (min_player g) a b limit
  = Ok (Fin (node_evaluation g (state node) * -1), node).
Proof.
  destruct fuel; cbn [negascout]; now rewrite limit_cutoff, player_eqb_refl.
Qed.

Lemma winning_evaluation (s : State) :
  status_is (get_state_status s) (max_player g) = true ->
  958 <= node_evaluation g s.
Proof.
  intros H. unfold node_evaluation. rewrite H.
  pose proof (count_tokens_range (get_checkers s (max_player g))). lia.
Qed.

Lemma large_evaluation_wins (s : State) :
  Z.of_nat (length win_masks) < 958 ->
  958 <= node_evaluation g s ->
  status_is (get_state_status s) (max_player g) = true.
Proof.
  intros Hm. unfold node_evaluation.
  destruct (status_is (get_state_status s) (max_player g)); [reflexivity |].
  destruct (status_is (get_state_status s) (min_player g)).
  - pose proof (count_tokens_range (get_checkers s (min_player g))). lia.
  - destruct (status_is_draw (get_state_status s)); [lia |].
    rewrite mask_loop.
    pose proof (lines_without_range (get_checkers s (min_player g))) as H1.
    pose proof (lines_without_range (get_checkers s (max_player g))) as H2.
    unfold lines_without in H1, H2. lia.
Qed.

(** Once the best evaluation is the score, the loop changes nothing. *)
Lemma max_loop_keeps (fuel : nat) (E : Z) (cols : list Z) :
  forall node : Node State,
    (forall c, In c cols ->
       node_evaluation g (generate_successor_state (state node) c) <= E) ->
    max_loop g (minimax_ab g fuel) cols node (Fin E) (Fin E) PInf (limit - 1)
    = Ok (Fin E, node).
Proof.
  induction cols as [| c rest IH]; intros node Hle; [reflexivity |].
  cbn [max_loop]. replace (limit - 1 + 1) with limit by lia.
  rewrite minimax_ab_at_limit. cbn [bind fst state new_Node].
  rewrite ltb_Fin_ge by (apply Hle; now left). simpl Ext.geb. cbv iota.
  apply IH. intros c' Hc'. apply Hle. now right.
Qed.

Lemma negascout_loop_keeps (fuel : nat) (E h : Z) (cols : list Z) :
  forall node : Node State,
    chosen_succ node = Some h ->
    (forall c, In c cols ->
       node_evaluation g (generate_successor_state (state node) c) <= E) ->
    exists n',
      negascout_loop (negascout g fuel) (min_player g) h cols node (Fin E) (Fin E)
        PInf (limit - 1) = Ok (Fin E, n')
      /\ chosen_succ n' = Some h.
Proof.
  induction cols as [| c rest IH]; intros node Hch Hle.
  - exists node. now split.
  - cbn [negascout_loop]. replace (limit - 1 + 1) with limit by lia.
    rewrite !negascout_at_limit. cbn [bind fst state new_Node].
    rewrite leaf_score_neg.
    assert (Hc : node_evaluation g (generate_successor_state (state node) c) <= E)
      by (apply Hle; now left).
    destruct (Z.eqb_spec c h) as [-> | Hne]; cbn [bind].
    + rewrite (max_keep Hc), (max_keep (Z.le_refl E)). simpl Ext.geb. cbv iota.
      apply IH; [reflexivity |]. intros c' Hc'. apply Hle. now right.
    + rewrite (ltb_Fin_ge Hc). cbn [andb bind].
      rewrite (max_keep Hc), (max_keep (Z.le_refl E)). simpl Ext.geb. cbv iota.
      apply IH; [exact Hch |]. intros c' Hc'. apply Hle. now right.
Qed.

End DepthOne.

Section ImmediateWin.

Context {State : Type} {API : StateAPI State}.

Lemma depth_one_minimax (fuel : nat) (s : State) (h : Z) (rest : list Z) :
  get_state_status s = None ->
  sorted_columns (set_globals s 1) s = Ok (h :: rest) ->
  exists v root,
    minimax_ab (set_globals s 1) (S fuel) (new_Node s (-1)) (get_next_on_move s)
      NInf PInf 0 = Ok (v, root)
    /\ chosen_succ root = Some h.
Proof.
  intros Hs Hl. cbn [minimax_ab state new_Node].
  rewrite (root_not_cut s 1 Hs), Hl. cbn [bind].
  rewrite set_globals_max_player, player_eqb_refl.
  cbn [max_loop state new_Node]. change (0 + 1) with 1.
  rewrite (@minimax_ab_at_limit _ _ (set_globals s 1) 1 eq_refl).
  cbn [bind fst state new_Node]. simpl Ext.ltb. cbv iota. simpl Ext.geb. cbv iota.
  pose proof (@max_loop_keeps _ _ (set_globals s 1) 1 eq_refl fuel
                (node_evaluation (set_globals s 1) (generate_successor_state s h))
                rest (set_chosen_succ (new_Node s (-1)) h)) as Hkeep.
  change (1 - 1) with 0 in Hkeep. rewrite Hkeep.
  - do 2 eexists. split; reflexivity.
  - intros c Hc. apply (sorted_columns_head _ _ Hl). now right.
Qed.

Lemma depth_one_negascout (fuel : nat) (s : State) (h : Z) (rest : list Z) :
  get_state_status s = None ->
  sorted_columns (set_globals s 1) s = Ok (h :: rest) ->
  exists v root,
    negascout (set_globals s 1) (S fuel) (new_Node s (-1)) (get_next_on_move s)
      NInf PInf 0 = Ok (v, root)
    /\ chosen_succ root = Some h.
Proof.
  intros Hs Hl. cbn [negascout state new_Node].
  rewrite (root_not_cut s 1 Hs), Hl. cbn [bind].
  change (get_next_on_move s) with (max_player (set_globals s 1)).
  rewrite (player_eqb_neq (set_globals_players s 1)).
  cbn [negascout_loop first_col hd state new_Node]. rewrite Z.eqb_refl.
  change (0 + 1) with 1.
  rewrite (@negascout_at_limit _ _ (set_globals s 1) 1 eq_refl).
  cbn [bind fst state new_Node]. rewrite leaf_score_neg.
  rewrite !max_NInf_Fin, geb_Fin_PInf.
  destruct (@negascout_loop_keeps _ _ (set_globals s 1) 1 eq_refl fuel
              (node_evaluation (set_globals s 1) (generate_successor_state s h)) h
              rest (set_chosen_succ (new_Node s (-1)) h) eq_refl) as (n' & Hkeep & Hch).
  - intros c Hc. apply (sorted_columns_head _ _ Hl). now right.
  - change (1 - 1) with 0 in Hkeep. rewrite Hkeep. now exists
      (Fin (node_evaluation (set_globals s 1) (generate_successor_state s h))), n'.
Qed.

(** C6: when a legal column wins at once for the player to move, both agents,
    searching one ply deep, return a column that wins at once: the first
    column of the move ordering. *)
Theorem immediate_win_is_chosen (fuel : nat) (g0 : Globals) (s : State) (c0 : Z) :
  (forall c, In c (get_possible_columns s) -> 0 <= c < 7) ->
  Z.of_nat (length win_masks) < 958 ->
  get_state_status s = None ->
  In c0 (get_possible_columns s) ->
  get_state_status (generate_successor_state s c0) = Some (Won (get_next_on_move s)) ->
  exists c,
    MinimaxABAgent_get_chosen_column (S fuel) g0 s 1 = Ok (set_globals s 1, Some c)
    /\ Negascout_get_chosen_column (S fuel) g0 s 1 = Ok (set_globals s 1, Some c)
    /\ In c (get_possible_columns s)
    /\ get_state_status (generate_successor_state s c) = Some (Won (get_next_on_move s)).
Proof.
  intros Hr Hm Hs Hc0 Hwin.
  destruct (sorted_columns_in_range (set_globals s 1) s Hr) as [l Hl].
  assert (Hin : In c0 l) by now apply (sorted_columns_In _ s c0 Hl).
  destruct l as [| h rest]; [destruct Hin |].
  destruct (@depth_one_minimax fuel s h rest Hs Hl) as (v1 & r1 & H1 & Hch1).
  destruct (@depth_one_negascout fuel s h rest Hs Hl) as (v2 & r2 & H2 & Hch2).
  exists h. unfold MinimaxABAgent_get_chosen_column, Negascout_get_chosen_column.
  rewrite set_globals_max_player, H1, H2. cbn [bind snd]. rewrite Hch1, Hch2.
  repeat split.
  - apply (sorted_columns_In _ s h Hl). now left.
  - rewrite <- (set_globals_max_player s 1). apply status_is_won.
    apply large_evaluation_wins; [exact Hm |].
    pose proof (sorted_columns_head _ _ Hl Hin) as Hle.
    assert (H958 : 958 <= node_evaluation (set_globals s 1)
                            (generate_successor_state s c0)).
    { apply winning_evaluation. rewrite Hwin. simpl. apply player_eqb_refl. }
    lia.
Qed.

End ImmediateWin.

(** ** The 7 x 6 board meets the contract, and the claims on it *)

Lemma connect4_columns_in_range : @columns_in_range Connect4.board Connect4.api.
Proof.
  intros s c Hc. simpl in Hc. unfold Connect4.columns in Hc.
  apply filter_In in Hc. destruct Hc as [Hc _]. simpl in Hc. lia.
Qed.

Lemma connect4_in_progress_has_column :
  @in_progress_has_column Connect4.board Connect4.api.
Proof.
  intros s Hs. simpl in *. unfold Connect4.status in Hs.
  destruct (Connect4.has_line (Connect4.red s)); [discriminate |].
  destruct (Connect4.has_line (Connect4.yel s)); [discriminate |].
  destruct (Connect4.columns s); [discriminate | congruence].
Qed.

Lemma search_values_agree_witness :
  bounded (set_globals Connect4.empty 2) 2 Connect4.empty 0 = true
  /\ exists v n1 n2,
       minimax_ab (set_globals Connect4.empty 2) 2 (new_Node Connect4.empty (-1))
         (max_player (set_globals Connect4.empty 2)) NInf PInf 0 = Ok (v, n1)
       /\ negascout (set_globals Connect4.empty 2) 2 (new_Node Connect4.empty (-1))
            (max_player (set_globals Connect4.empty 2)) NInf PInf 0 = Ok (v, n2)
       /\ v = minimax_value (set_globals Connect4.empty 2) 2 Connect4.empty true 0.
Proof.
  split; [vm_compute; reflexivity |].
  apply (@search_values_agree _ _ (set_globals Connect4.empty 2) Connect4.empty 2).
  - exact connect4_columns_in_range.
  - exact connect4_in_progress_has_column.
  - simpl. discriminate.
  - vm_compute. reflexivity.
Defined.

Lemma node_evaluation_cases_witness :
  max_player Connect4.red_first <> min_player Connect4.red_first
  /\ node_evaluation Connect4.red_first Connect4.red_wins
     = 1000 - tokens_placed (get_checkers Connect4.red_wins RED).
Proof.
  split; [simpl; discriminate |].
  apply (@node_evaluation_cases _ _ Connect4.red_first Connect4.red_wins).
  - simpl. discriminate.
  - vm_compute. reflexivity.
Defined.

Lemma node_evaluation_swap_witness :
  get_state_status Connect4.red_threat = None
  /\ node_evaluation (swap_players Connect4.red_first) Connect4.red_threat
     = - node_evaluation Connect4.red_first Connect4.red_threat.
Proof.
  split; [vm_compute; reflexivity |].
  apply (@node_evaluation_swap _ _ Connect4.red_first Connect4.red_threat).
  vm_compute. reflexivity.
Defined.

Lemma terminal_position_not_rejected_witness :
  get_state_status Connect4.red_wins = Some (Won RED)
  /\ forall e,
       MinimaxABAgent_get_chosen_column 4 Connect4.red_first Connect4.red_wins 4
       <> Raised e.
Proof.
  split; [vm_compute; reflexivity |].
  apply (@terminal_position_not_rejected _ _ 4 Connect4.red_first Connect4.red_wins
           (Won RED) 4).
  vm_compute. reflexivity.
Defined.

Lemma terminal_position_returns_none_witness :
  get_state_status Connect4.red_wins = Some (Won RED)
  /\ MinimaxABAgent_get_chosen_column 4 Connect4.red_first Connect4.red_wins 4
     = Ok (set_globals Connect4.red_wins 4, None)
  /\ Negascout_get_chosen_column 4 Connect4.red_first Connect4.red_wins 4
     = Ok (set_globals Connect4.red_wins 4, None).
Proof.
  split; [vm_compute; reflexivity |].
  apply (@terminal_position_returns_none _ _ 4 Connect4.red_first Connect4.red_wins
           (Won RED) 4).
  vm_compute. reflexivity.
Defined.

Lemma terminal_score_at_depth_limit_witness :
  max_player Connect4.red_first <> min_player Connect4.red_first
  /\ get_state_status Connect4.red_wins = Some (Won RED)
  /\ max_depth Connect4.red_first = Fin 1
  /\ minimax_ab Connect4.red_first 0 (new_Node Connect4.red_wins 3) YEL NInf PInf 1
     = Ok (Fin (terminal_score Connect4.red_first Connect4.red_wins (Won RED)),
           new_Node Connect4.red_wins 3)
  /\ negascout Connect4.red_first 0 (new_Node Connect4.red_wins 3) YEL NInf PInf 1
     = Ok (Fin (terminal_score Connect4.red_first Connect4.red_wins (Won RED)
                * negamax_sign Connect4.red_first YEL),
           new_Node Connect4.red_wins 3).
Proof.
  split; [simpl; discriminate |].
  split; [vm_compute; reflexivity |].
  split; [reflexivity |].
  apply (@terminal_score_at_depth_limit _ _ Connect4.red_first 0
           (new_Node Connect4.red_wins 3) (Won RED) YEL NInf PInf 1).
  - simpl. discriminate.
  - vm_compute. reflexivity.
  - reflexivity.
Defined.

Lemma chosen_column_is_legal_witness :
  get_state_status Connect4.empty = None
  /\ exists c,
       chosen_succ (mkNode Connect4.empty (-1) (Some 3)) = Some c
       /\ In c (get_possible_columns Connect4.empty).
Proof.
  split; [vm_compute; reflexivity |].
  eapply (proj1 (@chosen_column_is_legal _ _ 2 Connect4.empty 2
                   connect4_in_progress_has_column eq_refl)).
  vm_compute. reflexivity.
Defined.

Lemma immediate_win_is_chosen_witness :
  get_state_status Connect4.red_threat = None
  /\ get_state_status (generate_successor_state Connect4.red_threat 3)
     = Some (Won (get_next_on_move Connect4.red_threat))
  /\ exists c,
       MinimaxABAgent_get_chosen_column 1 Connect4.red_first Connect4.red_threat 1
       = Ok (set_globals Connect4.red_threat 1, Some c)
       /\ Negascout_get_chosen_column 1 Connect4.red_first Connect4.red_threat 1
          = Ok (set_globals Connect4.red_threat 1, Some c)
       /\ In c (get_possible_columns Connect4.red_threat)
       /\ get_state_status (generate_successor_state Connect4.red_threat c)
          = Some (Won (get_next_on_move Connect4.red_threat)).
Proof.
  split; [vm_compute; reflexivity |].
  split; [vm_compute; reflexivity |].
  apply (@immediate_win_is_chosen _ _ 0 Connect4.red_first Connect4.red_threat 3).
  - apply connect4_columns_in_range.
  - vm_compute. reflexivity.
  - vm_compute. reflexivity.
  - vm_compute. tauto.
  - vm_compute. reflexivity.
Defined.

(** C2, as stated, fails: the position where red has completed column 3 is
    finished, and neither agent rejects it. *)
Lemma terminal_position_rejected_counterexample :
  is_terminal_node Connect4.red_wins = true
  /\ ~ (exists e,
          MinimaxABAgent_get_chosen_column 4 Connect4.red_first Connect4.red_wins 4
          = Raised e)
  /\ ~ (exists e,
          Negascout_get_chosen_column 4 Connect4.red_first Connect4.red_wins 4
          = Raised e)
  /\ MinimaxABAgent_get_chosen_column 4 Connect4.red_first Connect4.red_wins 4
     = Ok (mkGlobals (Fin 4) YEL RED, None).
Proof.
  split; [vm_compute; reflexivity |].
  repeat split; try (intros [e H]; vm_compute in H; discriminate).
Qed.

(** C3, as stated, fails: the same call of the search, with the same
    arguments, returns -3 under the store an agent left when it searched for
    red, and 3 under the store it left when it searched for yellow. *)
Lemma search_depends_on_store_counterexample :
  (exists r,
     MinimaxABAgent_get_chosen_column 1 Connect4.red_first Connect4.empty 1
     = Ok (mkGlobals (Fin 1) RED YEL, r))
  /\ (exists r,
        MinimaxABAgent_get_chosen_column 1 Connect4.red_first (Connect4.play [3]) 1
        = Ok (mkGlobals (Fin 1) YEL RED, r))
  /\ minimax_ab (mkGlobals (Fin 1) RED YEL) 2 (new_Node (Connect4.play [3]) 3)
       YEL NInf PInf 0
     = Ok (Fin (-3), mkNode (Connect4.play [3]) 3 (Some 3))
  /\ minimax_ab (mkGlobals (Fin 1) YEL RED) 2 (new_Node (Connect4.play [3]) 3)
       YEL NInf PInf 0
     = Ok (Fin 3, mkNode (Connect4.play [3]) 3 (Some 3))
  /\ minimax_ab (mkGlobals (Fin 1) RED YEL) 2 (new_Node (Connect4.play [3]) 3)
       YEL NInf PInf 0
     <> minimax_ab (mkGlobals (Fin 1) YEL RED) 2 (new_Node (Connect4.play [3]) 3)
          YEL NInf PInf 0.
Proof.
  repeat split; try (vm_compute; reflexivity);
    try (eexists; vm_compute; reflexivity).
  intros H. vm_compute in H. discriminate.
Qed.

(** C5, as stated, fails for NegaScout: at the finished position reached at
    the depth limit with yellow, the minimizing player, to move, the
    evaluator's terminal score is 996 and NegaScout returns -996. *)
Lemma negascout_terminal_score_counterexample :
  get_state_status Connect4.red_wins = Some (Won RED)
  /\ max_depth Connect4.red_first = Fin 1
  /\ node_evaluation Connect4.red_first Connect4.red_wins = 996
  /\ negascout Connect4.red_first 5 (new_Node Connect4.red_wins 3) YEL NInf PInf 1
     = Ok (Fin (-996), new_Node Connect4.red_wins 3)
  /\ negascout Connect4.red_first 5 (new_Node Connect4.red_wins 3) YEL NInf PInf 1
     <> Ok (Fin (node_evaluation Connect4.red_first Connect4.red_wins),
            new_Node Connect4.red_wins 3).
Proof.
  repeat split; try (vm_compute; reflexivity).
  intros H. vm_compute in H. discriminate.
Qed.

(** * Further properties of the agents *)

(** ** The move ordering is a sorted rearrangement *)

Section OrderingMore.

Context {State : Type} {API : StateAPI State}.

Lemma insert_desc_perm (x : key * Z) (l : list (key * Z)) :
  Permutation (x :: l) (insert_desc x l).
Proof.
  induction l as [| y l IH]; simpl; [reflexivity |].
  destruct (key_ltb (fst x) (fst y)); [| reflexivity].
  rewrite perm_swap. now constructor.
Qed.

Lemma sort_desc_perm (l : list (key * Z)) : Permutation l (sort_desc l).
Proof.
  induction l as [| x l IH]; simpl; [reflexivity |].
  rewrite <- insert_desc_perm. now constructor.
Qed.

Lemma key_ltb_asym (k1 k2 : key) : key_ltb k1 k2 = true -> key_ltb k2 k1 = false.
Proof.
  unfold key_ltb. destruct k1 as [a1 b1], k2 as [a2 b2]. simpl.
  z_cases; simpl; try lia; try discriminate; reflexivity.
Qed.

Lemma key_geb_trans (k1 k2 k3 : key) :
  key_ltb k1 k2 = false -> key_ltb k2 k3 = false -> key_ltb k1 k3 = false.
Proof.
  unfold key_ltb. destruct k1 as [a1 b1], k2 as [a2 b2], k3 as [a3 b3]. simpl.
  z_cases; simpl; try lia; try discriminate; reflexivity.
Qed.

Lemma insert_desc_sorted (x : key * Z) (l : list (key * Z)) :
  StronglySorted (fun a b => key_ltb (fst a) (fst b) = false) l ->
  StronglySorted (fun a b => key_ltb (fst a) (fst b) = false) (insert_desc x l).
Proof.
  induction l as [| y l IH]; intros Hl; simpl.
  - repeat constructor.
  - inversion Hl as [| ? ? Hl' Hy]; subst.
    destruct (key_ltb (fst x) (fst y)) eqn:Hxy.
    + constructor; [now apply IH |].
      apply (Permutation_Forall (insert_desc_perm x l)).
      constructor; [now apply key_ltb_asym | assumption].
    + constructor; [assumption |]. constructor; [assumption |].
      rewrite Forall_forall in *. intros z Hz.
      apply key_geb_trans with (k2 := fst y); auto.
Qed.

Lemma sort_desc_sorted (l : list (key * Z)) :
  StronglySorted (fun a b => key_ltb (fst a) (fst b) = false) (sort_desc l).
Proof.
  induction l as [| x l IH]; simpl; [constructor | now apply insert_desc_sorted].
Qed.

Lemma keyed_keys (g : Globals) (s : State) (cols : list Z) (ks : list (key * Z)) :
  keyed g s cols = Ok ks ->
  Forall (fun x => sort_key_value g s (snd x) = fst x) ks.
Proof.
  revert ks. induction cols as [| c cols IH]; intros ks; simpl.
  - intros [= <-]. constructor.
  - destruct (sort_key g s c) as [k | e |] eqn:Hk; simpl; try discriminate.
    destruct (keyed g s cols) as [ks' | e |]; simpl; try discriminate.
    intros [= <-]. constructor; [| now apply IH].
    simpl. unfold sort_key_value. now rewrite Hk.
Qed.

Lemma sorted_map_keys (g : Globals) (s : State) (l : list (key * Z)) :
  Forall (fun x => sort_key_value g s (snd x) = fst x) l ->
  StronglySorted (fun a b => key_ltb (fst a) (fst b) = false) l ->
  descending_keys g s (map snd l).
Proof.
  unfold descending_keys. induction l as [| x l IH]; intros Hf Hs; simpl.
  - constructor.
  - inversion Hf as [| ? ? Hx Hf']; subst. inversion Hs as [| ? ? Hs' Hall]; subst.
    constructor; [now apply IH |].
    rewrite Forall_forall in *. intros c Hc. apply in_map_iff in Hc.
    destruct Hc as (y & <- & Hy). rewrite Hx, (Hf' y Hy). now apply Hall.
Qed.

(** X1: when the sort raises nothing, the columns a search visits are the
    legal columns of the position, each as often as it is listed, in some
    order. *)
Theorem move_ordering_permutation (g : Globals) (s : State) (l : list Z) :
  sorted_columns g s = Ok l -> Permutation (get_possible_columns s) l.
Proof.
  unfold sorted_columns.
  destruct (keyed g s (get_possible_columns s)) as [ks | e |] eqn:Hk; simpl;
    try discriminate.
  intros [= <-]. destruct (keyed_columns _ _ _ Hk) as [Hm _]. rewrite <- Hm.
  apply Permutation_map, sort_desc_perm.
Qed.

(** X2: the columns are visited by descending key: no column comes after
    one whose pair (evaluation of the successor, centre priority) is
    smaller. *)
Theorem move_ordering_descending (g : Globals) (s : State) (l : list Z) :
  sorted_columns g s = Ok l -> descending_keys g s l.
Proof.
  unfold sorted_columns.
  destruct (keyed g s (get_possible_columns s)) as [ks | e |] eqn:Hk; simpl;
    try discriminate.
  intros [= <-]. apply sorted_map_keys.
  - apply (Permutation_Forall (sort_desc_perm ks)). eapply keyed_keys; eassumption.
  - apply sort_desc_sorted.
Qed.

End OrderingMore.

Lemma move_ordering_permutation_witness :
  sorted_columns Connect4.red_first Connect4.empty = Ok [3; 2; 4; 1; 5; 0; 6]
  /\ Permutation (get_possible_columns Connect4.empty) [3; 2; 4; 1; 5; 0; 6].
Proof.
  split; [vm_compute; reflexivity |].
  apply (@move_ordering_permutation _ _ Connect4.red_first Connect4.empty).
  vm_compute. reflexivity.
Defined.

Lemma move_ordering_descending_witness :
  sorted_columns Connect4.red_first Connect4.red_threat
  = Ok [3; 0; 6; 2; 4; 1; 5]
  /\ descending_keys Connect4.red_first Connect4.red_threat [3; 0; 6; 2; 4; 1; 5].
Proof.
  split; [vm_compute; reflexivity |].
  apply (@move_ordering_descending _ _ Connect4.red_first Connect4.red_threat).
  vm_compute. reflexivity.
Defined.

(** ** Columns outside the table *)

Lemma col_priority_cases (c : Z) :
  (-7 <= c < 7 /\ exists p, col_priority c = Ok p /\ 0 <= p <= 6)
  \/ ((c < -7 \/ 7 <= c) /\ col_priority c = Raised IndexError).
Proof.
  destruct (Z_lt_le_dec c (-7)) as [Hlo | Hlo].
  - right. split; [lia |]. unfold col_priority, py_index. simpl length.
    replace (c <? 0) with true by (symmetry; apply Z.ltb_lt; lia).
    replace (0 <=? c + Z.of_nat 7) with false by (symmetry; apply Z.leb_gt; lia).
    reflexivity.
  - destruct (Z_lt_le_dec c 7) as [Hhi | Hhi].
    + left. split; [lia |].
      assert (H : c = -7 \/ c = -6 \/ c = -5 \/ c = -4 \/ c = -3 \/ c = -2 \/ c = -1
                  \/ c = 0 \/ c = 1 \/ c = 2 \/ c = 3 \/ c = 4 \/ c = 5 \/ c = 6) by lia.
      repeat destruct H as [-> | H]; try subst c;
        (eexists; split; [reflexivity | lia]).
    + right. split; [lia |]. unfold col_priority, py_index. simpl length.
      replace (c <? 0) with false by (symmetry; apply Z.ltb_ge; lia).
      replace (c <? Z.of_nat 7) with false by (symmetry; apply Z.ltb_ge; lia).
      now rewrite andb_false_r.
Qed.

Section OrderingErrors.

Context {State : Type} {API : StateAPI State}.

Lemma keyed_outcome (g : Globals) (s : State) (cols : list Z) :
  (exists ks, keyed g s cols = Ok ks /\ forall c, In c cols -> -7 <= c < 7)
  \/ (keyed g s cols = Raised IndexError
      /\ exists c, In c cols /\ (c < -7 \/ 7 <= c)).
Proof.
  induction cols as [| c cols IH]; simpl.
  - left. eexists. split; [reflexivity | tauto].
  - unfold sort_key.
    destruct (col_priority_cases c) as [[Hc (p & Hp & _)] | [Hc Hp]]; rewrite Hp; simpl.
    + destruct IH as [(ks & Hks & Hr) | (Hks & c' & Hc' & Hout)]; rewrite Hks; simpl.
      * left. eexists. split; [reflexivity |]. intros c' [<- | Hc']; auto.
      * right. split; [reflexivity |]. exists c'. tauto.
    + right. split; [reflexivity |]. exists c. tauto.
Qed.

(** X3: the move ordering raises [IndexError] exactly when the position
    lists a column outside -7..6, the indices the priority table accepts;
    otherwise it returns the ordered columns. *)
Theorem move_ordering_index_error (g : Globals) (s : State) :
  (sorted_columns g s = Raised IndexError
   <-> exists c, In c (get_possible_columns s) /\ (c < -7 \/ 7 <= c))
  /\ ((exists l, sorted_columns g s = Ok l)
      <-> forall c, In c (get_possible_columns s) -> -7 <= c < 7).
Proof.
  unfold sorted_columns.
  destruct (keyed_outcome g s (get_possible_columns s))
    as [(ks & Hks & Hr) | (Hks & c & Hc & Hout)]; rewrite Hks; simpl.
  - split; split.
    + discriminate.
    + intros (c & Hc & Hout). apply Hr in Hc. lia.
    + intros _. exact Hr.
    + intros _. now eexists.
  - split; split.
    + intros _. now exists c.
    + reflexivity.
    + intros [l Hl]. discriminate.
    + intros Hr. apply Hr in Hc. lia.
Qed.

End OrderingErrors.

(** X4: among the seven columns the priority is a ranking by distance from
    the centre column 3: a column nearer the centre has the higher priority,
    and two columns never share one. *)
Theorem col_priority_prefers_centre (c c' p p' : Z) :
  0 <= c < 7 -> 0 <= c' < 7 ->
  col_priority c = Ok p -> col_priority c' = Ok p' ->
  (Z.abs (c - 3) < Z.abs (c' - 3) -> p' < p)
  /\ (p = p' -> c = c')
  /\ 0 <= p <= 6.
Proof.
  intros Hc Hc'.
  assert (H : c = 0 \/ c = 1 \/ c = 2 \/ c = 3 \/ c = 4 \/ c = 5 \/ c = 6) by lia.
  assert (H' : c' = 0 \/ c' = 1 \/ c' = 2 \/ c' = 3 \/ c' = 4 \/ c' = 5 \/ c' = 6) by lia.
  repeat destruct H as [-> | H]; try subst c;
    repeat destruct H' as [-> | H']; try subst c';
    intros [= <-] [= <-]; simpl; lia.
Qed.

Lemma col_priority_prefers_centre_witness :
  0 <= 3 < 7 /\ 0 <= 0 < 7 /\ col_priority 3 = Ok 6 /\ col_priority 0 = Ok 1
  /\ (Z.abs (3 - 3) < Z.abs (0 - 3) -> 1 < 6).
Proof.
  split; [lia |]. split; [lia |]. split; [reflexivity |]. split; [reflexivity |].
  apply (@col_priority_prefers_centre 3 0 6 1); try lia; reflexivity.
Defined.

(** A negative column index reads the table from its end, as Python lists
    do: column [c] in -7..-1 has the priority of column [c + 7]. *)
Lemma col_priority_negative_index (c : Z) :
  -7 <= c < 0 -> col_priority c = col_priority (c + 7).
Proof.
  intros Hc.
  assert (H : c = -7 \/ c = -6 \/ c = -5 \/ c = -4 \/ c = -3 \/ c = -2 \/ c = -1) by lia.
  repeat destruct H as [-> | H]; try subst c; reflexivity.
Qed.


(** ** Counting tokens *)

Lemma filter_length_flip (f g : nat -> bool) (k : nat) (l : list nat) :
  NoDup l -> In k l -> f k = false -> g k = true ->
  (forall j, j <> k -> g j = f j) ->
  length (filter g l) = S (length (filter f l)).
Proof.
  intros Hnd Hin Hf Hg Hext. induction l as [| a l IH]; [destruct Hin |].
  inversion Hnd as [| ? ? Hna Hnd']; subst. simpl.
  destruct (Nat.eq_dec a k) as [-> | Hak].
  - rewrite Hf, Hg. simpl. f_equal. f_equal. apply filter_ext_in.
    intros j Hj. apply Hext. intros ->. contradiction.
  - rewrite (Hext a Hak). destruct Hin as [-> | Hin]; [congruence |].
    destruct (f a); simpl; rewrite (IH Hnd' Hin); reflexivity.
Qed.

(** Only the 42 cells of the board count: bits of the checkers from bit 42
    up never change the number of tokens. *)
Lemma count_tokens_ignores_high_bits (checkers : Z) :
  count_tokens (Z.land checkers (Z.ones 42)) = count_tokens checkers.
Proof.
  rewrite !count_tokens_placed. unfold tokens_placed. f_equal. f_equal.
  apply filter_ext_in. intros i Hi. apply in_seq in Hi.
  rewrite Z.land_spec, Z.ones_spec_low by lia. apply andb_true_r.
Qed.

(** X5: a token put on a free cell of the board raises the count by one. *)
Theorem count_tokens_new_token (checkers i : Z) :
  0 <= i < 42 -> Z.testbit checkers i = false ->
  count_tokens (Z.lor checkers (Z.shiftl 1 i)) = count_tokens checkers + 1.
Proof.
  intros Hi Hfree. rewrite !count_tokens_placed. unfold tokens_placed.
  rewrite (@filter_length_flip
             (fun j => Z.testbit checkers (Z.of_nat j))
             (fun j => Z.testbit (Z.lor checkers (Z.shiftl 1 i)) (Z.of_nat j))
             (Z.to_nat i)).
  - lia.
  - apply seq_NoDup.
  - apply in_seq. lia.
  - now rewrite Z2Nat.id by lia.
  - rewrite Z2Nat.id by lia. rewrite Z.lor_spec, Z.shiftl_1_l, Z.pow2_bits_true by lia.
    apply orb_true_r.
  - intros j Hj. rewrite Z.lor_spec, Z.shiftl_1_l, Z.pow2_bits_false by lia.
    apply orb_false_r.
Qed.

Lemma count_tokens_new_token_witness :
  0 <= 3 < 42 /\ Z.testbit 5 3 = false
  /\ count_tokens (Z.lor 5 (Z.shiftl 1 3)) = count_tokens 5 + 1.
Proof.
  split; [lia |]. split; [reflexivity |].
  apply count_tokens_new_token; [lia | reflexivity].
Defined.

(** ** The range of the evaluation *)

Section EvaluationRange.

Context {State : Type} {API : StateAPI State}.

Lemma node_evaluation_bounded (g : Globals) (s : State) :
  - evaluation_bound <= node_evaluation g s <= evaluation_bound.
Proof.
  unfold node_evaluation, evaluation_bound.
  pose proof (count_tokens_range (get_checkers s (max_player g))).
  pose proof (count_tokens_range (get_checkers s (min_player g))).
  destruct (status_is (get_state_status s) (max_player g)); [lia |].
  destruct (status_is (get_state_status s) (min_player g)); [lia |].
  destruct (status_is_draw (get_state_status s)); [lia |].
  rewrite mask_loop.
  pose proof (lines_without_range (get_checkers s (min_player g))) as H1.
  pose proof (lines_without_range (get_checkers s (max_player g))) as H2.
  unfold lines_without in H1, H2. lia.
Qed.

(** X6: an evaluation never exceeds, in magnitude, the larger of 1000 and
    the number of winning lines. *)
Theorem node_evaluation_range (g : Globals) (s : State) :
  - evaluation_bound <= node_evaluation g s <= evaluation_bound.
Proof. apply node_evaluation_bounded. Qed.

(** X7: with fewer than 958 winning lines, as on the 7 x 6 board, a
    position the maximizing player has won is evaluated above every position
    that player has not won. *)
Theorem win_outranks_everything (g : Globals) (s1 s2 : State) :
  Z.of_nat (length win_masks) < 958 ->
  get_state_status s1 = Some (Won (max_player g)) ->
  get_state_status s2 <> Some (Won (max_player g)) ->
  node_evaluation g s2 < node_evaluation g s1.
Proof.
  intros Hm H1 H2.
  assert (Hw : 958 <= node_evaluation g s1).
  { apply winning_evaluation. rewrite H1. simpl. apply player_eqb_refl. }
  destruct (Z_lt_le_dec (node_evaluation g s2) 958) as [Hlt | Hge]; [lia |].
  exfalso. apply H2. apply status_is_won. now apply large_evaluation_wins.
Qed.

End EvaluationRange.

Lemma win_outranks_everything_witness :
  Z.of_nat (length (@win_masks Connect4.board _)) < 958
  /\ node_evaluation Connect4.red_first Connect4.red_threat
     < node_evaluation Connect4.red_first Connect4.red_wins.
Proof.
  split; [vm_compute; reflexivity |].
  apply (@win_outranks_everything _ _ Connect4.red_first Connect4.red_wins
           Connect4.red_threat).
  - vm_compute. reflexivity.
  - vm_compute. reflexivity.
  - vm_compute. discriminate.
Defined.

(** ** The range of the values the searches return *)

Lemma max_choice (x y : ext) : Ext.max x y = x \/ Ext.max x y = y.
Proof. unfold Ext.max. destruct (Ext.ltb x y); auto. Qed.

Lemma max_from_NInf (y : ext) : Ext.finite y -> Ext.max NInf y = y.
Proof. destruct y; simpl; intros H; tauto || reflexivity. Qed.

Lemma value_in_range_finite (B : Z) (v : ext) : value_in_range B v -> Ext.finite v.
Proof. destruct v; simpl; tauto. Qed.

Lemma value_in_range_neg (B : Z) (v : ext) :
  value_in_range B v -> value_in_range B (Ext.neg v).
Proof. destruct v; simpl; try tauto. lia. Qed.

Lemma finite_below_PInf (v : ext) : Ext.finite v -> Ext.ltb v PInf = true.
Proof. destruct v; simpl; intros; tauto || reflexivity. Qed.

Section LoopsPreserve.

Context {State : Type} {API : StateAPI State}.
Variable g : Globals.
Variable rec : @search State.
Variable P : ext -> Prop.
Hypothesis rec_P :
  forall node p a b depth v n, rec node p a b depth = Ok (v, n) -> P v.
Hypothesis P_finite : forall v, P v -> Ext.finite v.

Lemma max_loop_preserves (beta : ext) (depth : Z) (cols : list Z) :
  forall (node : Node State) (score alpha V : ext) (n' : Node State),
    max_loop g rec cols node score alpha beta depth = Ok (V, n') ->
    P score \/ (score = NInf /\ cols <> []) -> P V.
Proof.
  induction cols as [| c rest IH]; intros node score alpha V n' Hloop Hor.
  - simpl in Hloop. injection Hloop as <- <-.
    destruct Hor as [H | [_ H]]; [assumption | congruence].
  - cbn [max_loop] in Hloop.
    destruct (rec _ _ _ _ _) as [[v n] | e |] eqn:Hrec; cbn [bind fst] in Hloop;
      try discriminate.
    pose proof Hrec as Hv. apply rec_P in Hv.
    destruct (Ext.ltb score v) eqn:Hlt.
    + destruct (Ext.geb v beta).
      * now injection Hloop as <- <-.
      * apply IH in Hloop; auto.
    + assert (Hs : P score).
      { destruct Hor as [H | [-> _]]; [assumption |].
        rewrite (@finite_above_NInf v (P_finite Hv)) in Hlt. discriminate. }
      destruct (Ext.geb alpha beta).
      * now injection Hloop as <- <-.
      * apply IH in Hloop; auto.
Qed.

Lemma min_loop_preserves (alpha : ext) (depth : Z) (cols : list Z) :
  forall (node : Node State) (score beta V : ext) (n' : Node State),
    min_loop g rec cols node score alpha beta depth = Ok (V, n') ->
    P score \/ (score = PInf /\ cols <> []) -> P V.
Proof.
  induction cols as [| c rest IH]; intros node score beta V n' Hloop Hor.
  - simpl in Hloop. injection Hloop as <- <-.
    destruct Hor as [H | [_ H]]; [assumption | congruence].
  - cbn [min_loop] in Hloop.
    destruct (rec _ _ _ _ _) as [[v n] | e |] eqn:Hrec; cbn [bind fst] in Hloop;
      try discriminate.
    pose proof Hrec as Hv. apply rec_P in Hv.
    destruct (Ext.ltb v score) eqn:Hlt.
    + destruct (Ext.geb alpha v).
      * now injection Hloop as <- <-.
      * apply IH in Hloop; auto.
    + assert (Hs : P score).
      { destruct Hor as [H | [-> _]]; [assumption |].
        rewrite (@finite_below_PInf v (P_finite Hv)) in Hlt. discriminate. }
      destruct (Ext.geb alpha beta).
      * now injection Hloop as <- <-.
      * apply IH in Hloop; auto.
Qed.

Hypothesis P_neg : forall v, P v -> P (Ext.neg v).

Lemma negascout_loop_preserves (other : player) (first : Z) (beta : ext) (depth : Z)
    (cols : list Z) :
  forall (node : Node State) (score alpha V : ext) (n' : Node State),
    negascout_loop rec other first cols node score alpha beta depth = Ok (V, n') ->
    P score \/ (score = NInf /\ cols <> []) -> P V.
Proof.
  induction cols as [| c rest IH]; intros node score alpha V n' Hloop Hor.
  - simpl in Hloop. injection Hloop as <- <-.
    destruct Hor as [H | [_ H]]; [assumption | congruence].
  - cbn [negascout_loop] in Hloop.
    assert (Htail : forall cs n1, P cs ->
              (if Ext.geb (Ext.max alpha (Ext.max score cs)) beta
               then Ok (Ext.max score cs, n1)
               else negascout_loop rec other first rest n1 (Ext.max score cs)
                      (Ext.max alpha (Ext.max score cs)) beta depth) = Ok (V, n') ->
              P V).
    { intros cs n1 Hcs H.
      assert (Hm : P (Ext.max score cs)).
      { destruct Hor as [Hs | [-> _]].
        - destruct (max_choice score cs) as [-> | ->]; assumption.
        - now rewrite (@max_from_NInf cs (P_finite Hcs)). }
      destruct (Ext.geb (Ext.max alpha (Ext.max score cs)) beta).
      - now injection H as <- <-.
      - apply IH in H; auto. }
    destruct (c =? first).
    + destruct (rec _ _ _ _ _) as [[v n] | e |] eqn:Hrec; cbn [bind fst] in Hloop;
        try discriminate.
      apply rec_P, P_neg in Hrec. exact (Htail _ _ Hrec Hloop).
    + destruct (rec _ _ _ _ _) as [[v1 n1] | e |] eqn:Hrec1; cbn [bind fst] in Hloop;
        try discriminate.
      apply rec_P, P_neg in Hrec1.
      destruct (Ext.ltb alpha (Ext.neg v1) && Ext.ltb (Ext.neg v1) beta).
      * destruct (rec _ _ _ _ _) as [[v2 n2] | e |] eqn:Hrec2; cbn [bind fst] in Hloop;
          try discriminate.
        apply rec_P, P_neg in Hrec2. exact (Htail _ _ Hrec2 Hloop).
      * cbn [bind] in Hloop. exact (Htail _ _ Hrec1 Hloop).
Qed.

End LoopsPreserve.

Section ValueRange.

Context {State : Type} {API : StateAPI State}.
Variable g : Globals.
Hypothesis Hcol : in_progress_has_column.

Lemma minimax_ab_in_range (fuel : nat) :
  forall (node : Node State) (p : player) (a b : ext) (depth : Z) (v : ext)
         (n : Node State),
    minimax_ab g fuel node p a b depth = Ok (v, n) ->
    value_in_range evaluation_bound v.
Proof.
  induction fuel as [| fuel IH]; intros node p a b depth v n H; cbn [minimax_ab] in H;
    destruct (cutoff g (state node) depth) eqn:Hcut;
    try (injection H as <- <-; exact (node_evaluation_bounded g (state node)));
    try discriminate.
  destruct (sorted_columns g (state node)) as [l | e |] eqn:Hl; cbn [bind] in H;
    try discriminate.
  assert (Hne : l <> []).
  { apply (sorted_columns_nonempty _ _ Hl), Hcol.
    now apply cutoff_false_in_progress with (g := g) (depth := depth). }
  destruct (player_eqb p (max_player g)).
  - eapply max_loop_preserves in H; eauto using value_in_range_finite.
  - eapply min_loop_preserves in H; eauto using value_in_range_finite.
Qed.

Lemma negascout_in_range (fuel : nat) :
  forall (node : Node State) (p : player) (a b : ext) (depth : Z) (v : ext)
         (n : Node State),
    negascout g fuel node p a b depth = Ok (v, n) ->
    value_in_range evaluation_bound v.
Proof.
  induction fuel as [| fuel IH]; intros node p a b depth v n H; cbn [negascout] in H;
    destruct (cutoff g (state node) depth) eqn:Hcut; try discriminate;
    try (injection H as <- <-; simpl;
         pose proof (node_evaluation_bounded g (state node));
         destruct (player_eqb p (min_player g)); lia).
  destruct (sorted_columns g (state node)) as [l | e |] eqn:Hl; cbn [bind] in H;
    try discriminate.
  assert (Hne : l <> []).
  { apply (sorted_columns_nonempty _ _ Hl), Hcol.
    now apply cutoff_false_in_progress with (g := g) (depth := depth). }
  eapply negascout_loop_preserves in H;
    eauto using value_in_range_finite, value_in_range_neg.
Qed.

End ValueRange.

(** X8: when every position in progress has a legal column, a value either
    search returns is a finite number, of magnitude at most the larger of
    1000 and the number of winning lines; no infinity leaves a search. *)
Theorem search_values_in_range {State : Type} {API : StateAPI State}
    (g : Globals) (fuel : nat) (node : Node State) (p : player) (a b : ext)
    (depth : Z) (v : ext) (n : Node State) :
  in_progress_has_column ->
  (minimax_ab g fuel node p a b depth = Ok (v, n) ->
   value_in_range evaluation_bound v)
  /\ (negascout g fuel node p a b depth = Ok (v, n) ->
      value_in_range evaluation_bound v).
Proof.
  intros Hcol. split; intros H.
  - eapply minimax_ab_in_range; eauto.
  - eapply negascout_in_range; eauto.
Qed.

Lemma search_values_in_range_witness :
  value_in_range (@evaluation_bound Connect4.board _) (Fin (-3)).
Proof.
  eapply (proj1 (@search_values_in_range _ _ (set_globals Connect4.empty 2) 2
                   (new_Node Connect4.empty (-1)) RED NInf PInf 0 (Fin (-3))
                   (mkNode Connect4.empty (-1) (Some 3))
                   connect4_in_progress_has_column)).
  vm_compute. reflexivity.
Defined.

(** ** The column the agents choose *)

Lemma root_step_max (v0 tc v : ext) :
  Ext.finite v0 -> Ext.finite tc -> within v0 PInf tc v ->
  Ext.ltb v0 v = Ext.ltb v0 tc /\ (Ext.ltb v0 v = true -> v = tc) /\ Ext.finite v.
Proof.
  intros H0 Ht Hw. repeat split.
  - ext_solve.
  - intros Hlt. apply le_antisym; ext_solve.
  - ext_solve.
Qed.

Lemma geb_finite_PInf (v : ext) : Ext.finite v -> Ext.geb v PInf = false.
Proof. intros H. ext_solve. Qed.

Lemma lt_finite_PInf (v : ext) : Ext.finite v -> Ext.lt v PInf.
Proof. intros H. ext_solve. Qed.

Lemma probe_tells (z : Z) (tc v1 : ext) :
  Ext.finite tc ->
  within (Ext.pred (Ext.neg (Fin z))) (Ext.neg (Fin z)) tc v1 ->
  Ext.ltb (Fin z) (Ext.neg v1) && Ext.ltb (Ext.neg v1) PInf
  = Ext.ltb (Fin z) (Ext.neg tc).
Proof. intros Ht Hw. ext_solve. Qed.

Lemma research_exact (z : Z) (tc v2 : ext) :
  Ext.finite tc -> within (Ext.neg PInf) (Ext.neg (Fin z)) tc v2 ->
  Ext.ltb (Fin z) (Ext.neg tc) = true -> Ext.neg v2 = Ext.neg tc.
Proof. intros Ht Hw Hlt. f_equal. apply le_antisym; ext_solve. Qed.

Lemma probe_keeps (z : Z) (tc v1 : ext) :
  Ext.finite tc ->
  within (Ext.pred (Ext.neg (Fin z))) (Ext.neg (Fin z)) tc v1 ->
  Ext.ltb (Fin z) (Ext.neg tc) = false ->
  Ext.max (Fin z) (Ext.neg v1) = Fin z.
Proof. intros Ht Hw Hlt. ext_solve. Qed.

Lemma max_takes (x y : ext) : Ext.ltb x y = true -> Ext.max x y = y.
Proof. unfold Ext.max. now intros ->. Qed.

Lemma max_same (x : ext) : Ext.max x x = x.
Proof. unfold Ext.max. now destruct (Ext.ltb x x). Qed.

Lemma ltb_false_le (x y : ext) : Ext.ltb x y = false -> Ext.le y x.
Proof. intros H. ext_solve. Qed.

Lemma ltb_true_le (x y : ext) : Ext.ltb x y = true -> Ext.le x y.
Proof. intros H. ext_solve. Qed.

Lemma ext_le_trans (x y z : ext) : Ext.le x y -> Ext.le y z -> Ext.le x z.
Proof. intros H1 H2. ext_solve. Qed.

Lemma ext_le_refl (x : ext) : Ext.le x x.
Proof. ext_solve. Qed.

Section FirstBest.

Variable t : Z -> ext.

Lemma first_best_cons (c : Z) (rest : list Z) (c0 : Z) (v0 : ext) :
  first_best t (c :: rest) (c0, v0)
  = first_best t rest (if Ext.ltb v0 (t c) then (c, t c) else (c0, v0)).
Proof. reflexivity. Qed.

Lemma first_best_value (cols : list Z) :
  forall c0 v0, t c0 = v0 ->
    t (fst (first_best t cols (c0, v0))) = snd (first_best t cols (c0, v0)).
Proof.
  induction cols as [| c rest IH]; intros c0 v0 H0; [exact H0 |].
  rewrite first_best_cons. destruct (Ext.ltb v0 (t c)); now apply IH.
Qed.

Lemma first_best_member (cols : list Z) :
  forall c0 v0, In (fst (first_best t cols (c0, v0))) (c0 :: cols).
Proof.
  induction cols as [| c rest IH]; intros c0 v0; [now left |].
  rewrite first_best_cons. destruct (Ext.ltb v0 (t c)).
  - destruct (IH c (t c)) as [H | H]; [right; now left | right; now right].
  - destruct (IH c0 v0) as [H | H]; [now left | right; now right].
Qed.

Lemma first_best_largest (cols : list Z) :
  forall c0 v0,
    Ext.le v0 (snd (first_best t cols (c0, v0)))
    /\ forall c, In c cols -> Ext.le (t c) (snd (first_best t cols (c0, v0))).
Proof.
  induction cols as [| c rest IH]; intros c0 v0.
  - split; [apply ext_le_refl | intros c []].
  - rewrite first_best_cons. destruct (Ext.ltb v0 (t c)) eqn:Hlt.
    + destruct (IH c (t c)) as [H1 H2]. split.
      * apply ext_le_trans with (y := t c); [apply ltb_true_le; exact Hlt | exact H1].
      * intros c' [<- | Hc']; auto.
    + destruct (IH c0 v0) as [H1 H2]. split; [exact H1 |].
      intros c' [<- | Hc']; auto.
      apply ext_le_trans with (y := v0); [apply ltb_false_le; exact Hlt | exact H1].
Qed.

End FirstBest.

Section RootChoice.

Context {State : Type} {API : StateAPI State}.
Variables (g : Globals) (rec : @search State) (s : State) (depth : Z).

Lemma max_loop_first_best (t : Z -> ext) (rest : list Z) :
  forall (node : Node State) (c0 : Z) (v0 : ext),
    state node = s -> chosen_succ node = Some c0 -> Ext.finite v0 ->
    answers rec s (min_player g) depth t rest ->
    (forall c, In c rest -> Ext.finite (t c)) ->
    exists n',
      max_loop g rec rest node v0 v0 PInf depth
      = Ok (snd (first_best t rest (c0, v0)), n')
      /\ chosen_succ n' = Some (fst (first_best t rest (c0, v0))).
Proof.
  induction rest as [| c rest IH]; intros node c0 v0 Hs Hch H0 Hans Hfin.
  - exists node. now split.
  - cbn [max_loop]. rewrite first_best_cons, Hs.
    destruct (Hans c (or_introl eq_refl) v0 PInf (lt_finite_PInf _ H0))
      as (v & n & Hrec & Hw).
    rewrite Hrec. cbn [bind fst].
    destruct (root_step_max H0 (Hfin c (or_introl eq_refl)) Hw) as (Heq & Hex & Hv).
    assert (Hans' : answers rec s (min_player g) depth t rest)
      by (intros c' Hc'; apply Hans; now right).
    assert (Hfin' : forall c', In c' rest -> Ext.finite (t c'))
      by (intros c' Hc'; apply Hfin; now right).
    rewrite <- Heq. destruct (Ext.ltb v0 v) eqn:Hlt.
    + rewrite (geb_finite_PInf _ Hv). rewrite <- (Hex eq_refl).
      apply IH; auto.
    + rewrite (geb_finite_PInf _ H0). apply IH; auto.
Qed.

Lemma negascout_loop_first_best (other : player) (first : Z) (tchild : Z -> ext)
    (rest : list Z) :
  forall (node : Node State) (c0 : Z) (v0 : ext),
    state node = s -> chosen_succ node = Some c0 -> Ext.finite v0 ->
    ~ In first rest ->
    answers rec s other depth tchild rest ->
    (forall c, In c rest -> Ext.finite (tchild c)) ->
    exists n',
      negascout_loop rec other first rest node v0 v0 PInf depth
      = Ok (snd (first_best (fun c => Ext.neg (tchild c)) rest (c0, v0)), n')
      /\ chosen_succ n'
         = Some (fst (first_best (fun c => Ext.neg (tchild c)) rest (c0, v0))).
Proof.
  induction rest as [| c rest IH]; intros node c0 v0 Hs Hch H0 Hnf Hans Hfin.
  - exists node. now split.
  - cbn [negascout_loop]. rewrite first_best_cons, Hs.
    assert (Hcf : (c =? first) = false)
      by (apply Z.eqb_neq; intros ->; apply Hnf; now left).
    rewrite Hcf.
    assert (Hnf' : ~ In first rest) by (intros H; apply Hnf; now right).
    assert (Hans' : answers rec s other depth tchild rest)
      by (intros c' Hc'; apply Hans; now right).
    assert (Hfin' : forall c', In c' rest -> Ext.finite (tchild c'))
      by (intros c' Hc'; apply Hfin; now right).
    pose proof (Hfin c (or_introl eq_refl)) as Hfc.
    destruct (finite_Fin _ H0) as [z ->].
    destruct (Hans c (or_introl eq_refl) _ _ (probe_window z))
      as (v1 & n1 & Hrec1 & Hw1).
    rewrite Hrec1. cbn [bind fst]. rewrite (probe_tells Hfc Hw1).
    destruct (Ext.ltb (Fin z) (Ext.neg (tchild c))) eqn:Hlt.
    + destruct (Hans c (or_introl eq_refl) (Ext.neg PInf) (Ext.neg (Fin z)) I)
        as (v2 & n2 & Hrec2 & Hw2).
      rewrite Hrec2. cbn [bind fst]. rewrite (research_exact Hfc Hw2 Hlt).
      rewrite (max_takes _ _ Hlt), (max_takes _ _ Hlt).
      rewrite (geb_finite_PInf _ (neg_finite _ Hfc)).
      apply IH; auto using neg_finite.
    + cbn [bind]. rewrite (probe_keeps Hfc Hw1 Hlt), max_same.
      rewrite (@geb_finite_PInf (Fin z) I). apply IH; auto.
Qed.

End RootChoice.

Lemma first_best_ext (t1 t2 : Z -> ext) (cols : list Z) (start : Z * ext) :
  (forall c, t1 c = t2 c) -> first_best t1 cols start = first_best t2 cols start.
Proof.
  intros H. revert start. induction cols as [| c rest IH]; intros start; [reflexivity |].
  destruct start as [c0 v0]. rewrite !first_best_cons, H. apply IH.
Qed.

Section OptimalMove.

Context {State : Type} {API : StateAPI State}.

Lemma sorted_columns_permutation (g : Globals) (s : State) (l : list Z) :
  sorted_columns g s = Ok l -> Permutation (get_possible_columns s) l.
Proof.
  unfold sorted_columns.
  destruct (keyed g s (get_possible_columns s)) as [ks | e |] eqn:Hk; simpl;
    try discriminate.
  intros [= <-]. destruct (keyed_columns _ _ _ Hk) as [Hm _]. rewrite <- Hm.
  apply Permutation_map, sort_desc_perm.
Qed.

(** Both searches, at a root in progress, return the value of the first best
    column of the move ordering and record that column. *)
Lemma root_choice (g : Globals) (s : State) (fuel : nat) (depth : Z) :
  columns_in_range -> in_progress_has_column ->
  max_player g <> min_player g ->
  NoDup (get_possible_columns s) ->
  cutoff g s depth = false ->
  bounded g (S fuel) s depth = true ->
  exists h rest n1 n2,
    sorted_columns g s = Ok (h :: rest)
    /\ minimax_ab g (S fuel) (new_Node s (-1)) (max_player g) NInf PInf depth
       = Ok (snd (first_best
                    (fun c => minimax_value g fuel (generate_successor_state s c)
                                false (depth + 1))
                    rest
                    (h, minimax_value g fuel (generate_successor_state s h)
                          false (depth + 1))), n1)
    /\ chosen_succ n1
       = Some (fst (first_best
                      (fun c => minimax_value g fuel (generate_successor_state s c)
                                  false (depth + 1))
                      rest
                      (h, minimax_value g fuel (generate_successor_state s h)
                            false (depth + 1))))
    /\ negascout g (S fuel) (new_Node s (-1)) (max_player g) NInf PInf depth
       = Ok (snd (first_best
                    (fun c => minimax_value g fuel (generate_successor_state s c)
                                false (depth + 1))
                    rest
                    (h, minimax_value g fuel (generate_successor_state s h)
                          false (depth + 1))), n2)
    /\ chosen_succ n2
       = Some (fst (first_best
                      (fun c => minimax_value g fuel (generate_successor_state s c)
                                  false (depth + 1))
                      rest
                      (h, minimax_value g fuel (generate_successor_state s h)
                            false (depth + 1)))).
Proof.
  intros Hrange Hcol Hpl Hnd Hcut Hb.
  set (t := fun c => minimax_value g fuel (generate_successor_state s c) false
                       (depth + 1)).
  destruct (sorted_columns_in_range g s (Hrange s)) as [l Hl].
  assert (Hne : l <> []).
  { apply (sorted_columns_nonempty _ _ Hl), Hcol.
    now apply cutoff_false_in_progress with (g := g) (depth := depth). }
  destruct l as [| h rest]; [congruence |].
  assert (Hndl : NoDup (h :: rest))
    by (apply (Permutation_NoDup (sorted_columns_permutation _ _ Hl) Hnd)).
  assert (Hchild : forall c, In c (h :: rest) ->
            bounded g fuel (generate_successor_state s c) (depth + 1) = true).
  { intros c Hc. apply bounded_child; trivial. now apply (sorted_columns_In g s c Hl). }
  assert (Hfin : forall c, In c (h :: rest) -> Ext.finite (t c)).
  { intros c Hc. apply minimax_value_finite; auto. }
  assert (Hans1 : answers (minimax_ab g fuel) s (min_player g) depth t (h :: rest)).
  { intros c Hc a b Hab.
    destruct (minimax_ab_correct g Hrange Hpl fuel
                (new_Node (generate_successor_state s c) c) (min_player g) a b
                (depth + 1) Hab (Hchild c Hc)) as (v & n & Hv & Hw).
    exists v, n. split; [exact Hv |].
    rewrite (player_eqb_neq (not_eq_sym Hpl)) in Hw. exact Hw. }
  assert (Hans2 : answers (negascout g fuel) s (min_player g) depth
                    (fun c => Ext.neg (t c)) (h :: rest)).
  { intros c Hc a b Hab.
    destruct (negascout_correct g Hrange Hcol Hpl fuel
                (new_Node (generate_successor_state s c) c) (min_player g) a b
                (depth + 1) Hab (Hchild c Hc)) as (v & n & Hv & Hw).
    exists v, n. split; [exact Hv |].
    unfold negamax_value in Hw. rewrite (player_eqb_neq (not_eq_sym Hpl)) in Hw.
    exact Hw. }
  pose proof (Hfin h (or_introl eq_refl)) as Hfh.
  (* alpha-beta *)
  destruct (Hans1 h (or_introl eq_refl) NInf PInf I) as (v1 & m1 & Hv1 & Hw1).
  apply within_full in Hw1. subst v1.
  destruct (@max_loop_first_best _ _ g (minimax_ab g fuel) s depth t rest
              (set_chosen_succ (new_Node s (-1)) h) h (t h) eq_refl eq_refl Hfh)
    as (n1 & Hloop1 & Hch1).
  { intros c Hc. apply Hans1. now right. }
  { intros c Hc. apply Hfin. now right. }
  (* NegaScout *)
  destruct (Hans2 h (or_introl eq_refl) NInf PInf I) as (v2 & m2 & Hv2 & Hw2).
  apply within_full in Hw2. subst v2.
  destruct (@negascout_loop_first_best _ _ (negascout g fuel) s depth (min_player g) h
              (fun c => Ext.neg (t c)) rest
              (set_chosen_succ (new_Node s (-1)) h) h (t h) eq_refl eq_refl Hfh)
    as (n2 & Hloop2 & Hch2).
  { now inversion Hndl. }
  { intros c Hc. apply Hans2. now right. }
  { intros c Hc. apply neg_finite, Hfin. now right. }
  rewrite (first_best_ext (fun c => Ext.neg (Ext.neg (t c))) t) in Hloop2, Hch2
    by (intros; apply neg_involutive).
  exists h, rest, n1, n2. split; [exact Hl |]. repeat split.
  - cbn [minimax_ab state new_Node]. rewrite Hcut, Hl. cbn [bind].
    rewrite player_eqb_refl. cbn [max_loop state new_Node]. rewrite Hv1.
    cbn [bind fst]. rewrite (finite_above_NInf _ Hfh), (geb_finite_PInf _ Hfh).
    exact Hloop1.
  - exact Hch1.
  - cbn [negascout state new_Node]. rewrite Hcut, Hl. cbn [bind].
    rewrite (player_eqb_neq Hpl).
    cbn [negascout_loop first_col hd state new_Node]. rewrite Z.eqb_refl.
    change (Ext.neg PInf) with NInf. change (Ext.neg NInf) with PInf.
    rewrite Hv2. cbn [bind fst]. rewrite neg_involutive.
    rewrite !(max_from_NInf _ Hfh), (geb_finite_PInf _ Hfh).
    exact Hloop2.
  - exact Hch2.
Qed.

End OptimalMove.

Section SearchContracts.

Context {State : Type} {API : StateAPI State}.

(** X9: alpha-beta minimax answers every window [a < b] soundly: the value
    it returns is the minimax value of the node when it falls strictly inside
    the window, is at least the minimax value when it is [a] or less, and at
    most the minimax value when it is [b] or more. *)
Theorem minimax_ab_window (g : Globals) (fuel : nat) (node : Node State)
    (p : player) (a b : ext) (depth : Z) :
  columns_in_range -> max_player g <> min_player g ->
  Ext.lt a b -> bounded g fuel (state node) depth = true ->
  exists v n,
    minimax_ab g fuel node p a b depth = Ok (v, n)
    /\ (Ext.lt a v -> Ext.lt v b ->
        v = minimax_value g fuel (state node) (player_eqb p (max_player g)) depth)
    /\ (Ext.le v a ->
        Ext.le (minimax_value g fuel (state node) (player_eqb p (max_player g)) depth) v)
    /\ (Ext.le b v ->
        Ext.le v (minimax_value g fuel (state node) (player_eqb p (max_player g)) depth)).
Proof.
  intros Hrange Hpl Hab Hb.
  destruct (minimax_ab_correct g Hrange Hpl fuel node p a b depth Hab Hb)
    as (v & n & Hv & H1 & H2 & H3).
  exists v, n. split; [exact Hv |]. repeat split; auto.
  intros Hav Hvb. destruct (H3 Hav Hvb). now apply le_antisym.
Qed.

(** X10: NegaScout answers every window [a < b] soundly for the player to
    move: its value is the negamax value of the node strictly inside the
    window, an upper bound of it at [a] or below, a lower bound at [b] or
    above; the null-window probes and re-searches lose nothing. *)
Theorem negascout_window (g : Globals) (fuel : nat) (node : Node State)
    (p : player) (a b : ext) (depth : Z) :
  columns_in_range -> in_progress_has_column -> max_player g <> min_player g ->
  Ext.lt a b -> bounded g fuel (state node) depth = true ->
  exists v n,
    negascout g fuel node p a b depth = Ok (v, n)
    /\ (Ext.lt a v -> Ext.lt v b -> v = negamax_value g fuel (state node) p depth)
    /\ (Ext.le v a -> Ext.le (negamax_value g fuel (state node) p depth) v)
    /\ (Ext.le b v -> Ext.le v (negamax_value g fuel (state node) p depth)).
Proof.
  intros Hrange Hcol Hpl Hab Hb.
  destruct (negascout_correct g Hrange Hcol Hpl fuel node p a b depth Hab Hb)
    as (v & n & Hv & H1 & H2 & H3).
  exists v, n. split; [exact Hv |]. repeat split; auto.
  intros Hav Hvb. destruct (H3 Hav Hvb). now apply le_antisym.
Qed.

Lemma agents_choice (fuel : nat) (g0 : Globals) (s : State) (depth : Z) :
  columns_in_range -> in_progress_has_column ->
  NoDup (get_possible_columns s) ->
  get_state_status s = None ->
  bounded (set_globals s depth) (S fuel) s 0 = true ->
  exists c,
    MinimaxABAgent_get_chosen_column (S fuel) g0 s depth
    = Ok (set_globals s depth, Some c)
    /\ Negascout_get_chosen_column (S fuel) g0 s depth
       = Ok (set_globals s depth, Some c)
    /\ In c (get_possible_columns s)
    /\ minimax_value (set_globals s depth) fuel (generate_successor_state s c) false 1
       = minimax_value (set_globals s depth) (S fuel) s true 0
    /\ forall c', In c' (get_possible_columns s) ->
         Ext.le (minimax_value (set_globals s depth) fuel
                   (generate_successor_state s c') false 1)
                (minimax_value (set_globals s depth) fuel
                   (generate_successor_state s c) false 1).
Proof.
  intros Hrange Hcol Hnd Hs Hb.
  pose proof (set_globals_players s depth) as Hpl.
  destruct (root_choice (set_globals s depth) s fuel 0 Hrange Hcol Hpl Hnd
              (root_not_cut s depth Hs) Hb)
    as (h & rest & n1 & n2 & Hl & H1 & Hc1 & H2 & Hc2).
  change (0 + 1) with 1 in *.
  set (t := fun c => minimax_value (set_globals s depth) fuel
                       (generate_successor_state s c) false 1) in *.
  set (best := first_best t rest (h, t h)) in *.
  assert (Hval : t (fst best) = snd best)
    by exact (first_best_value t rest h eq_refl).
  assert (Hmem : In (fst best) (get_possible_columns s)).
  { apply (sorted_columns_In (set_globals s depth) s (fst best) Hl).
    apply first_best_member. }
  destruct (searches_agree (set_globals s depth) s (S fuel) 0 Hrange Hcol Hpl Hb)
    as (m1 & m2 & Hm1 & _).
  rewrite H1 in Hm1.
  assert (Hroot : snd best
                  = minimax_value (set_globals s depth) (S fuel) s true 0).
  { unfold best. injection Hm1 as Hroot _. exact Hroot. }
  exists (fst best).
  unfold MinimaxABAgent_get_chosen_column, Negascout_get_chosen_column.
  rewrite H1, H2. cbn [bind snd]. rewrite Hc1, Hc2.
  repeat split; trivial.
  - change (t (fst best)
            = minimax_value (set_globals s depth) (S fuel) s true 0).
    now rewrite Hval.
  - intros c' Hc'. change (Ext.le (t c') (t (fst best))). rewrite Hval.
    apply (sorted_columns_In (set_globals s depth) s c' Hl) in Hc'.
    destruct (first_best_largest t rest h (t h)) as [Hh Hrest].
    destruct Hc' as [<- | Hc']; [exact Hh | now apply Hrest].
Qed.

(** X11: on a position in progress whose legal columns are distinct, the
    alpha-beta agent and the NegaScout agent return the same column, a legal
    one: ties never make them differ. *)
Theorem agents_choose_same_column (fuel : nat) (g0 : Globals) (s : State)
    (depth : Z) :
  columns_in_range -> in_progress_has_column ->
  NoDup (get_possible_columns s) ->
  get_state_status s = None ->
  bounded (set_globals s depth) (S fuel) s 0 = true ->
  exists c,
    MinimaxABAgent_get_chosen_column (S fuel) g0 s depth
    = Ok (set_globals s depth, Some c)
    /\ Negascout_get_chosen_column (S fuel) g0 s depth
       = Ok (set_globals s depth, Some c)
    /\ In c (get_possible_columns s).
Proof.
  intros Hrange Hcol Hnd Hs Hb.
  destruct (@agents_choice fuel g0 s depth Hrange Hcol Hnd Hs Hb) as (c & H1 & H2 & H3 & _).
  now exists c.
Qed.

(** X12: the column the alpha-beta agent returns is a best move within the
    depth bound: the minimax value of its successor is the minimax value of
    the position, and no legal column has a successor of greater value. *)
Theorem chosen_column_is_optimal (fuel : nat) (g0 : Globals) (s : State)
    (depth : Z) :
  columns_in_range -> in_progress_has_column ->
  NoDup (get_possible_columns s) ->
  get_state_status s = None ->
  bounded (set_globals s depth) (S fuel) s 0 = true ->
  exists c,
    MinimaxABAgent_get_chosen_column (S fuel) g0 s depth
    = Ok (set_globals s depth, Some c)
    /\ minimax_value (set_globals s depth) fuel (generate_successor_state s c) false 1
       = minimax_value (set_globals s depth) (S fuel) s true 0
    /\ forall c', In c' (get_possible_columns s) ->
         Ext.le (minimax_value (set_globals s depth) fuel
                   (generate_successor_state s c') false 1)
                (minimax_value (set_globals s depth) fuel
                   (generate_successor_state s c) false 1).
Proof.
  intros Hrange Hcol Hnd Hs Hb.
  destruct (@agents_choice fuel g0 s depth Hrange Hcol Hnd Hs Hb)
    as (c & H1 & _ & _ & H4 & H5).
  now exists c.
Qed.

(** X13: a positive depth bound is respected: on a position in progress
    both agents finish within a recursion budget equal to the bound and
    return a legal column. *)
Theorem agents_complete_within_depth (g0 : Globals) (s : State) (depth : Z) :
  columns_in_range -> in_progress_has_column ->
  NoDup (get_possible_columns s) ->
  get_state_status s = None ->
  0 < depth ->
  exists c,
    MinimaxABAgent_get_chosen_column (Z.to_nat depth) g0 s depth
    = Ok (set_globals s depth, Some c)
    /\ Negascout_get_chosen_column (Z.to_nat depth) g0 s depth
       = Ok (set_globals s depth, Some c)
    /\ In c (get_possible_columns s).
Proof.
  intros Hrange Hcol Hnd Hs Hd.
  assert (Hb : bounded (set_globals s depth) (Z.to_nat depth) s 0 = true).
  { apply bounded_by_depth with (d := depth); [| lia].
    unfold set_globals. simpl.
    destruct (depth =? 0) eqn:E; [apply Z.eqb_eq in E; lia | reflexivity]. }
  destruct (Z.to_nat depth) as [| fuel] eqn:Hn; [lia |].
  destruct (@agents_choice fuel g0 s depth Hrange Hcol Hnd Hs Hb) as (c & H1 & H2 & H3 & _).
  now exists c.
Qed.

End SearchContracts.

(** ** The agents on the Connect Four board *)

Lemma connect4_columns_nodup (s : Connect4.board) :
  NoDup (get_possible_columns s).
Proof.
  simpl. unfold Connect4.columns. apply NoDup_filter.
  repeat constructor; simpl; intuition lia.
Qed.

Lemma minimax_ab_window_witness :
  Ext.lt (Fin (-5)) (Fin 5)
  /\ bounded (set_globals Connect4.empty 2) 2
       (state (new_Node Connect4.empty (-1))) 0 = true
  /\ exists v n,
       minimax_ab (set_globals Connect4.empty 2) 2 (new_Node Connect4.empty (-1))
         RED (Fin (-5)) (Fin 5) 0 = Ok (v, n)
       /\ (Ext.lt (Fin (-5)) v -> Ext.lt v (Fin 5) ->
           v = minimax_value (set_globals Connect4.empty 2) 2
                 (state (new_Node Connect4.empty (-1)))
                 (player_eqb RED (max_player (set_globals Connect4.empty 2))) 0)
       /\ (Ext.le v (Fin (-5)) ->
           Ext.le (minimax_value (set_globals Connect4.empty 2) 2
                 (state (new_Node Connect4.empty (-1)))
                 (player_eqb RED (max_player (set_globals Connect4.empty 2))) 0) v)
       /\ (Ext.le (Fin 5) v ->
           Ext.le v (minimax_value (set_globals Connect4.empty 2) 2
                 (state (new_Node Connect4.empty (-1)))
                 (player_eqb RED (max_player (set_globals Connect4.empty 2))) 0)).
Proof.
  split; [simpl; lia |].
  split; [vm_compute; reflexivity |].
  apply (@minimax_ab_window _ _ (set_globals Connect4.empty 2) 2
           (new_Node Connect4.empty (-1)) RED (Fin (-5)) (Fin 5) 0).
  - exact connect4_columns_in_range.
  - simpl. discriminate.
  - simpl. lia.
  - vm_compute. reflexivity.
Defined.

Lemma negascout_window_witness :
  Ext.lt (Fin (-5)) (Fin 5)
  /\ bounded (set_globals Connect4.red_threat 2) 2
       (state (new_Node Connect4.red_threat (-1))) 0 = true
  /\ exists v n,
       negascout (set_globals Connect4.red_threat 2) 2
         (new_Node Connect4.red_threat (-1)) RED (Fin (-5)) (Fin 5) 0 = Ok (v, n)
       /\ (Ext.lt (Fin (-5)) v -> Ext.lt v (Fin 5) ->
           v = negamax_value (set_globals Connect4.red_threat 2) 2
                 (state (new_Node Connect4.red_threat (-1))) RED 0)
       /\ (Ext.le v (Fin (-5)) ->
           Ext.le (negamax_value (set_globals Connect4.red_threat 2) 2
                 (state (new_Node Connect4.red_threat (-1))) RED 0) v)
       /\ (Ext.le (Fin 5) v ->
           Ext.le v (negamax_value (set_globals Connect4.red_threat 2) 2
                 (state (new_Node Connect4.red_threat (-1))) RED 0)).
Proof.
  split; [simpl; lia |].
  split; [vm_compute; reflexivity |].
  apply (@negascout_window _ _ (set_globals Connect4.red_threat 2) 2
           (new_Node Connect4.red_threat (-1)) RED (Fin (-5)) (Fin 5) 0).
  - exact connect4_columns_in_range.
  - exact connect4_in_progress_has_column.
  - simpl. discriminate.
  - simpl. lia.
  - vm_compute. reflexivity.
Defined.

Lemma agents_choose_same_column_witness :
  get_state_status Connect4.empty = None
  /\ bounded (set_globals Connect4.empty 2) 2 Connect4.empty 0 = true
  /\ exists c,
       MinimaxABAgent_get_chosen_column 2 Connect4.red_first Connect4.empty 2
       = Ok (set_globals Connect4.empty 2, Some c)
       /\ Negascout_get_chosen_column 2 Connect4.red_first Connect4.empty 2
          = Ok (set_globals Connect4.empty 2, Some c)
       /\ In c (get_possible_columns Connect4.empty).
Proof.
  split; [vm_compute; reflexivity |].
  split; [vm_compute; reflexivity |].
  apply (@agents_choose_same_column _ _ 1 Connect4.red_first Connect4.empty 2).
  - exact connect4_columns_in_range.
  - exact connect4_in_progress_has_column.
  - apply connect4_columns_nodup.
  - vm_compute. reflexivity.
  - vm_compute. reflexivity.
Defined.

Lemma chosen_column_is_optimal_witness :
  get_state_status Connect4.red_threat = None
  /\ bounded (set_globals Connect4.red_threat 2) 2 Connect4.red_threat 0 = true
  /\ exists c,
       MinimaxABAgent_get_chosen_column 2 Connect4.red_first Connect4.red_threat 2
       = Ok (set_globals Connect4.red_threat 2, Some c)
       /\ minimax_value (set_globals Connect4.red_threat 2) 1
            (generate_successor_state Connect4.red_threat c) false 1
          = minimax_value (set_globals Connect4.red_threat 2) 2
              Connect4.red_threat true 0
       /\ forall c', In c' (get_possible_columns Connect4.red_threat) ->
            Ext.le (minimax_value (set_globals Connect4.red_threat 2) 1
                      (generate_successor_state Connect4.red_threat c') false 1)
                   (minimax_value (set_globals Connect4.red_threat 2) 1
                      (generate_successor_state Connect4.red_threat c) false 1).
Proof.
  split; [vm_compute; reflexivity |].
  split; [vm_compute; reflexivity |].
  apply (@chosen_column_is_optimal _ _ 1 Connect4.red_first Connect4.red_threat 2).
  - exact connect4_columns_in_range.
  - exact connect4_in_progress_has_column.
  - apply connect4_columns_nodup.
  - vm_compute. reflexivity.
  - vm_compute. reflexivity.
Defined.

Lemma agents_complete_within_depth_witness :
  get_state_status Connect4.empty = None
  /\ 0 < 3
  /\ exists c,
       MinimaxABAgent_get_chosen_column (Z.to_nat 3) Connect4.red_first
         Connect4.empty 3
       = Ok (set_globals Connect4.empty 3, Some c)
       /\ Negascout_get_chosen_column (Z.to_nat 3) Connect4.red_first
            Connect4.empty 3
          = Ok (set_globals Connect4.empty 3, Some c)
       /\ In c (get_possible_columns Connect4.empty).
Proof.
  split; [vm_compute; reflexivity |].
  split; [lia |].
  apply (@agents_complete_within_depth _ _ Connect4.red_first Connect4.empty 3).
  - exact connect4_columns_in_range.
  - exact connect4_in_progress_has_column.
  - apply connect4_columns_nodup.
  - vm_compute. reflexivity.
  - lia.
Defined.

(** * Properties of the sliding-tile search *)

Ltac reflect_tests :=
  repeat match goal with
         | H : (_ <=? _) = true |- _ => apply Z.leb_le in H
         | H : (_ <=? _) = false |- _ => apply Z.leb_gt in H
         | H : (_ <? _) = true |- _ => apply Z.ltb_lt in H
         | H : (_ <? _) = false |- _ => apply Z.ltb_ge in H
         | H : (_ =? _) = true |- _ => apply Z.eqb_eq in H
         | H : (_ =? _) = false |- _ => apply Z.eqb_neq in H
         end.

Section TileBasics.

Import Pathfinding.

Lemma find_index_Some (state : list Z) (x : Z) :
  forall i, find_index state x = Some i ->
    0 <= i < len state
    /\ nth (Z.to_nat i) state 0 = x
    /\ forall j, (j < Z.to_nat i)%nat -> nth j state 0 <> x.
Proof.
  unfold len. induction state as [| tile rest IH]; simpl; intros i Hi; [discriminate |].
  destruct (tile =? x) eqn:Ht.
  - injection Hi as <-. apply Z.eqb_eq in Ht. simpl.
    repeat split; lia.
  - destruct (find_index rest x) as [i' |]; [| discriminate].
    injection Hi as <-. destruct (IH i' eq_refl) as (Hr & Hn & Hf).
    apply Z.eqb_neq in Ht.
    replace (Z.to_nat (i' + 1)) with (S (Z.to_nat i')) by lia.
    repeat split; try lia; trivial.
    intros [| j] Hj; simpl; [exact Ht | apply Hf; lia].
Qed.

Lemma find_index_None (state : list Z) (x : Z) :
  find_index state x = None <-> ~ In x state.
Proof.
  induction state as [| tile rest IH]; simpl; [tauto |].
  destruct (tile =? x) eqn:Ht.
  - apply Z.eqb_eq in Ht. split; [discriminate | tauto].
  - apply Z.eqb_neq in Ht. destruct (find_index rest x).
    + split; [discriminate |]. intros H. exfalso.
      destruct IH as [_ IH]. assert (~ In x rest) by tauto.
      specialize (IH H0). discriminate.
    + split; [| reflexivity]. intros _ [H | H]; [tauto |]. now apply IH.
Qed.

Lemma find_index_In (state : list Z) (x : Z) :
  In x state <-> exists i, find_index state x = Some i.
Proof.
  destruct (find_index state x) as [i |] eqn:Hi.
  - split; [now exists i |]. intros _.
    destruct (find_index_Some _ _ Hi) as (Hr & Hn & _). rewrite <- Hn.
    apply nth_In. unfold len in Hr. lia.
  - apply find_index_None in Hi. split; [tauto | intros [i H]; discriminate].
Qed.

Lemma index_outcome (state : list Z) (x : Z) :
  (In x state /\ exists i, index state x = Return i /\ find_index state x = Some i)
  \/ (~ In x state /\ index state x = Raise ValueError).
Proof.
  unfold index. destruct (find_index state x) as [i |] eqn:Hi.
  - left. split; [apply find_index_In; now exists i | now exists i].
  - right. split; [now apply find_index_None | reflexivity].
Qed.

End TileBasics.

Section LegalActions.

Import Pathfinding.

Variable N : Z.

Lemma get_legal_actions_cases (state : list Z) (self : Algorithm) :
  let self' := mkAlgorithm (nodes_evaluated self + 1) (nodes_generated self) in
  (~ In 0 state /\ get_legal_actions N state self = (Raise ValueError, self'))
  \/ (In 0 state /\ N = 0
      /\ get_legal_actions N state self = (Raise ZeroDivisionError, self'))
  \/ (N <> 0 /\ exists z,
        find_index state 0 = Some z
        /\ get_legal_actions N state self
           = (Return ((if 0 <=? z - N then [z - N] else [])
                      ++ (if z + N <? len state then [z + N] else [])
                      ++ (if negb ((z + 1) mod N =? 0) then [z + 1] else [])
                      ++ (if negb (z mod N =? 0) then [z - 1] else [])), self')).
Proof.
  intros self'. unfold get_legal_actions, mbind, count_evaluated, lift, ret.
  fold self'.
  destruct (index_outcome state 0) as [(Hin & z & Hz & Hf) | (Hin & Hz)]; rewrite Hz.
  - unfold py_mod. destruct (N =? 0) eqn:HN.
    + right. left. apply Z.eqb_eq in HN. tauto.
    + right. right. apply Z.eqb_neq in HN. split; [exact HN |]. exists z.
      split; [exact Hf |]. f_equal. f_equal.
      destruct (0 <=? z - N), (z + N <? len state), (negb ((z + 1) mod N =? 0)),
        (negb (z mod N =? 0)); reflexivity.
  - left. tauto.
Qed.

Lemma get_legal_actions_counters (state : list Z) (self : Algorithm) :
  snd (get_legal_actions N state self)
  = mkAlgorithm (nodes_evaluated self + 1) (nodes_generated self).
Proof.
  destruct (get_legal_actions_cases state self)
    as [(Hin & H) | [(Hin & HN & H) | (HN & z & Hz & H)]]; now rewrite H.
Qed.

(** X14: [get_legal_actions] counts the state as evaluated whatever comes of
    the call; it raises [ValueError] exactly when the state has no empty
    tile, [ZeroDivisionError] exactly when it has one and [config.N] is
    zero, and returns otherwise. *)
Theorem get_legal_actions_outcome (state : list Z) (self : Algorithm) :
  snd (get_legal_actions N state self)
  = mkAlgorithm (nodes_evaluated self + 1) (nodes_generated self)
  /\ (fst (get_legal_actions N state self) = Raise ValueError <-> ~ In 0 state)
  /\ (fst (get_legal_actions N state self) = Raise ZeroDivisionError
      <-> In 0 state /\ N = 0)
  /\ ((exists legal_actions,
         fst (get_legal_actions N state self) = Return legal_actions)
      <-> In 0 state /\ N <> 0).
Proof.
  destruct (get_legal_actions_cases state self)
    as [(Hin & H) | [(Hin & HN & H) | (HN & z & Hz & H)]]; rewrite H; simpl.
  - split; [reflexivity |]. split; [tauto |]. split.
    + split; [discriminate | tauto].
    + split; [intros [l Hl]; discriminate | tauto].
  - split; [reflexivity |]. split; [split; [discriminate | tauto] |]. split.
    + tauto.
    + split; [intros [l Hl]; discriminate | tauto].
  - assert (Hin : In 0 state) by (apply find_index_In; now exists z).
    split; [reflexivity |]. split; [split; [discriminate | tauto] |]. split.
    + split; [discriminate | tauto].
    + split; [tauto |]. intros _. now eexists.
Qed.

Lemma same_row_next (z : Z) :
  0 < N -> ((z + 1) mod N <> 0 <-> (z + 1) / N = z / N).
Proof.
  intros HN.
  pose proof (Z.div_mod z N ltac:(lia)) as Hz.
  pose proof (Z.mod_pos_bound z N HN) as Hb.
  pose proof (Z.div_mod (z + 1) N ltac:(lia)) as Hz1.
  pose proof (Z.mod_pos_bound (z + 1) N HN) as Hb1.
  split; intros H; nia.
Qed.

Lemma same_row_previous (z : Z) :
  0 < N -> (z mod N <> 0 <-> (z - 1) / N = z / N).
Proof.
  intros HN. pose proof (same_row_next (z - 1) HN) as H.
  replace (z - 1 + 1) with z in H by lia. split; intros H'.
  - symmetry. now apply H.
  - apply H. now symmetry.
Qed.

Lemma legal_actions_neighbours (state legal_actions : list Z)
    (self self' : Algorithm) (z : Z) :
  0 < N ->
  find_index state 0 = Some z ->
  get_legal_actions N state self = (Return legal_actions, self') ->
  NoDup legal_actions
  /\ forall a, In a legal_actions
       <-> (a = z - N /\ 0 <= a)
           \/ (a = z + N /\ a < len state)
           \/ ((a = z + 1 \/ a = z - 1) /\ a / N = z / N).
Proof.
  intros HN Hz H.
  destruct (get_legal_actions_cases state self)
    as [(Hin & H') | [(Hin & HN' & H') | (_ & z' & Hz' & H')]];
    rewrite H' in H; try discriminate.
  rewrite Hz in Hz'. injection Hz' as <-. injection H as <- _.
  pose proof (same_row_next z HN) as Hn.
  pose proof (same_row_previous z HN) as Hp.
  assert (Hdn : (z + 1) / N = z / N -> (z - N) / N <> z / N).
  { intros _. replace (z - N) with (z + (-1) * N) by lia.
    rewrite Z.div_add by lia. lia. }
  split.
  - assert (H1 : N = 1 -> (z + 1) mod N = 0 /\ z mod N = 0)
      by (intros ->; now rewrite !Z.mod_1_r).
    destruct (0 <=? z - N), (z + N <? len state),
      ((z + 1) mod N =? 0) eqn:E3, (z mod N =? 0) eqn:E4; simpl;
      reflect_tests;
      repeat (apply NoDup_cons; [simpl; intuition lia |]); apply NoDup_nil.
  - intros a. rewrite !in_app_iff.
    destruct (0 <=? z - N) eqn:E1, (z + N <? len state) eqn:E2,
      ((z + 1) mod N =? 0) eqn:E3, (z mod N =? 0) eqn:E4; simpl;
      reflect_tests; split; intros Ha;
      repeat match goal with
             | H : _ \/ _ |- _ => destruct H
             | H : _ /\ _ |- _ => destruct H
             | H : False |- _ => destruct H
             end; subst; try tauto; try lia;
      try (exfalso; tauto);
      intuition (try lia; try congruence).
Qed.

(** X15: with [config.N] positive, the legal actions are the cells next to
    the empty one: the cell a row above when there is one, the cell a row
    below when it is in the tuple, and the next and the previous cell when
    they lie in the row of the empty cell; no action is listed twice. *)
Theorem legal_actions_are_neighbours (state legal_actions : list Z)
    (self self' : Algorithm) (z : Z) :
  0 < N ->
  find_index state 0 = Some z ->
  get_legal_actions N state self = (Return legal_actions, self') ->
  NoDup legal_actions
  /\ forall a, In a legal_actions
       <-> (a = z - N /\ 0 <= a)
           \/ (a = z + N /\ a < len state)
           \/ ((a = z + 1 \/ a = z - 1) /\ a / N = z / N).
Proof. intros; eapply legal_actions_neighbours; eassumption. Qed.

Lemma legal_actions_bounds (state legal_actions : list Z)
    (self self' : Algorithm) (z : Z) :
  0 < N ->
  len state mod N = 0 ->
  find_index state 0 = Some z ->
  get_legal_actions N state self = (Return legal_actions, self') ->
  forall a, In a legal_actions -> 0 <= a < len state /\ a <> z.
Proof.
  intros HN Hrows Hz H a Ha.
  destruct (@legal_actions_neighbours state legal_actions self self' z HN Hz H)
    as [_ Hchar].
  apply Hchar in Ha.
  destruct (find_index_Some _ _ Hz) as (Hr & _).
  pose proof (Z.div_mod (len state) N ltac:(lia)) as Hl.
  pose proof (Z.div_mod z N ltac:(lia)) as Hzd.
  pose proof (Z.mod_pos_bound z N HN) as Hb.
  destruct Ha as [[-> Ha] | [[-> Ha] | [[-> | ->] Ha]]]; try lia.
  - pose proof (Z.div_mod (z + 1) N ltac:(lia)) as Hz1.
    pose proof (Z.mod_pos_bound (z + 1) N HN) as Hb1.
    split; [| lia]. split; [lia |].
    destruct (Z.eq_dec (z + 1) (len state)) as [E | E]; [| lia].
    exfalso. rewrite E in Ha. rewrite <- Ha in Hzd. rewrite Hrows in Hl. lia.
  - pose proof (Z.div_mod (z - 1) N ltac:(lia)) as Hz1.
    pose proof (Z.mod_pos_bound (z - 1) N HN) as Hb1.
    split; [| lia]. split; [| lia]. rewrite Ha in Hz1.
    destruct (Z.eq_dec z 0) as [-> | Hz0]; [| lia].
    rewrite Z.div_0_l in Hz1 by lia. lia.
Qed.

(** X16: on a board of whole rows, the legal actions are indices of the
    tuple other than the index of the empty tile. *)
Theorem legal_actions_in_range (state legal_actions : list Z)
    (self self' : Algorithm) (z : Z) :
  0 < N ->
  len state mod N = 0 ->
  find_index state 0 = Some z ->
  get_legal_actions N state self = (Return legal_actions, self') ->
  forall a, In a legal_actions -> 0 <= a < len state /\ a <> z.
Proof. intros; eapply legal_actions_bounds; eassumption. Qed.

End LegalActions.

Section ApplyAction.

Import Pathfinding.

Lemma update_length (l : list Z) (k : nat) (v : Z) :
  length (update l k v) = length l.
Proof.
  revert k. induction l as [| x l IH]; intros [| k]; simpl; trivial.
  now rewrite IH.
Qed.

Lemma update_nth_same (l : list Z) (k : nat) (v : Z) :
  (k < length l)%nat -> nth k (update l k v) 0 = v.
Proof.
  revert k. induction l as [| x l IH]; intros [| k] Hk; simpl in *; try lia; trivial.
  apply IH. lia.
Qed.

Lemma update_nth_other (l : list Z) (k j : nat) (v : Z) :
  j <> k -> nth j (update l k v) 0 = nth j l 0.
Proof.
  revert k j. induction l as [| x l IH]; intros [| k] [| j] Hjk; simpl; trivial;
    try lia. apply IH. lia.
Qed.

Lemma update_nth_id (l : list Z) (k : nat) :
  update l k (nth k l 0) = l.
Proof.
  revert k. induction l as [| x l IH]; intros [| k]; simpl; trivial.
  now rewrite IH.
Qed.

Lemma update_app (l1 l2 : list Z) (x v : Z) :
  update (l1 ++ x :: l2) (length l1) v = l1 ++ v :: l2.
Proof. induction l1 as [| y l1 IH]; simpl; [reflexivity | now rewrite IH]. Qed.

(** The two stores of a swap give a permutation. *)
Lemma swap_permutation (l : list Z) (i j : nat) :
  (i < length l)%nat -> (j < length l)%nat ->
  Permutation l (update (update l i (nth j l 0)) j (nth i l 0)).
Proof.
  assert (Hlt : forall (l : list Z) (i j : nat), (i < j)%nat -> (j < length l)%nat ->
            exists l1 x l2 y l3,
              l = l1 ++ x :: l2 ++ y :: l3 /\ length l1 = i
              /\ length (l1 ++ x :: l2) = j).
  { intros l0 i0 j0 Hij Hj.
    destruct (nth_split l0 0 Hj) as (a & l3 & Hl & Ha).
    assert (Hi : (i0 < length a)%nat) by lia.
    destruct (nth_split a 0 Hi) as (l1 & l2 & Ha' & Hl1).
    exists l1, (nth i0 a 0), l2, (nth j0 l0 0), l3.
    split; [| split; [exact Hl1 |]].
    - rewrite Hl at 1. rewrite Ha' at 1. now rewrite <- app_assoc.
    - now rewrite <- Ha'. }
  assert (Hsw : forall (l1 : list Z) (x : Z) (l2 : list Z) (y : Z) (l3 : list Z),
            Permutation (l1 ++ x :: l2 ++ y :: l3) (l1 ++ y :: l2 ++ x :: l3)).
  { intros l1 x l2 y l3. apply Permutation_app_head.
    change (Permutation ([x] ++ l2 ++ [y] ++ l3) ([y] ++ l2 ++ [x] ++ l3)).
    rewrite !app_assoc. apply Permutation_app_tail.
    rewrite (Permutation_app_comm ([x] ++ l2) [y]).
    rewrite <- app_assoc. apply Permutation_app_head, Permutation_app_comm. }
  intros Hi Hj.
  destruct (Nat.lt_total i j) as [Hij | [-> | Hji]].
  - destruct (Hlt l i j Hij Hj) as (l1 & x & l2 & y & l3 & -> & Hl1 & Hl2).
    assert (Hx : nth i (l1 ++ x :: l2 ++ y :: l3) 0 = x)
      by (rewrite <- Hl1; now rewrite nth_middle).
    assert (Hy : nth j (l1 ++ x :: l2 ++ y :: l3) 0 = y).
    { rewrite <- Hl2.
      change (l1 ++ x :: l2 ++ y :: l3) with (l1 ++ (x :: l2) ++ y :: l3).
      rewrite app_assoc. now rewrite nth_middle. }
    rewrite Hx, Hy. rewrite <- Hl1 at 1. rewrite update_app.
    change (l1 ++ y :: l2 ++ y :: l3) with (l1 ++ (y :: l2) ++ y :: l3).
    rewrite app_assoc.
    replace j with (length (l1 ++ y :: l2))
      by (rewrite <- Hl2; rewrite !length_app; reflexivity).
    rewrite update_app. rewrite <- app_assoc. apply Hsw.
  - rewrite update_nth_id, update_nth_id. reflexivity.
  - destruct (Hlt l j i Hji Hi) as (l1 & x & l2 & y & l3 & -> & Hl1 & Hl2).
    assert (Hx : nth j (l1 ++ x :: l2 ++ y :: l3) 0 = x)
      by (rewrite <- Hl1; now rewrite nth_middle).
    assert (Hy : nth i (l1 ++ x :: l2 ++ y :: l3) 0 = y).
    { rewrite <- Hl2.
      change (l1 ++ x :: l2 ++ y :: l3) with (l1 ++ (x :: l2) ++ y :: l3).
      rewrite app_assoc. now rewrite nth_middle. }
    rewrite Hx, Hy.
    change (l1 ++ x :: l2 ++ y :: l3) with (l1 ++ (x :: l2) ++ y :: l3) at 2.
    rewrite app_assoc. rewrite <- Hl2 at 1. rewrite update_app.
    rewrite <- app_assoc. rewrite <- Hl1 at 1.
    change ((x :: l2) ++ x :: l3) with (x :: l2 ++ x :: l3).
    rewrite update_app. apply Hsw.
Qed.

Lemma position_cases (n i : Z) :
  (0 <= i < n /\ position n i = Return (Z.to_nat i))
  \/ (- n <= i < 0 /\ position n i = Return (Z.to_nat (i + n)))
  \/ ((i < - n \/ n <= i) /\ position n i = Raise IndexError).
Proof.
  unfold position.
  destruct (0 <=? i) eqn:E1, (i <? n) eqn:E2, (- n <=? i) eqn:E3, (i <? 0) eqn:E4;
    simpl; reflect_tests; try lia; tauto.
Qed.

Lemma position_in_range (n i : Z) (k : nat) :
  position n i = Return k ->
  (Z.of_nat k < n) /\ (0 <= i -> Z.of_nat k = i) /\ (i < 0 -> Z.of_nat k = i + n).
Proof.
  destruct (position_cases n i) as [[H ->] | [[H ->] | [H ->]]];
    intros [= <-]; lia.
Qed.

(** What [apply_action] computes: the two outcomes that raise, and the swap
    of the cell [k] the action denotes with the cell [z] of the empty tile. *)
Lemma apply_action_cases (state : list Z) (action : Z) (self : Algorithm) :
  let self' := mkAlgorithm (nodes_evaluated self) (nodes_generated self + 1) in
  (~ In 0 state /\ apply_action state action self = (Raise ValueError, self'))
  \/ (In 0 state /\ (action < - len state \/ len state <= action)
      /\ apply_action state action self = (Raise IndexError, self'))
  \/ (exists z k,
        find_index state 0 = Some z
        /\ position (len state) action = Return k
        /\ - len state <= action < len state
        /\ apply_action state action self
           = (Return (update (update state k 0) (Z.to_nat z) (nth k state 0)),
              self')).
Proof.
  intros self'. unfold apply_action, mbind, count_generated, lift, ret.
  fold self'.
  destruct (index_outcome state 0) as [(Hin & z & Hz & Hf) | (Hin & Hz)];
    rewrite Hz; [| left; tauto].
  right. destruct (find_index_Some _ _ Hf) as (Hr & Hn & _).
  unfold getitem, setitem.
  assert (Hpz : position (len state) z = Return (Z.to_nat z)).
  { destruct (position_cases (len state) z) as [[H ->] | [[H _] | [H _]]];
      [reflexivity | lia | lia]. }
  rewrite Hpz, Hn.
  destruct (position_cases (len state) action) as [[H Hp] | [[H Hp] | [H Hp]]];
    rewrite Hp.
  - right. exists z, (Z.to_nat action). unfold len. rewrite update_length.
    fold (len state). rewrite Hpz. repeat split; trivial; lia.
  - right. exists z, (Z.to_nat (action + len state)). unfold len.
    rewrite update_length. fold (len state). rewrite Hpz.
    repeat split; trivial; lia.
  - left. tauto.
Qed.

Lemma apply_action_counters (state : list Z) (action : Z) (self : Algorithm) :
  snd (apply_action state action self)
  = mkAlgorithm (nodes_evaluated self) (nodes_generated self + 1).
Proof.
  destruct (apply_action_cases state action self)
    as [(Hin & H) | [(Hin & Hout & H) | (z & k & Hz & Hk & Hr & H)]];
    now rewrite H.
Qed.

(** X17: [apply_action] counts a generated node whatever comes of the call;
    it raises [ValueError] exactly when the state has no empty tile,
    [IndexError] exactly when it has one and the action is no subscript of
    the tuple, and returns otherwise. *)
Theorem apply_action_outcome (state : list Z) (action : Z) (self : Algorithm) :
  snd (apply_action state action self)
  = mkAlgorithm (nodes_evaluated self) (nodes_generated self + 1)
  /\ (fst (apply_action state action self) = Raise ValueError <-> ~ In 0 state)
  /\ (fst (apply_action state action self) = Raise IndexError
      <-> In 0 state /\ (action < - len state \/ len state <= action))
  /\ ((exists new_state, fst (apply_action state action self) = Return new_state)
      <-> In 0 state /\ - len state <= action < len state).
Proof.
  destruct (apply_action_cases state action self)
    as [(Hin & H) | [(Hin & Hout & H) | (z & k & Hz & Hk & Hr & H)]];
    rewrite H; simpl.
  - split; [reflexivity |]. split; [tauto |]. split.
    + split; [discriminate | tauto].
    + split; [intros [l Hl]; discriminate | tauto].
  - split; [reflexivity |]. split; [split; [discriminate | tauto] |]. split.
    + tauto.
    + split; [intros [l Hl]; discriminate | lia].
  - assert (Hin : In 0 state) by (apply find_index_In; now exists z).
    split; [reflexivity |]. split; [split; [discriminate | tauto] |]. split.
    + split; [discriminate | lia].
    + split; [tauto |]. intros _. now eexists.
Qed.

Lemma apply_action_cells (state new_state : list Z) (action z : Z)
    (self self' : Algorithm) :
  0 <= action ->
  find_index state 0 = Some z ->
  apply_action state action self = (Return new_state, self') ->
  Permutation state new_state
  /\ length new_state = length state
  /\ nth (Z.to_nat action) new_state 0 = 0
  /\ nth (Z.to_nat z) new_state 0 = nth (Z.to_nat action) state 0
  /\ forall j, j <> Z.to_nat action -> j <> Z.to_nat z ->
       nth j new_state 0 = nth j state 0.
Proof.
  intros Ha Hz H.
  destruct (apply_action_cases state action self)
    as [(Hin & H') | [(Hin & Hout & H') | (z' & k & Hz' & Hk & Hr & H')]];
    rewrite H' in H; try discriminate.
  rewrite Hz in Hz'. injection Hz' as <-. injection H as <- _.
  destruct (find_index_Some _ _ Hz) as (Hzr & Hzn & _).
  destruct (position_in_range _ _ Hk) as (Hk1 & Hk2 & _).
  assert (Hka : k = Z.to_nat action) by lia. subst k.
  unfold len in *.
  assert (Hkl : (Z.to_nat action < length state)%nat) by lia.
  assert (Hzl : (Z.to_nat z < length state)%nat) by lia.
  split; [| split; [| split; [| split]]].
  - pose proof (@swap_permutation state _ _ Hkl Hzl) as Hp.
    now rewrite Hzn in Hp.
  - now rewrite !update_length.
  - destruct (Nat.eq_dec (Z.to_nat action) (Z.to_nat z)) as [E | E].
    + rewrite E. rewrite update_nth_same by (rewrite update_length; lia).
      now rewrite <- E, E.
    + rewrite update_nth_other by exact E. now apply update_nth_same.
  - apply update_nth_same. rewrite update_length. lia.
  - intros j Hj1 Hj2. now rewrite !update_nth_other.
Qed.

(** X18: a state [apply_action] returns holds the tiles of the state it was
    given, each as often, in as many cells: the empty tile is in the cell the
    action denotes, the tile of that cell is where the empty tile was, and
    every other cell is as before. *)
Theorem apply_action_swaps (state new_state : list Z) (action z : Z)
    (self self' : Algorithm) :
  0 <= action ->
  find_index state 0 = Some z ->
  apply_action state action self = (Return new_state, self') ->
  Permutation state new_state
  /\ length new_state = length state
  /\ nth (Z.to_nat action) new_state 0 = 0
  /\ nth (Z.to_nat z) new_state 0 = nth (Z.to_nat action) state 0
  /\ forall j, j <> Z.to_nat action -> j <> Z.to_nat z ->
       nth j new_state 0 = nth j state 0.
Proof. intros; eapply apply_action_cells; eassumption. Qed.

Lemma find_index_first (state : list Z) (x : Z) (i : nat) :
  (i < length state)%nat -> nth i state 0 = x ->
  (forall j, (j < i)%nat -> nth j state 0 <> x) ->
  find_index state x = Some (Z.of_nat i).
Proof.
  intros Hi Hx Hfirst.
  assert (Hin : In x state) by (rewrite <- Hx; now apply nth_In).
  apply find_index_In in Hin. destruct Hin as [i' Hi'].
  destruct (find_index_Some _ _ Hi') as (Hr & Hn & Hf).
  rewrite Hi'. f_equal.
  destruct (Nat.lt_total (Z.to_nat i') i) as [Hlt | [Heq | Hgt]].
  - exfalso. now apply (Hfirst _ Hlt).
  - lia.
  - exfalso. now apply (Hf _ Hgt).
Qed.

(** X19: on a state without repeated tiles, sliding the tile back undoes an
    action: after [apply_action] the empty tile is found at the action, and
    the action that is the former index of the empty tile restores the
    state. *)
Theorem apply_action_undo (state new_state : list Z) (action z : Z)
    (self self' : Algorithm) :
  NoDup state ->
  0 <= action ->
  find_index state 0 = Some z ->
  apply_action state action self = (Return new_state, self') ->
  find_index new_state 0 = Some action
  /\ fst (apply_action new_state z self') = Return state.
Proof.
  intros Hnd Ha Hz H.
  destruct (@apply_action_cells state new_state action z self self' Ha Hz H)
    as (Hperm & Hlen & Hna & Hnz & Hother).
  destruct (find_index_Some _ _ Hz) as (Hzr & Hzn & Hzf).
  destruct (apply_action_cases state action self)
    as [(Hin & H') | [(Hin & Hout & H') | (z' & k & Hz' & Hk & Hr & H')]];
    rewrite H' in H; try discriminate.
  clear H' z' k Hz' Hk H. unfold len in *.
  assert (Hnd' : NoDup new_state) by (eapply Permutation_NoDup; eassumption).
  assert (Hfa : find_index new_state 0 = Some action).
  { rewrite <- (Z2Nat.id action) by lia.
    apply find_index_first; [lia | exact Hna |].
    intros j Hj Hj0.
    assert (E : nth j new_state 0 = nth (Z.to_nat action) new_state 0) by congruence.
    apply (proj1 (NoDup_nth new_state 0) Hnd') in E; lia. }
  split; [exact Hfa |].
  destruct (apply_action_cases new_state z self')
    as [(Hin & H') | [(Hin & Hout & H') | (z' & k & Hz' & Hk & Hr' & H')]];
    rewrite H'; simpl.
  - exfalso. apply Hin. apply find_index_In. now exists action.
  - exfalso. unfold len in Hout. lia.
  - rewrite Hfa in Hz'. injection Hz' as <-.
    destruct (position_in_range _ _ Hk) as (_ & Hk2 & _).
    assert (Hkz : k = Z.to_nat z) by lia. subst k.
    f_equal. apply (nth_ext _ _ 0 0).
    + now rewrite !update_length.
    + intros j Hj. rewrite !update_length in Hj.
      destruct (Nat.eq_dec j (Z.to_nat action)) as [-> | Hja].
      * rewrite update_nth_same by (rewrite update_length; lia). exact Hnz.
      * rewrite update_nth_other by exact Hja.
        destruct (Nat.eq_dec j (Z.to_nat z)) as [-> | Hjz].
        -- rewrite update_nth_same by lia. now symmetry.
        -- rewrite update_nth_other by exact Hjz. now apply Hother.
Qed.

End ApplyAction.

Section Heuristics.

Import Pathfinding.

Lemma hamming_loop_total (state : list Z) :
  forall order heuristic,
    hamming_loop state order heuristic
    = heuristic + total hamming_cost state order.
Proof.
  induction state as [| tile rest IH]; intros order heuristic; simpl; [lia |].
  rewrite IH. unfold hamming_cost, misplaced.
  destruct (negb (tile =? 0) && negb (tile - 1 =? order)); lia.
Qed.

Lemma manhattan_loop_total (N : Z) (state : list Z) :
  N <> 0 ->
  forall order heuristic,
    manhattan_loop N state order heuristic
    = Return (heuristic + total (manhattan_cost N) state order).
Proof.
  intros HN. induction state as [| tile rest IH]; intros order heuristic;
    cbn [manhattan_loop total].
  - f_equal. lia.
  - unfold py_floordiv, py_mod. unfold manhattan_cost at 1. unfold misplaced.
    destruct (N =? 0) eqn:E; [apply Z.eqb_eq in E; contradiction |].
    destruct (negb (tile =? 0) && negb (tile - 1 =? order)); cbn [rbind];
      rewrite IH; f_equal; lia.
Qed.

Lemma manhattan_loop_zero (state : list Z) :
  forall order heuristic,
    manhattan_loop 0 state order heuristic
    = if total hamming_cost state order =? 0 then Return heuristic
      else Raise ZeroDivisionError.
Proof.
  induction state as [| tile rest IH]; intros order heuristic;
    cbn [manhattan_loop total]; [reflexivity |].
  unfold hamming_cost at 1. unfold misplaced.
  assert (Hnn : forall l o, 0 <= total hamming_cost l o).
  { induction l as [| t l IHl]; intros o; simpl; [lia |].
    specialize (IHl (o + 1)). unfold hamming_cost at 1.
    destruct (misplaced t o); lia. }
  destruct (negb (tile =? 0) && negb (tile - 1 =? order)).
  - specialize (Hnn rest (order + 1)).
    destruct (1 + total hamming_cost rest (order + 1) =? 0) eqn:E;
      [apply Z.eqb_eq in E; lia | reflexivity].
  - rewrite IH. reflexivity.
Qed.

Lemma total_bounds (f : Z -> Z -> Z) (B : Z) (state : list Z) :
  (forall tile order, 0 <= f tile order <= B) ->
  forall order, 0 <= total f state order <= B * len state.
Proof.
  intros Hf. unfold len.
  induction state as [| tile rest IH]; intros order; simpl length; simpl total; [lia |].
  specialize (IH (order + 1)). specialize (Hf tile order). nia.
Qed.

Lemma total_zero (f : Z -> Z -> Z) (state : list Z) :
  (forall tile order, 0 <= f tile order) ->
  forall order,
    total f state order = 0
    <-> forall i, (i < length state)%nat -> f (nth i state 0) (order + Z.of_nat i) = 0.
Proof.
  intros Hf. induction state as [| tile rest IH]; intros order; simpl.
  - split; [intros _ i Hi; lia | reflexivity].
  - assert (Hnn : 0 <= total f rest (order + 1)).
    { clear IH. revert order. induction rest as [| t l IHl]; intros o; simpl; [lia |].
      specialize (IHl (o + 1)). specialize (Hf t (o + 1)). lia. }
    specialize (Hf tile order). split.
    + intros H [| i] Hi.
      * replace (order + Z.of_nat 0) with order by lia. lia.
      * replace (order + Z.of_nat (S i)) with (order + 1 + Z.of_nat i) by lia.
        apply (proj1 (IH (order + 1))); lia.
    + intros H.
      assert (H0 : f tile order = 0).
      { specialize (H 0%nat ltac:(lia)). simpl in H.
        now replace (order + 0) with order in H by lia. }
      assert (Hr : total f rest (order + 1) = 0).
      { apply IH. intros i Hi. specialize (H (S i) ltac:(lia)). simpl nth in H.
        now replace (order + Z.of_nat (S i)) with (order + 1 + Z.of_nat i) in H by lia. }
      lia.
Qed.

Lemma total_le (f g : Z -> Z -> Z) (state : list Z) :
  (forall tile order, f tile order <= g tile order) ->
  forall order, total f state order <= total g state order.
Proof.
  intros Hfg. induction state as [| tile rest IH]; intros order; simpl; [lia |].
  specialize (IH (order + 1)). specialize (Hfg tile order). lia.
Qed.

Lemma total_update (f : Z -> Z -> Z) (state : list Z) (k : nat) (v : Z) :
  (k < length state)%nat ->
  forall order,
    total f (update state k v) order
    = total f state order - f (nth k state 0) (order + Z.of_nat k)
      + f v (order + Z.of_nat k).
Proof.
  revert k. induction state as [| tile rest IH]; intros k Hk order; simpl in Hk;
    [lia |].
  destruct k as [| k]; simpl.
  - replace (order + 0) with order by lia. lia.
  - rewrite IH by lia.
    replace (order + 1 + Z.of_nat k) with (order + Z.pos (Pos.of_succ_nat k)) by lia.
    lia.
Qed.

Lemma hamming_cost_range (tile order : Z) : 0 <= hamming_cost tile order <= 1.
Proof. unfold hamming_cost. destruct (misplaced tile order); lia. Qed.

Lemma hamming_cost_zero (tile order : Z) :
  hamming_cost tile order = 0 <-> (tile <> 0 -> tile = order + 1).
Proof.
  unfold hamming_cost, misplaced.
  destruct (tile =? 0) eqn:E1, (tile - 1 =? order) eqn:E2; simpl; reflect_tests;
    split; intros; try lia; try discriminate;
    exfalso; assert (tile = order + 1) by tauto; lia.
Qed.

Lemma manhattan_cost_distance (N tile order : Z) :
  N <> 0 -> tile <> 0 ->
  manhattan_cost N tile order
  = Z.abs ((tile - 1) / N - order / N) + Z.abs ((tile - 1) mod N - order mod N).
Proof.
  intros HN Ht. unfold manhattan_cost, misplaced.
  destruct (tile =? 0) eqn:E1, (tile - 1 =? order) eqn:E2; simpl; reflect_tests;
    try lia. subst order. lia.
Qed.

Lemma manhattan_cost_empty (N order : Z) : manhattan_cost N 0 order = 0.
Proof. reflexivity. Qed.

Lemma hamming_cost_empty (order : Z) : hamming_cost 0 order = 0.
Proof. reflexivity. Qed.

Lemma cost_comparison (N tile order : Z) :
  N <> 0 -> hamming_cost tile order <= manhattan_cost N tile order.
Proof.
  intros HN. unfold hamming_cost, manhattan_cost, misplaced.
  destruct (tile =? 0) eqn:E1, (tile - 1 =? order) eqn:E2; simpl; reflect_tests;
    try lia.
  pose proof (Z.div_mod (tile - 1) N HN). pose proof (Z.div_mod order N HN).
  destruct (Z.eq_dec ((tile - 1) / N) (order / N)) as [E | E]; [| lia].
  rewrite E in *. lia.
Qed.

Lemma manhattan_cost_zero (N tile order : Z) :
  N <> 0 -> (manhattan_cost N tile order = 0 <-> hamming_cost tile order = 0).
Proof.
  intros HN. pose proof (cost_comparison tile order HN) as Hc.
  pose proof (hamming_cost_range tile order) as Hr.
  split; [lia |]. unfold hamming_cost, manhattan_cost.
  destruct (misplaced tile order); [discriminate | reflexivity].
Qed.

(** X20: the Hamming heuristic is a number between 0 and the length of the
    tuple, and it is 0 exactly when every tile other than the empty one is
    at its goal index, tile [t] at index [t - 1]. *)
Theorem hamming_zero_iff_solved (state : list Z) :
  0 <= HammingHeuristic_get_evaluation state <= len state
  /\ (HammingHeuristic_get_evaluation state = 0
      <-> forall i, (i < length state)%nat ->
            nth i state 0 <> 0 -> nth i state 0 = Z.of_nat i + 1).
Proof.
  unfold HammingHeuristic_get_evaluation. rewrite hamming_loop_total. simpl.
  split.
  - pose proof (@total_bounds hamming_cost 1 state hamming_cost_range 0). lia.
  - rewrite (@total_zero hamming_cost state) by apply hamming_cost_range.
    split; intros H i Hi.
    + apply hamming_cost_zero. now apply H.
    + apply hamming_cost_zero. now apply H.
Qed.

(** X21: with [config.N] other than zero the Manhattan heuristic returns a
    number that is at least the Hamming heuristic, and 0 exactly when the
    Hamming heuristic is 0. *)
Theorem manhattan_bounds_hamming (N : Z) (state : list Z) :
  N <> 0 ->
  exists h,
    ManhattanHeuristic_get_evaluation N state = Return h
    /\ HammingHeuristic_get_evaluation state <= h
    /\ (h = 0 <-> HammingHeuristic_get_evaluation state = 0).
Proof.
  intros HN. unfold ManhattanHeuristic_get_evaluation, HammingHeuristic_get_evaluation.
  rewrite manhattan_loop_total by exact HN. rewrite hamming_loop_total. simpl.
  eexists. split; [reflexivity |]. split.
  - apply total_le. intros. now apply cost_comparison.
  - rewrite (@total_zero hamming_cost state) by apply hamming_cost_range.
    rewrite (@total_zero (manhattan_cost N) state).
    + split; intros H i Hi.
      * apply (manhattan_cost_zero _ _ HN). now apply H.
      * apply (manhattan_cost_zero _ _ HN). now apply H.
    + intros tile order. pose proof (cost_comparison tile order HN).
      pose proof (hamming_cost_range tile order). lia.
Qed.

(** X22: with [config.N] zero the Manhattan heuristic raises
    [ZeroDivisionError] as soon as a tile is misplaced, and returns 0
    otherwise. *)
Theorem manhattan_zero_rows (state : list Z) :
  ManhattanHeuristic_get_evaluation 0 state
  = if HammingHeuristic_get_evaluation state =? 0 then Return 0
    else Raise ZeroDivisionError.
Proof.
  unfold ManhattanHeuristic_get_evaluation, HammingHeuristic_get_evaluation.
  rewrite manhattan_loop_zero, hamming_loop_total. reflexivity.
Qed.

End Heuristics.

Section Moves.

Import Pathfinding.

(** The effect of an action on a sum of costs to which the empty tile adds
    nothing: only the tile that slides counts, before at the cell the action
    denotes, afterwards at the cell the empty tile was in. *)
Lemma apply_action_total (f : Z -> Z -> Z) (state new_state : list Z)
    (action z : Z) (k : nat) (self self' : Algorithm) :
  (forall order, f 0 order = 0) ->
  find_index state 0 = Some z ->
  position (len state) action = Return k ->
  apply_action state action self = (Return new_state, self') ->
  total f new_state 0
  = total f state 0 - f (nth k state 0) (Z.of_nat k) + f (nth k state 0) z.
Proof.
  intros Hf Hz Hk H.
  destruct (apply_action_cases state action self)
    as [(Hin & H') | [(Hin & Hout & H') | (z' & k' & Hz' & Hk' & Hr & H')]];
    rewrite H' in H; try discriminate.
  rewrite Hz in Hz'. injection Hz' as <-.
  rewrite Hk in Hk'. injection Hk' as <-. injection H as <- _.
  destruct (find_index_Some _ _ Hz) as (Hzr & Hzn & _).
  destruct (position_in_range _ _ Hk) as (Hk1 & _).
  unfold len in *.
  rewrite total_update by (rewrite update_length; lia).
  rewrite total_update by lia.
  assert (Hnz : nth (Z.to_nat z) (update state k 0) 0 = 0).
  { destruct (Nat.eq_dec (Z.to_nat z) k) as [<- | E].
    - apply update_nth_same. lia.
    - now rewrite update_nth_other. }
  rewrite Hnz, !Hf. rewrite Z2Nat.id by lia. simpl. lia.
Qed.

(** X23: an action changes the Hamming heuristic by one at most. *)
Theorem hamming_move (state new_state : list Z) (action : Z)
    (self self' : Algorithm) :
  apply_action state action self = (Return new_state, self') ->
  Z.abs (HammingHeuristic_get_evaluation new_state
         - HammingHeuristic_get_evaluation state) <= 1.
Proof.
  intros H.
  destruct (apply_action_cases state action self)
    as [(Hin & H') | [(Hin & Hout & H') | (z & k & Hz & Hk & Hr & H')]];
    try (rewrite H' in H; discriminate).
  unfold HammingHeuristic_get_evaluation. rewrite !hamming_loop_total.
  rewrite (@apply_action_total hamming_cost state new_state action z k self self'
             hamming_cost_empty Hz Hk H).
  pose proof (hamming_cost_range (nth k state 0) (Z.of_nat k)).
  pose proof (hamming_cost_range (nth k state 0) z). lia.
Qed.

Lemma previous_cell (N z : Z) :
  0 < N -> 0 <= z -> (z - 1) / N = z / N -> 0 <= z - 1.
Proof.
  intros HN Hz H.
  destruct (Z.eq_dec z 0) as [-> | Hz0]; [| lia].
  pose proof (Z.div_mod (0 - 1) N ltac:(lia)) as Hd.
  pose proof (Z.mod_pos_bound (0 - 1) N HN) as Hb.
  rewrite H, Z.div_0_l in Hd by lia. lia.
Qed.

(** Rows and columns of the four neighbours of a cell. *)
Lemma row_above (N z : Z) :
  0 < N -> (z - N) / N = z / N - 1 /\ (z - N) mod N = z mod N.
Proof.
  intros HN. replace (z - N) with (z + (-1) * N) by lia.
  rewrite Z.div_add, Z.mod_add by lia. lia.
Qed.

Lemma row_below (N z : Z) :
  0 < N -> (z + N) / N = z / N + 1 /\ (z + N) mod N = z mod N.
Proof.
  intros HN. replace (z + N) with (z + 1 * N) by lia.
  rewrite Z.div_add, Z.mod_add by lia. lia.
Qed.

Lemma column_of_next (N z : Z) :
  0 < N -> (z + 1) / N = z / N -> (z + 1) mod N = z mod N + 1.
Proof.
  intros HN H.
  pose proof (Z.div_mod z N ltac:(lia)) as Hz.
  pose proof (Z.div_mod (z + 1) N ltac:(lia)) as Hz1.
  rewrite H in Hz1. lia.
Qed.

Lemma column_of_previous (N z : Z) :
  0 < N -> (z - 1) / N = z / N -> (z - 1) mod N = z mod N - 1.
Proof.
  intros HN H.
  pose proof (Z.div_mod z N ltac:(lia)) as Hz.
  pose proof (Z.div_mod (z - 1) N ltac:(lia)) as Hz1.
  rewrite H in Hz1. lia.
Qed.

(** X24: on a state without repeated tiles, a legal action changes the
    Manhattan heuristic by exactly one: the tile that slides comes one cell
    nearer to its goal cell or goes one cell farther. *)
Theorem manhattan_move (N : Z) (state new_state legal_actions : list Z)
    (action : Z) (self0 self1 self self' : Algorithm) :
  0 < N ->
  NoDup state ->
  get_legal_actions N state self0 = (Return legal_actions, self1) ->
  In action legal_actions ->
  apply_action state action self = (Return new_state, self') ->
  exists h h',
    ManhattanHeuristic_get_evaluation N state = Return h
    /\ ManhattanHeuristic_get_evaluation N new_state = Return h'
    /\ Z.abs (h' - h) = 1.
Proof.
  intros HN Hnd Hl Ha H.
  destruct (apply_action_cases state action self)
    as [(Hin & H') | [(Hin & Hout & H') | (z & k & Hz & Hk & Hr & H')]];
    try (rewrite H' in H; discriminate).
  destruct (@legal_actions_neighbours N state legal_actions self0 self1 z
              HN Hz Hl) as [_ Hchar].
  apply Hchar in Ha. clear Hchar.
  destruct (find_index_Some _ _ Hz) as (Hzr & Hzn & _).
  assert (Hnn : 0 <= action).
  { destruct Ha as [[-> Ha] | [[-> Ha] | [[-> | ->] Ha]]]; try lia.
    now apply (@previous_cell N z). }
  assert (Haz : action <> z).
  { destruct Ha as [[-> Ha] | [[-> Ha] | [[-> | ->] Ha]]]; lia. }
  destruct (position_in_range _ _ Hk) as (Hk1 & Hk2 & _).
  specialize (Hk2 Hnn). unfold len in *.
  assert (Ht : nth k state 0 <> 0).
  { intros E.
    assert (E' : nth k state 0 = nth (Z.to_nat z) state 0) by congruence.
    apply (proj1 (NoDup_nth state 0) Hnd) in E'; lia. }
  unfold ManhattanHeuristic_get_evaluation.
  rewrite !manhattan_loop_total by lia.
  eexists. eexists. split; [reflexivity |]. split; [reflexivity |].
  rewrite (@apply_action_total (manhattan_cost N) state new_state action z k
             self self' (manhattan_cost_empty N) Hz Hk H).
  rewrite !manhattan_cost_distance by (trivial; lia).
  rewrite Hk2.
  set (r := (nth k state 0 - 1) / N). set (c := (nth k state 0 - 1) mod N).
  destruct Ha as [[-> Ha] | [[-> Ha] | [[-> | ->] Ha]]].
  - destruct (@row_above N z HN) as [-> ->]. lia.
  - destruct (@row_below N z HN) as [-> ->]. lia.
  - rewrite Ha, (@column_of_next N z HN Ha). lia.
  - rewrite Ha, (@column_of_previous N z HN Ha). lia.
Qed.

End Moves.

Section BreadthFirst.

Import Pathfinding.

Variable N : Z.

Lemma Node_induction (P : Node -> Prop) :
  (forall a s, P (mkNode a s None)) ->
  (forall a s p, P p -> P (mkNode a s (Some p))) ->
  forall node, P node.
Proof.
  intros Hroot Hchild. fix IH 1. intros [a s [p |]].
  - apply Hchild, IH.
  - apply Hroot.
Qed.

(** The counters never decide what a method returns. *)
Lemma get_legal_actions_self (state : list Z) (self1 self2 : Algorithm) :
  fst (get_legal_actions N state self1) = fst (get_legal_actions N state self2).
Proof.
  destruct (get_legal_actions_cases N state self1)
    as [(Hin & H) | [(Hin & HN & H) | (HN & z & Hz & H)]];
    destruct (get_legal_actions_cases N state self2)
      as [(Hin' & H') | [(Hin' & HN' & H') | (HN' & z' & Hz' & H')]];
    rewrite H, H'; simpl; try reflexivity; try tauto.
  - exfalso. apply Hin. apply find_index_In. now exists z'.
  - exfalso. apply Hin'. apply find_index_In. now exists z.
  - rewrite Hz in Hz'. now injection Hz' as <-.
Qed.

Lemma apply_action_self (state : list Z) (action : Z) (self1 self2 : Algorithm) :
  fst (apply_action state action self1) = fst (apply_action state action self2).
Proof.
  destruct (apply_action_cases state action self1)
    as [(Hin & H) | [(Hin & Hout & H) | (z & k & Hz & Hk & Hr & H)]];
    destruct (apply_action_cases state action self2)
      as [(Hin' & H') | [(Hin' & Hout' & H') | (z' & k' & Hz' & Hk' & Hr' & H')]];
    rewrite H, H'; simpl; try reflexivity; try tauto; try lia.
  - exfalso. apply Hin. apply find_index_In. now exists z'.
  - exfalso. apply Hin'. apply find_index_In. now exists z.
  - rewrite Hz in Hz'. injection Hz' as <-.
    rewrite Hk in Hk'. now injection Hk' as <-.
Qed.

Lemma replay_self (actions : list Z) :
  forall state self1 self2,
    replay N state actions self1 = replay N state actions self2.
Proof.
  induction actions as [| a actions IH]; intros state self1 self2; simpl;
    [reflexivity |].
  pose proof (get_legal_actions_self state self1 self2) as Hl.
  destruct (get_legal_actions N state self1) as [r1 s1].
  destruct (get_legal_actions N state self2) as [r2 s2]. simpl in Hl. subst r2.
  destruct r1 as [legal_actions | e |]; trivial.
  destruct (existsb (Z.eqb a) legal_actions); trivial.
  pose proof (apply_action_self state a s1 s2) as Ha.
  destruct (apply_action state a s1) as [r1 s1'].
  destruct (apply_action state a s2) as [r2 s2']. simpl in Ha. subst r2.
  destruct r1 as [new_state | e |]; trivial.
Qed.

Lemma replay_app (actions1 actions2 : list Z) :
  forall state middle self,
    replay N state actions1 self = Some middle ->
    replay N state (actions1 ++ actions2) self = replay N middle actions2 self.
Proof.
  induction actions1 as [| a actions1 IH]; intros state middle self; simpl.
  - now intros [= ->].
  - destruct (get_legal_actions N state self) as [[legal_actions | e |] s1];
      try discriminate.
    destruct (existsb (Z.eqb a) legal_actions); try discriminate.
    destruct (apply_action state a s1) as [[new_state | e |] s2]; try discriminate.
    intros H. rewrite (IH _ _ _ H). apply replay_self.
Qed.

Lemma replay_step (state new_state legal_actions : list Z) (a : Z)
    (self1 self1' self2 self2' self : Algorithm) :
  get_legal_actions N state self1 = (Return legal_actions, self1') ->
  In a legal_actions ->
  apply_action state a self2 = (Return new_state, self2') ->
  replay N state [a] self = Some new_state.
Proof.
  intros Hl Hin Ha. simpl.
  pose proof (get_legal_actions_self state self self1) as Hl'.
  rewrite Hl in Hl'.
  destruct (get_legal_actions N state self) as [r s1]. simpl in Hl'. subst r.
  replace (existsb (Z.eqb a) legal_actions) with true.
  - pose proof (apply_action_self state a s1 self2) as Ha'. rewrite Ha in Ha'.
    destruct (apply_action state a s1) as [r s2]. simpl in Ha'. now subst r.
  - symmetry. apply existsb_exists. exists a. split; [exact Hin | apply Z.eqb_refl].
Qed.

Lemma backtrack_app (node : Node) :
  forall solution_actions,
    backtrack node solution_actions = solution_actions ++ backtrack node [].
Proof.
  induction node as [a s | a s p IH] using Node_induction; intros acc; simpl.
  - now rewrite app_nil_r.
  - rewrite (IH (acc ++ [a])), (IH [a]). now rewrite app_assoc.
Qed.

(** The actions read back from a linked node lead from the initial state to
    the state of the node. *)
Lemma linked_replay (initial_state : list Z) (node : Node) :
  linked N initial_state node ->
  forall self,
    replay N initial_state (rev (backtrack node [])) self = Some (state node).
Proof.
  induction node as [a s | a s p IH] using Node_induction; simpl.
  - intros Hs self. now rewrite Hs.
  - intros (Hp & legal_actions & s1 & s1' & s2 & s2' & Hl & Hin & Ha) self.
    rewrite backtrack_app, rev_app_distr. simpl.
    rewrite (replay_app _ [a] _ _ (IH Hp self)).
    eapply replay_step; eassumption.
Qed.

Lemma expand_linked (initial_state : list Z) (node : Node)
    (legal_actions : list Z) (self1 self1' : Algorithm) :
  linked N initial_state node ->
  get_legal_actions N (state node) self1 = (Return legal_actions, self1') ->
  forall actions queue queue' self self',
    (forall a, In a actions -> In a legal_actions) ->
    Forall (linked N initial_state) queue ->
    expand node actions queue self = (Return queue', self') ->
    Forall (linked N initial_state) queue'.
Proof.
  intros Hnode Hl. induction actions as [| a actions IH];
    intros queue queue' self self' Hsub Hq; simpl.
  - unfold ret. now intros [= <- _].
  - unfold mbind at 1.
    destruct (apply_action (state node) a self) as [[new_state | e |] s1] eqn:Ha;
      try discriminate.
    apply IH.
    + intros a' Ha'. apply Hsub. now right.
    + apply Forall_app. split; [exact Hq |]. constructor; [| constructor].
      simpl. split; [exact Hnode |].
      exists legal_actions, self1, self1', self, s1.
      repeat split; trivial. apply Hsub. now left.
Qed.

Lemma state_eqb_eq (s1 s2 : list Z) : state_eqb s1 s2 = true <-> s1 = s2.
Proof.
  unfold state_eqb. destruct (list_eq_dec Z.eq_dec s1 s2); split; trivial;
    try discriminate. intros H. contradiction.
Qed.

Lemma bfs_loop_linked (initial_state goal_state : list Z) (fuel : nat) :
  forall node queue visited_set found self self',
    linked N initial_state node ->
    Forall (linked N initial_state) queue ->
    bfs_loop N fuel goal_state node queue visited_set self = (Return found, self') ->
    linked N initial_state found /\ state found = goal_state.
Proof.
  induction fuel as [| fuel IH]; intros node queue visited_set found self self'
    Hnode Hq; simpl; [discriminate |].
  destruct (state_eqb (state node) goal_state) eqn:Hgoal.
  - unfold ret. intros [= <- _]. split; [exact Hnode | now apply state_eqb_eq].
  - destruct queue as [| next queue]; [discriminate |].
    inversion Hq as [| ? ? Hnext Hrest]; subst.
    destruct (existsb (state_eqb (state next)) visited_set).
    + now apply IH.
    + unfold mbind at 1.
      destruct (get_legal_actions N (state next) self)
        as [[legal_actions | e |] s1] eqn:Hl; try discriminate.
      unfold mbind at 1.
      destruct (expand next legal_actions queue s1)
        as [[queue' | e |] s2] eqn:He; try discriminate.
      apply IH; [exact Hnext |].
      eapply expand_linked with (node := next); try eassumption. auto.
Qed.

(** X25: the steps breadth-first search returns solve the puzzle: taken in
    turn from the initial state, each is a legal action of the state it is
    applied to, and the last leaves the goal state. *)
Theorem bfs_steps_reach_goal (fuel : nat) (initial_state goal_state : list Z)
    (solution_actions : list Z) (self self' : Algorithm) :
  BFSAlgorithm_get_steps N fuel initial_state goal_state self
  = (Return solution_actions, self') ->
  forall self0, replay N initial_state solution_actions self0 = Some goal_state.
Proof.
  unfold BFSAlgorithm_get_steps, mbind, ret. intros H self0.
  destruct (bfs_loop N fuel goal_state (mkNode (-1) initial_state None)
              [mkNode (-1) initial_state None] [] self)
    as [[found | e |] s1] eqn:Hloop; try discriminate.
  injection H as <- _.
  destruct (@bfs_loop_linked initial_state goal_state fuel _ _ _ _ _ _
              (eq_refl : linked N initial_state (mkNode (-1) initial_state None))
              (Forall_cons _ (eq_refl : linked N initial_state
                                          (mkNode (-1) initial_state None))
                 (Forall_nil _)) Hloop) as [Hlinked Hstate].
  rewrite <- Hstate. now apply linked_replay.
Qed.

(** ** The counters *)

Lemma expand_counters (node : Node) (actions : list Z) :
  forall queue self,
    nodes_evaluated (snd (expand node actions queue self)) = nodes_evaluated self
    /\ nodes_generated self
       <= nodes_generated (snd (expand node actions queue self))
       <= nodes_generated self + Z.of_nat (length actions).
Proof.
  induction actions as [| a actions IH]; intros queue self.
  - simpl. lia.
  - cbn [expand]. unfold mbind at 1 2 3.
    pose proof (apply_action_counters (state node) a self) as Hs.
    destruct (apply_action (state node) a self) as [[new_state | e |] s1];
      simpl in Hs; subst s1; cbn [snd length nodes_evaluated nodes_generated];
      try lia.
    match goal with
    | |- context [expand node actions ?q ?s] => specialize (IH q s)
    end.
    cbn [nodes_evaluated nodes_generated] in IH. lia.
Qed.

Lemma legal_actions_length (state legal_actions : list Z) (self self' : Algorithm) :
  get_legal_actions N state self = (Return legal_actions, self') ->
  (length legal_actions <= 4)%nat.
Proof.
  intros H.
  destruct (get_legal_actions_cases N state self)
    as [(Hin & H') | [(Hin & HN' & H') | (_ & z & Hz & H')]];
    rewrite H' in H; try discriminate.
  injection H as <- _.
  destruct (0 <=? z - N), (z + N <? len state), (negb ((z + 1) mod N =? 0)),
    (negb (z mod N =? 0)); simpl; lia.
Qed.

Lemma bfs_loop_counters (goal_state : list Z) (fuel : nat) :
  forall node queue visited_set self,
    let self' := snd (bfs_loop N fuel goal_state node queue visited_set self) in
    nodes_evaluated self <= nodes_evaluated self'
    /\ nodes_evaluated self' <= nodes_evaluated self + Z.of_nat fuel
    /\ nodes_generated self <= nodes_generated self'
    /\ nodes_generated self' - nodes_generated self
       <= 4 * (nodes_evaluated self' - nodes_evaluated self).
Proof.
  induction fuel as [| fuel IH]; intros node queue visited_set self; cbv zeta.
  - unfold bfs_loop, lift. cbn [snd]. lia.
  - cbn [bfs_loop].
    destruct (state_eqb (state node) goal_state); [unfold ret; cbn [snd]; lia |].
    destruct queue as [| next queue]; [unfold lift; cbn [snd]; lia |].
    destruct (existsb (state_eqb (state next)) visited_set).
    + specialize (IH next queue visited_set self). cbv zeta in IH. lia.
    + unfold mbind.
      pose proof (get_legal_actions_counters N (state next) self) as Hs.
      destruct (get_legal_actions N (state next) self)
        as [[legal_actions | e |] s1] eqn:Hl; simpl in Hs;
        try (cbn [snd]; rewrite Hs; cbn [nodes_evaluated nodes_generated]; lia).
      pose proof (legal_actions_length _ _ Hl) as Hlen.
      destruct (expand_counters next legal_actions queue s1) as (He1 & He2).
      destruct (expand next legal_actions queue s1) as [[queue' | e |] s2];
        cbn [snd] in *;
        try (rewrite Hs in *; cbn [nodes_evaluated nodes_generated] in *; lia).
      specialize (IH next queue' (state next :: visited_set) s2). cbv zeta in IH.
      rewrite Hs in *. cbn [nodes_evaluated nodes_generated] in *. lia.
Qed.

(** X26: whatever comes of a breadth-first search, it evaluates at most one
    state per turn of its loop and generates at most four nodes per state it
    evaluates; the counters never go down. *)
Theorem bfs_counters (fuel : nat) (initial_state goal_state : list Z)
    (self : Algorithm) :
  nodes_evaluated self
  <= nodes_evaluated (snd (BFSAlgorithm_get_steps N fuel initial_state goal_state self))
  <= nodes_evaluated self + Z.of_nat fuel
  /\ nodes_generated self
     <= nodes_generated (snd (BFSAlgorithm_get_steps N fuel initial_state goal_state self))
     <= nodes_generated self
        + 4 * (nodes_evaluated
                 (snd (BFSAlgorithm_get_steps N fuel initial_state goal_state self))
               - nodes_evaluated self).
Proof.
  unfold BFSAlgorithm_get_steps, mbind, ret.
  pose proof (bfs_loop_counters goal_state fuel (mkNode (-1) initial_state None)
                [mkNode (-1) initial_state None] [] self) as H.
  cbv zeta in H.
  destruct (bfs_loop N fuel goal_state (mkNode (-1) initial_state None)
              [mkNode (-1) initial_state None] [] self) as [[found | e |] s1];
    cbn [snd] in *; lia.
Qed.

End BreadthFirst.

Section PuzzleExamples.

Import Pathfinding.

Lemma legal_actions_are_neighbours_witness :
  0 < 3
  /\ find_index centre_state 0 = Some 4
  /\ get_legal_actions 3 centre_state fresh = (Return [1; 7; 5; 3], mkAlgorithm 1 0)
  /\ NoDup [1; 7; 5; 3]
  /\ forall a, In a [1; 7; 5; 3]
       <-> (a = 4 - 3 /\ 0 <= a)
           \/ (a = 4 + 3 /\ a < len centre_state)
           \/ ((a = 4 + 1 \/ a = 4 - 1) /\ a / 3 = 4 / 3).
Proof.
  split; [lia |]. split; [reflexivity |]. split; [reflexivity |].
  apply (@legal_actions_are_neighbours 3 centre_state [1; 7; 5; 3] fresh
           (mkAlgorithm 1 0) 4); [lia | reflexivity | reflexivity].
Defined.

Lemma legal_actions_in_range_witness :
  0 < 3
  /\ len centre_state mod 3 = 0
  /\ find_index centre_state 0 = Some 4
  /\ get_legal_actions 3 centre_state fresh = (Return [1; 7; 5; 3], mkAlgorithm 1 0)
  /\ forall a, In a [1; 7; 5; 3] -> 0 <= a < len centre_state /\ a <> 4.
Proof.
  split; [lia |]. split; [reflexivity |]. split; [reflexivity |].
  split; [reflexivity |].
  apply (@legal_actions_in_range 3 centre_state [1; 7; 5; 3] fresh
           (mkAlgorithm 1 0) 4); [lia | reflexivity | reflexivity | reflexivity].
Defined.

Lemma apply_action_swaps_witness :
  0 <= 5
  /\ find_index centre_state 0 = Some 4
  /\ apply_action centre_state 5 fresh
     = (Return [1; 2; 3; 4; 5; 0; 6; 7; 8], mkAlgorithm 0 1)
  /\ Permutation centre_state [1; 2; 3; 4; 5; 0; 6; 7; 8]
  /\ length [1; 2; 3; 4; 5; 0; 6; 7; 8] = length centre_state
  /\ nth (Z.to_nat 5) [1; 2; 3; 4; 5; 0; 6; 7; 8] 0 = 0
  /\ nth (Z.to_nat 4) [1; 2; 3; 4; 5; 0; 6; 7; 8] 0
     = nth (Z.to_nat 5) centre_state 0
  /\ forall j, j <> Z.to_nat 5 -> j <> Z.to_nat 4 ->
       nth j [1; 2; 3; 4; 5; 0; 6; 7; 8] 0 = nth j centre_state 0.
Proof.
  split; [lia |]. split; [reflexivity |]. split; [reflexivity |].
  apply (@apply_action_swaps centre_state [1; 2; 3; 4; 5; 0; 6; 7; 8] 5 4 fresh
           (mkAlgorithm 0 1)); [lia | reflexivity | reflexivity].
Defined.

Lemma centre_state_nodup : NoDup centre_state.
Proof.
  unfold centre_state. repeat (apply NoDup_cons; [simpl; intuition lia |]).
  apply NoDup_nil.
Qed.

Lemma apply_action_undo_witness :
  0 <= 5
  /\ find_index centre_state 0 = Some 4
  /\ apply_action centre_state 5 fresh
     = (Return [1; 2; 3; 4; 5; 0; 6; 7; 8], mkAlgorithm 0 1)
  /\ find_index [1; 2; 3; 4; 5; 0; 6; 7; 8] 0 = Some 5
  /\ fst (apply_action [1; 2; 3; 4; 5; 0; 6; 7; 8] 4 (mkAlgorithm 0 1))
     = Return centre_state.
Proof.
  split; [lia |]. split; [reflexivity |]. split; [reflexivity |].
  apply (@apply_action_undo centre_state [1; 2; 3; 4; 5; 0; 6; 7; 8] 5 4 fresh
           (mkAlgorithm 0 1));
    [exact centre_state_nodup | lia | reflexivity | reflexivity].
Defined.

Lemma manhattan_bounds_hamming_witness :
  3 <> 0
  /\ exists h,
       ManhattanHeuristic_get_evaluation 3 centre_state = Return h
       /\ HammingHeuristic_get_evaluation centre_state <= h
       /\ (h = 0 <-> HammingHeuristic_get_evaluation centre_state = 0).
Proof.
  split; [lia |]. apply (@manhattan_bounds_hamming 3 centre_state). lia.
Defined.

Lemma hamming_move_witness :
  apply_action centre_state 5 fresh
  = (Return [1; 2; 3; 4; 5; 0; 6; 7; 8], mkAlgorithm 0 1)
  /\ Z.abs (HammingHeuristic_get_evaluation [1; 2; 3; 4; 5; 0; 6; 7; 8]
            - HammingHeuristic_get_evaluation centre_state) <= 1.
Proof.
  split; [reflexivity |].
  apply (@hamming_move centre_state [1; 2; 3; 4; 5; 0; 6; 7; 8] 5 fresh
           (mkAlgorithm 0 1)).
  reflexivity.
Defined.

Lemma manhattan_move_witness :
  0 < 3
  /\ get_legal_actions 3 centre_state fresh = (Return [1; 7; 5; 3], mkAlgorithm 1 0)
  /\ In 5 [1; 7; 5; 3]
  /\ apply_action centre_state 5 fresh
     = (Return [1; 2; 3; 4; 5; 0; 6; 7; 8], mkAlgorithm 0 1)
  /\ exists h h',
       ManhattanHeuristic_get_evaluation 3 centre_state = Return h
       /\ ManhattanHeuristic_get_evaluation 3 [1; 2; 3; 4; 5; 0; 6; 7; 8] = Return h'
       /\ Z.abs (h' - h) = 1.
Proof.
  split; [lia |]. split; [reflexivity |]. split; [simpl; tauto |].
  split; [reflexivity |].
  apply (@manhattan_move 3 centre_state [1; 2; 3; 4; 5; 0; 6; 7; 8] [1; 7; 5; 3] 5
           fresh (mkAlgorithm 1 0) fresh (mkAlgorithm 0 1));
    [lia | exact centre_state_nodup | reflexivity | simpl; tauto | reflexivity].
Defined.

Lemma bfs_steps_reach_goal_witness :
  BFSAlgorithm_get_steps 3 10 two_moves_state sorted_state fresh
  = (Return [7; 8], mkAlgorithm 7 20)
  /\ forall self0, replay 3 two_moves_state [7; 8] self0 = Some sorted_state.
Proof.
  split; [vm_compute; reflexivity |].
  apply (@bfs_steps_reach_goal 3 10 two_moves_state sorted_state [7; 8] fresh
           (mkAlgorithm 7 20)).
  vm_compute. reflexivity.
Defined.

End PuzzleExamples.

Section ShortestSolution.

Import Pathfinding.

Variable N : Z.

Lemma backtrack_length (node : Node) :
  length (backtrack node []) = depth node.
Proof.
  induction node as [a s | a s p IH] using Node_induction; simpl; trivial.
  rewrite backtrack_app, length_app, IH. simpl. lia.
Qed.

Lemma replay_single (s s' : list Z) (a : Z) (self : Algorithm) :
  replay N s [a] self = Some s' ->
  exists legal_actions,
    fst (get_legal_actions N s self) = Return legal_actions
    /\ In a legal_actions
    /\ fst (apply_action s a self) = Return s'.
Proof.
  simpl.
  destruct (get_legal_actions N s self) as [[legal_actions | e |] s1] eqn:Hl;
    try discriminate.
  destruct (existsb (Z.eqb a) legal_actions) eqn:Hin; try discriminate.
  destruct (apply_action s a s1) as [[new_state | e |] s2] eqn:Ha;
    try discriminate.
  intros [= <-]. exists legal_actions. split; [reflexivity |]. split.
  - apply existsb_exists in Hin. destruct Hin as (x & Hx & E).
    apply Z.eqb_eq in E. now subst x.
  - rewrite (apply_action_self s a self s1). now rewrite Ha.
Qed.

Lemma replay_last (actions : list Z) (a : Z) :
  forall s s' self,
    replay N s (actions ++ [a]) self = Some s' ->
    exists middle,
      replay N s actions self = Some middle
      /\ replay N middle [a] self = Some s'.
Proof.
  intros s s' self H.
  destruct (replay N s actions self) as [middle |] eqn:Hm.
  - exists middle. split; [reflexivity |].
    now rewrite (replay_app N actions [a] s self Hm) in H.
  - exfalso. revert s self H Hm.
    induction actions as [| b actions IH]; intros s self H Hm; simpl in *;
      [discriminate |].
    destruct (get_legal_actions N s self) as [[legal_actions | e |] s1];
      try discriminate.
    destruct (existsb (Z.eqb b) legal_actions); try discriminate.
    destruct (apply_action s b s1) as [[new_state | e |] s2]; try discriminate.
    now apply (IH new_state s2).
Qed.

Lemma covered_deeper (expanded queue : list Node) (s : list Z) (j k : nat) :
  (j <= k)%nat -> covered expanded queue s j -> covered expanded queue s k.
Proof.
  intros Hjk [(e & He & Hs & Hd) | (n & Hn & Hs & Hd)].
  - left. exists e. repeat split; trivial. lia.
  - right. exists n. repeat split; trivial. lia.
Qed.

(** Popping [next]: what it held is held by an expanded node no deeper. *)
Lemma covered_pop (expanded expanded' rest children : list Node) (next : Node)
    (s : list Z) (j : nat) :
  (forall e, In e expanded -> In e expanded') ->
  (exists e, In e expanded' /\ state e = state next /\ (depth e <= depth next)%nat) ->
  covered expanded (next :: rest) s j ->
  covered expanded' (rest ++ children) s j.
Proof.
  intros Hsub (ev & Hev & Hsv & Hdv) [(e & He & Hs & Hd) | (n & Hn & Hs & Hd)].
  - left. exists e. auto.
  - destruct Hn as [<- | Hn].
    + left. exists ev. repeat split; trivial; [congruence | lia].
    + right. exists n. repeat split; trivial. apply in_app_iff. now left.
Qed.

Lemma expand_children (node : Node) (actions : list Z) :
  forall queue queue' self self',
    expand node actions queue self = (Return queue', self') ->
    exists children,
      queue' = queue ++ children
      /\ Forall (fun c => depth c = S (depth node)) children
      /\ forall a s self0,
           In a actions ->
           fst (apply_action (state node) a self0) = Return s ->
           exists c, In c children /\ state c = s.
Proof.
  induction actions as [| a actions IH]; intros queue queue' self self'; simpl.
  - unfold ret. intros [= <- _]. exists []. rewrite app_nil_r.
    split; [reflexivity |]. split; [constructor |]. intros a s self0 [].
  - unfold mbind at 1.
    destruct (apply_action (state node) a self) as [[new_state | e |] s1] eqn:Ha;
      try discriminate.
    intros H. destruct (IH _ _ _ _ H) as (children & Hq & Hd & Hc).
    exists (mkNode a new_state (Some node) :: children).
    split; [now rewrite Hq, <- app_assoc |].
    split; [constructor; [reflexivity | exact Hd] |].
    intros b s self0 [<- | Hb] Hs.
    + exists (mkNode a new_state (Some node)). split; [now left |]. simpl.
      rewrite (apply_action_self (state node) a self0 self), Ha in Hs.
      simpl in Hs. congruence.
    + destruct (Hc b s self0 Hb Hs) as (c & Hin & Hst).
      exists c. split; [now right | exact Hst].
Qed.

Lemma visited_expanded (expanded : list Node) (s : list Z) :
  existsb (state_eqb s) (map state expanded) = true ->
  exists e, In e expanded /\ state e = s.
Proof.
  intros H. apply existsb_exists in H. destruct H as (x & Hx & E).
  apply state_eqb_eq in E. apply in_map_iff in Hx.
  destruct Hx as (e & He & Hin). exists e. split; [exact Hin | congruence].
Qed.

(** One turn of the loop keeps the invariant. *)
Lemma bfs_invariant_step (initial_state goal_state : list Z) (node next : Node)
    (rest queue' : list Node) (visited_set visited_set' : list (list Z)) :
  bfs_invariant N initial_state goal_state node (next :: rest) visited_set ->
  state node <> goal_state ->
  (existsb (state_eqb (state next)) visited_set = true
   /\ queue' = rest /\ visited_set' = visited_set)
  \/ (exists legal_actions self self1 self2,
        get_legal_actions N (state next) self = (Return legal_actions, self1)
        /\ expand next legal_actions rest self1 = (Return queue', self2)
        /\ visited_set' = state next :: visited_set) ->
  bfs_invariant N initial_state goal_state next queue' visited_set'.
Proof.
  intros (expanded & same & deeper & HV & HQ & Hsame & Hdeeper & Hexp & Hgoal
          & Hreach & Hsucc) Hnot Hcase.
  (* the layers of the queue once [next] is popped *)
  assert (Hlayers : exists same' deeper',
             rest = same' ++ deeper'
             /\ Forall (fun n => depth n = depth next) same'
             /\ Forall (fun n => depth n = S (depth next)) deeper'
             /\ (depth node <= depth next <= S (depth node))%nat
             /\ (depth next = S (depth node) ->
                 forall n, In n (next :: rest) -> depth n = S (depth node))).
  { destruct same as [| n same'].
    - simpl in HQ. subst deeper. inversion Hdeeper as [| ? ? Hn Hrest]; subst.
      exists rest, []. rewrite app_nil_r. split; [reflexivity |].
      split; [| split; [constructor |]].
      + eapply Forall_impl; [| exact Hrest]. simpl. intros; lia.
      + split; [lia |]. intros _ n Hin.
        apply (proj1 (Forall_forall _ _) Hdeeper n Hin).
    - simpl in HQ. injection HQ as <- ->.
      inversion Hsame as [| ? ? Hn Hrest]; subst.
      exists same', deeper. split; [reflexivity |].
      split; [| split].
      + eapply Forall_impl; [| exact Hrest]. simpl. intros; lia.
      + eapply Forall_impl; [| exact Hdeeper]. simpl. intros; lia.
      + split; [lia |]. intros E. lia. }
  destruct Hlayers as (same' & deeper' & Hrest & Hsame' & Hdeeper' & Hdn & Hall).
  assert (Hexp' : Forall (fun e => (depth e <= depth next)%nat) expanded).
  { eapply Forall_impl; [| exact Hexp]. simpl. intros; lia. }
  assert (Hgoal' : forall e, In e expanded -> state e <> goal_state).
  { intros e He E. apply Hnot. now rewrite <- (Hgoal e He E). }
  (* states within [depth next] steps, before the pop *)
  assert (Hreach' : forall actions s self,
             (length actions <= depth next)%nat ->
             replay N initial_state actions self = Some s ->
             covered expanded (next :: rest) s (length actions)).
  { intros actions s self Hlen Hr.
    destruct (Nat.le_gt_cases (length actions) (depth node)) as [Hle | Hgt];
      [now apply (Hreach actions s self) |].
    assert (Hd : depth next = S (depth node)) by lia.
    assert (Hl : length actions = S (depth node)) by lia.
    destruct (@exists_last _ actions) as (front & a & ->);
      [intros ->; discriminate |].
    rewrite length_app in Hl. simpl in Hl.
    destruct (replay_last front a _ _ Hr) as (middle & Hm & Ha).
    destruct (Hreach front middle self ltac:(lia) Hm)
      as [(e & He & Hs & Hde) | (n & Hn & Hs & Hdn')].
    - rewrite <- Hs in Ha.
      apply covered_deeper with (j := S (depth e));
        [rewrite length_app; simpl; lia | now apply (Hsucc e a s self)].
    - exfalso. specialize (Hall Hd n Hn). lia. }
  destruct Hcase as [(Hvis & -> & ->) | (legal_actions & self & self1 & self2
                                        & Hl & He & ->)].
  - (* [next] holds a visited state *)
    rewrite HV in Hvis. destruct (visited_expanded _ _ Hvis) as (ev & Hev & Hsv).
    assert (Hpop : exists e, In e expanded /\ state e = state next
                        /\ (depth e <= depth next)%nat).
    { exists ev. repeat split; trivial.
      pose proof (proj1 (Forall_forall _ _) Hexp ev Hev). simpl in H. lia. }
    exists expanded, same', deeper'.
    split; [exact HV |]. split; [exact Hrest |]. split; [exact Hsame' |].
    split; [exact Hdeeper' |]. split; [exact Hexp' |].
    split; [intros e Hin E; exfalso; now apply (Hgoal' e Hin) |]. split.
    + intros actions s self Hlen Hr. rewrite <- (app_nil_r rest).
      apply covered_pop with (expanded := expanded) (next := next); auto.
      now apply (Hreach' actions s self).
    + intros e a s self Hin Hr. rewrite <- (app_nil_r rest).
      apply covered_pop with (expanded := expanded) (next := next); auto.
      now apply (Hsucc e a s self).
  - (* [next] is expanded *)
    destruct (expand_children _ _ _ _ He) as (children & -> & Hcd & Hchild).
    assert (Hpop : exists e, In e (next :: expanded) /\ state e = state next
                        /\ (depth e <= depth next)%nat).
    { exists next. repeat split; [now left | lia]. }
    exists (next :: expanded), same', (deeper' ++ children).
    split; [simpl; now rewrite HV |].
    split; [now rewrite Hrest, app_assoc |]. split; [exact Hsame' |].
    split; [apply Forall_app; now split |].
    split; [constructor; [lia | exact Hexp'] |].
    split; [intros e [<- | Hin] E; [reflexivity | exfalso; now apply (Hgoal' e Hin)] |].
    split.
    + intros actions s self0 Hlen Hr.
      apply covered_pop with (expanded := expanded) (next := next); auto.
      * intros e Hin. now right.
      * now apply (Hreach' actions s self0).
    + intros e a s self0 [<- | Hin] Hr.
      * destruct (replay_single _ _ _ Hr) as (la & Hla & Hina & Happ).
        rewrite (get_legal_actions_self N (state next) self0 self), Hl in Hla.
        simpl in Hla. injection Hla as <-.
        destruct (Hchild a s self0 Hina Happ) as (c & Hc & Hsc).
        right. exists c. split; [apply in_app_iff; now right |].
        split; [exact Hsc |].
        pose proof (proj1 (Forall_forall _ _) Hcd c Hc). simpl in H. lia.
      * apply covered_pop with (expanded := expanded) (next := next); auto.
        -- intros e' Hin'. now right.
        -- now apply (Hsucc e a s self0).
Qed.

Lemma bfs_invariant_start (initial_state goal_state : list Z) :
  bfs_invariant N initial_state goal_state (mkNode (-1) initial_state None)
    [mkNode (-1) initial_state None] [].
Proof.
  exists [], [mkNode (-1) initial_state None], [].
  split; [reflexivity |]. split; [reflexivity |].
  split; [constructor; [reflexivity | constructor] |].
  split; [constructor |]. split; [constructor |].
  split; [intros e [] |]. split.
  - intros [| a actions] s self Hlen Hr; simpl in Hlen; [| lia].
    simpl in Hr. injection Hr as <-. right.
    exists (mkNode (-1) initial_state None). repeat split; [now left | simpl; lia].
  - intros e a s self [].
Qed.

Lemma bfs_loop_invariant (initial_state goal_state : list Z) (fuel : nat) :
  forall node queue visited_set found self self',
    bfs_invariant N initial_state goal_state node queue visited_set ->
    bfs_loop N fuel goal_state node queue visited_set self = (Return found, self') ->
    state found = goal_state
    /\ exists queue' visited_set',
         bfs_invariant N initial_state goal_state found queue' visited_set'.
Proof.
  induction fuel as [| fuel IH]; intros node queue visited_set found self self'
    Hinv; simpl; [discriminate |].
  destruct (state_eqb (state node) goal_state) eqn:Hgoal.
  - unfold ret. intros [= <- _]. split; [now apply state_eqb_eq |].
    now exists queue, visited_set.
  - assert (Hnot : state node <> goal_state).
    { intros E. apply state_eqb_eq in E. congruence. }
    destruct queue as [| next rest]; [discriminate |].
    destruct (existsb (state_eqb (state next)) visited_set) eqn:Hvis.
    + apply IH. eapply bfs_invariant_step; [exact Hinv | exact Hnot |].
      left. auto.
    + unfold mbind at 1.
      destruct (get_legal_actions N (state next) self)
        as [[legal_actions | e |] s1] eqn:Hl; try discriminate.
      unfold mbind at 1.
      destruct (expand next legal_actions rest s1)
        as [[queue' | e |] s2] eqn:He; try discriminate.
      apply IH. eapply bfs_invariant_step; [exact Hinv | exact Hnot |].
      right. exists legal_actions, self, s1, s2. auto.
Qed.

(** X27: breadth-first search returns a shortest solution: no sequence of
    legal actions that leads from the initial state to the goal state is
    shorter than the steps [get_steps] returns. *)
Theorem bfs_steps_are_fewest (fuel : nat) (initial_state goal_state : list Z)
    (solution_actions : list Z) (self self' : Algorithm) :
  BFSAlgorithm_get_steps N fuel initial_state goal_state self
  = (Return solution_actions, self') ->
  forall other self0,
    replay N initial_state other self0 = Some goal_state ->
    (length solution_actions <= length other)%nat.
Proof.
  unfold BFSAlgorithm_get_steps, mbind, ret. intros H other self0 Hother.
  destruct (bfs_loop N fuel goal_state (mkNode (-1) initial_state None)
              [mkNode (-1) initial_state None] [] self)
    as [[found | e |] s1] eqn:Hloop; try discriminate.
  injection H as <- _. rewrite length_rev, backtrack_length.
  destruct (@bfs_loop_invariant initial_state goal_state fuel _ _ _ _ _ _
              (bfs_invariant_start initial_state goal_state) Hloop)
    as (Hstate & queue & visited_set & expanded & same & deeper & HV & HQ & Hsame
        & Hdeeper & Hexp & Hgoal & Hreach & Hsucc).
  destruct (Nat.le_gt_cases (depth found) (length other)) as [Hle | Hgt];
    [exact Hle | exfalso].
  destruct (Hreach other goal_state self0 ltac:(lia) Hother)
    as [(e & He & Hs & Hd) | (n & Hn & Hs & Hd)].
  - rewrite (Hgoal e He Hs) in Hd. lia.
  - rewrite HQ in Hn. apply in_app_iff in Hn. destruct Hn as [Hn | Hn].
    + pose proof (proj1 (Forall_forall _ _) Hsame n Hn) as E. simpl in E. lia.
    + pose proof (proj1 (Forall_forall _ _) Hdeeper n Hn) as E. simpl in E. lia.
Qed.

End ShortestSolution.

Section Termination.

Import Pathfinding.

Variable N : Z.
Variable initial_state goal_state : list Z.

Hypothesis rows_positive : 0 < N.
Hypothesis whole_rows : len initial_state mod N = 0.
Hypothesis has_empty_tile : In 0 initial_state.

Lemma words_In (alphabet : list Z) (n : nat) (w : list Z) :
  length w = n -> (forall x, In x w -> In x alphabet) -> In w (words alphabet n).
Proof.
  revert w. induction n as [| n IH]; intros [| x w] Hlen Hin; simpl in *;
    try discriminate; [now left |].
  apply in_flat_map. exists w. split.
  - apply IH; [lia | intros y Hy; apply Hin; now right].
  - apply in_map_iff. exists x. split; [reflexivity | apply Hin; now left].
Qed.

Lemma board_In_words (s : list Z) :
  Permutation initial_state s ->
  In s (words initial_state (length initial_state)).
Proof.
  intros Hp. apply words_In.
  - symmetry. now apply Permutation_length.
  - intros x Hx. eapply Permutation_in; [symmetry; exact Hp | exact Hx].
Qed.

(** On a board that holds the tiles of the initial state no call raises. *)
Lemma board_legal_actions (s : list Z) :
  Permutation initial_state s ->
  exists legal_actions,
    (length legal_actions <= 4)%nat
    /\ (forall a, In a legal_actions -> 0 <= a < len s)
    /\ forall self,
         get_legal_actions N s self
         = (Return legal_actions,
            mkAlgorithm (nodes_evaluated self + 1) (nodes_generated self)).
Proof.
  intros Hp.
  assert (H0 : In 0 s) by (eapply Permutation_in; eassumption).
  assert (Hlen : len s = len initial_state)
    by (unfold len; now rewrite (Permutation_length Hp)).
  destruct (get_legal_actions_cases N s fresh)
    as [(Hin & H) | [(Hin & HN & H) | (HN & z & Hz & H)]]; try tauto; try lia.
  eexists. split; [eapply legal_actions_length; exact H |]. split.
  - intros a Ha.
    eapply (@legal_actions_bounds N s _ fresh _ z); try eassumption.
    now rewrite Hlen.
  - intros self.
    destruct (get_legal_actions_cases N s self)
      as [(Hin' & H') | [(Hin' & HN' & H') | (HN' & z' & Hz' & H')]];
      try tauto; try lia.
    rewrite Hz in Hz'. injection Hz' as <-. exact H'.
Qed.

Lemma board_apply_action (s : list Z) (a : Z) :
  Permutation initial_state s -> 0 <= a < len s ->
  exists s',
    Permutation initial_state s'
    /\ forall self,
         apply_action s a self
         = (Return s', mkAlgorithm (nodes_evaluated self) (nodes_generated self + 1)).
Proof.
  intros Hp Ha.
  assert (H0 : In 0 s) by (eapply Permutation_in; eassumption).
  destruct (apply_action_cases s a fresh)
    as [(Hin & H) | [(Hin & Hout & H) | (z & k & Hz & Hk & Hr & H)]];
    try tauto; try lia.
  eexists. split.
  - destruct (@apply_action_cells s _ a z fresh _ (proj1 Ha) Hz H) as (Hperm & _).
    eapply perm_trans; eassumption.
  - intros self.
    destruct (apply_action_cases s a self)
      as [(Hin' & H') | [(Hin' & Hout' & H') | (z' & k' & Hz' & Hk' & Hr' & H')]];
      try tauto; try lia.
    rewrite Hz in Hz'. injection Hz' as <-.
    rewrite Hk in Hk'. injection Hk' as <-. exact H'.
Qed.

Lemma board_expand (node : Node) (actions : list Z) :
  Permutation initial_state (state node) ->
  (forall a, In a actions -> 0 <= a < len (state node)) ->
  forall queue self,
    exists children self',
      expand node actions queue self = (Return (queue ++ children), self')
      /\ length children = length actions
      /\ Forall (fun c => Permutation initial_state (state c)) children.
Proof.
  intros Hp. induction actions as [| a actions IH]; intros Hr queue self.
  - exists [], self. rewrite app_nil_r. repeat split. constructor.
  - destruct (@board_apply_action (state node) a Hp (Hr a (or_introl eq_refl)))
      as (s' & Hp' & Ha).
    destruct (IH (fun b Hb => Hr b (or_intror Hb))
                (queue ++ [mkNode a s' (Some node)])
                (mkAlgorithm (nodes_evaluated self) (nodes_generated self + 1)))
      as (children & self' & He & Hlen & Hwf).
    exists (mkNode a s' (Some node) :: children), self'.
    cbn [expand]. unfold mbind at 1. rewrite Ha, He.
    split; [now rewrite <- app_assoc |].
    split; [simpl; now rewrite Hlen |]. now constructor.
Qed.

(** The loop ends within a number of turns fixed by the queue and the states
    not yet visited: with the goal found, or on the empty queue. *)
Lemma bfs_loop_ends (fuel : nat) :
  forall node queue visited_set self,
    bfs_invariant N initial_state goal_state node queue visited_set ->
    Forall (fun n => Permutation initial_state (state n)) queue ->
    NoDup visited_set ->
    incl visited_set (words initial_state (length initial_state)) ->
    (length queue
     + 5 * (length (words initial_state (length initial_state))
            - length visited_set) < fuel)%nat ->
    (exists found self',
       bfs_loop N fuel goal_state node queue visited_set self
       = (Return found, self'))
    \/ (exists node' visited_set' self',
          bfs_loop N fuel goal_state node queue visited_set self
          = (Raise IndexError, self')
          /\ bfs_invariant N initial_state goal_state node' [] visited_set'
          /\ state node' <> goal_state).
Proof.
  induction fuel as [| fuel IH]; intros node queue visited_set self Hinv Hwf Hnd
    Hincl Hfuel; [lia |].
  cbn [bfs_loop].
  destruct (state_eqb (state node) goal_state) eqn:Hgoal.
  - left. now exists node, self.
  - assert (Hnot : state node <> goal_state).
    { intros E. apply state_eqb_eq in E. congruence. }
    destruct queue as [| next rest].
    + right. exists node, visited_set, self. auto.
    + inversion Hwf as [| ? ? Hnext Hrest]; subst.
      destruct (existsb (state_eqb (state next)) visited_set) eqn:Hvis.
      * apply IH; trivial.
        -- eapply bfs_invariant_step; [exact Hinv | exact Hnot |]. left. auto.
        -- simpl in Hfuel. lia.
      * destruct (@board_legal_actions (state next) Hnext)
          as (legal_actions & Hlen & Hrange & Hl).
        destruct (@board_expand next legal_actions Hnext Hrange rest
                    (mkAlgorithm (nodes_evaluated self + 1) (nodes_generated self)))
          as (children & self' & He & Hclen & Hcwf).
        match goal with
        | |- context [mbind ?c ?k self] =>
            assert (Heq : mbind c k self
                          = bfs_loop N fuel goal_state next (rest ++ children)
                              (state next :: visited_set) self')
              by (unfold mbind; now rewrite Hl, He);
            rewrite Heq; clear Heq
        end.
        assert (Hfresh : ~ In (state next) visited_set).
        { intros Hin.
          assert (existsb (state_eqb (state next)) visited_set = true).
          { apply existsb_exists. exists (state next).
            split; [exact Hin | now apply state_eqb_eq]. }
          congruence. }
        assert (Hnd' : NoDup (state next :: visited_set)) by now constructor.
        assert (Hincl' : incl (state next :: visited_set)
                           (words initial_state (length initial_state))).
        { intros s [<- | Hs]; [now apply board_In_words | now apply Hincl]. }
        pose proof (NoDup_incl_length Hnd' Hincl') as Hcount. simpl in Hcount.
        apply IH; trivial.
        -- eapply bfs_invariant_step; [exact Hinv | exact Hnot |].
           right. exists legal_actions, self. eexists. eexists.
           split; [apply Hl |]. split; [exact He | reflexivity].
        -- apply Forall_app. now split.
        -- rewrite length_app. simpl in *. lia.
Qed.

(** With the queue empty every state that legal actions reach from the
    initial state was expanded, so the goal state is none of them. *)
Lemma empty_queue_unreachable (node : Node) (visited_set : list (list Z)) :
  bfs_invariant N initial_state goal_state node [] visited_set ->
  state node <> goal_state ->
  forall other self0, replay N initial_state other self0 <> Some goal_state.
Proof.
  intros (expanded & same & deeper & HV & HQ & Hsame & Hdeeper & Hexp & Hgoal
          & Hreach & Hsucc) Hnot.
  assert (Hall : forall actions s self,
             replay N initial_state actions self = Some s ->
             exists e, In e expanded /\ state e = s).
  { intros actions. induction actions as [| a front IH] using rev_ind;
      intros s self Hr.
    - destruct (Hreach [] s self ltac:(simpl; lia) Hr)
        as [(e & He & Hs & _) | (n & [] & _)]. now exists e.
    - destruct (replay_last N front a _ _ Hr) as (middle & Hm & Ha).
      destruct (IH middle self Hm) as (e & He & Hs). rewrite <- Hs in Ha.
      destruct (Hsucc e a s self He Ha) as [(e' & He' & Hs' & _) | (n & [] & _)].
      now exists e'. }
  intros other self0 Hr. destruct (Hall other goal_state self0 Hr) as (e & He & Hs).
  apply Hnot. now rewrite <- (Hgoal e He Hs).
Qed.

(** X28: on a board of whole rows that holds an empty tile, breadth-first
    search ends: given turns enough it returns steps, or, when no sequence of
    legal actions leads from the initial state to the goal state, raises the
    [IndexError] of the empty queue. *)
Theorem bfs_terminates (self : Algorithm) :
  exists fuel self',
    (exists solution_actions,
       BFSAlgorithm_get_steps N fuel initial_state goal_state self
       = (Return solution_actions, self'))
    \/ (BFSAlgorithm_get_steps N fuel initial_state goal_state self
        = (Raise IndexError, self')
        /\ forall other self0,
             replay N initial_state other self0 <> Some goal_state).
Proof.
  set (fuel := S (1 + 5 * length (words initial_state (length initial_state)))).
  exists fuel. unfold BFSAlgorithm_get_steps, mbind, ret.
  destruct (@bfs_loop_ends fuel (mkNode (-1) initial_state None)
              [mkNode (-1) initial_state None] [] self)
    as [(found & self' & H) | (node' & visited_set' & self' & H & Hinv & Hnot)].
  - apply bfs_invariant_start.
  - constructor; [apply Permutation_refl | constructor].
  - constructor.
  - intros s [].
  - unfold fuel. simpl length. lia.
  - exists self'. left. rewrite H. now eexists.
  - exists self'. right. rewrite H. split; [reflexivity |].
    eapply empty_queue_unreachable; eassumption.
Qed.

End Termination.

(** ** The heap keeps its items *)

Section HeapFacts.

Variable A : Type.
Variable lt : A -> A -> bool.

Lemma set_length (heap : list A) (k : nat) (v : A) :
  length (HeapQ.set heap k v) = length heap.
Proof.
  revert k. induction heap as [| x heap IH]; intros [| k]; simpl; trivial.
  now rewrite IH.
Qed.

Lemma set_set (heap : list A) (k : nat) (v w : A) :
  HeapQ.set (HeapQ.set heap k v) k w = HeapQ.set heap k w.
Proof.
  revert k. induction heap as [| x heap IH]; intros [| k]; simpl; trivial.
  now rewrite IH.
Qed.

Lemma set_nth_id (heap : list A) (k : nat) (d : A) :
  HeapQ.set heap k (nth k heap d) = heap.
Proof.
  revert k. induction heap as [| x heap IH]; intros [| k]; simpl; trivial.
  now rewrite IH.
Qed.

Lemma set_app (l1 l2 : list A) (x v : A) :
  HeapQ.set (l1 ++ x :: l2) (length l1) v = l1 ++ v :: l2.
Proof. induction l1 as [| y l1 IH]; simpl; [reflexivity | now rewrite IH]. Qed.

(** Filling the free cell [i] with the item of cell [j] and cell [j] with
    the item on its way is a rearrangement. *)
Lemma move_permutation (heap : list A) (i j : nat) (x : A) :
  (i < length heap)%nat -> (j < length heap)%nat -> i <> j ->
  Permutation (HeapQ.set heap i x)
    (HeapQ.set (HeapQ.set heap i (nth j heap x)) j x).
Proof.
  assert (Hlt : forall (l : list A) (i j : nat), (i < j)%nat -> (j < length l)%nat ->
            exists l1 a l2 b l3,
              l = l1 ++ a :: l2 ++ b :: l3 /\ length l1 = i
              /\ length (l1 ++ a :: l2) = j).
  { intros l i0 j0 Hij Hj.
    destruct (nth_split l x Hj) as (front & l3 & Hl & Hf).
    assert (Hi : (i0 < length front)%nat) by lia.
    destruct (nth_split front x Hi) as (l1 & l2 & Hf' & Hl1).
    exists l1, (nth i0 front x), l2, (nth j0 l x), l3.
    split; [| split; [exact Hl1 |]].
    - rewrite Hl at 1. rewrite Hf' at 1. now rewrite <- app_assoc.
    - now rewrite <- Hf'. }
  assert (Hsw : forall (l1 : list A) (a : A) (l2 : list A) (b : A) (l3 : list A),
            Permutation (l1 ++ a :: l2 ++ b :: l3) (l1 ++ b :: l2 ++ a :: l3)).
  { intros l1 a l2 b l3. apply Permutation_app_head.
    change (Permutation ([a] ++ l2 ++ [b] ++ l3) ([b] ++ l2 ++ [a] ++ l3)).
    rewrite !app_assoc. apply Permutation_app_tail.
    rewrite (Permutation_app_comm ([a] ++ l2) [b]).
    rewrite <- app_assoc. apply Permutation_app_head, Permutation_app_comm. }
  intros Hi Hj Hij.
  destruct (Nat.lt_total i j) as [Hlt' | [-> | Hgt]]; [| contradiction |].
  - destruct (Hlt heap i j Hlt' Hj) as (l1 & a & l2 & b & l3 & -> & Hl1 & Hl2).
    assert (Hb : nth j (l1 ++ a :: l2 ++ b :: l3) x = b).
    { rewrite <- Hl2.
      change (l1 ++ a :: l2 ++ b :: l3) with (l1 ++ (a :: l2) ++ b :: l3).
      rewrite app_assoc. now rewrite nth_middle. }
    rewrite Hb. rewrite <- Hl1. rewrite !set_app.
    change (l1 ++ b :: l2 ++ b :: l3) with (l1 ++ (b :: l2) ++ b :: l3).
    rewrite app_assoc.
    replace j with (length (l1 ++ b :: l2))
      by (rewrite <- Hl2; rewrite !length_app; reflexivity).
    rewrite set_app. rewrite <- app_assoc. apply Hsw.
  - destruct (Hlt heap j i Hgt Hi) as (l1 & a & l2 & b & l3 & -> & Hl1 & Hl2).
    assert (Ha : nth j (l1 ++ a :: l2 ++ b :: l3) x = a)
      by (rewrite <- Hl1; now rewrite nth_middle).
    rewrite Ha.
    change (l1 ++ a :: l2 ++ b :: l3) with (l1 ++ (a :: l2) ++ b :: l3).
    rewrite app_assoc. rewrite <- Hl2. rewrite !set_app.
    rewrite <- !app_assoc. rewrite <- Hl1.
    change ((a :: l2) ++ a :: l3) with (a :: l2 ++ a :: l3).
    change ((a :: l2) ++ x :: l3) with (a :: l2 ++ x :: l3).
    rewrite set_app. apply Hsw.
Qed.

Lemma siftdown_loop_permutation (fuel : nat) (newitem : A) (startpos : nat) :
  forall heap pos,
    (pos < length heap)%nat ->
    Permutation (HeapQ.set heap pos newitem)
      (HeapQ.siftdown_loop lt fuel heap newitem startpos pos).
Proof.
  induction fuel as [| fuel IH]; intros heap pos Hpos;
    cbn [HeapQ.siftdown_loop]; [reflexivity |].
  destruct (startpos <? pos)%nat eqn:Hlt; [| reflexivity]. cbv zeta.
  apply Nat.ltb_lt in Hlt.
  destruct (lt newitem (nth ((pos - 1) / 2) heap newitem)); [| reflexivity].
  assert (Hpp : ((pos - 1) / 2 < pos)%nat).
  { apply Nat.le_lt_trans with (m := (pos - 1)%nat); [| lia].
    apply Nat.Div0.div_le_upper_bound. lia. }
  eapply perm_trans; [| apply IH; rewrite set_length; lia].
  apply move_permutation; lia.
Qed.

Lemma siftup_loop_permutation (fuel : nat) (newitem : A) (startpos : nat) :
  forall heap pos,
    (pos < length heap)%nat ->
    Permutation (HeapQ.set heap pos newitem)
      (HeapQ.siftup_loop lt fuel heap newitem (length heap) startpos pos).
Proof.
  assert (Hdone : forall heap pos, (pos < length heap)%nat ->
            Permutation (HeapQ.set heap pos newitem)
              (HeapQ.siftdown lt (HeapQ.set heap pos newitem) newitem startpos pos)).
  { intros heap pos Hpos. unfold HeapQ.siftdown.
    rewrite <- (set_set heap pos newitem newitem) at 1.
    apply siftdown_loop_permutation. now rewrite set_length. }
  induction fuel as [| fuel IH]; intros heap pos Hpos; cbn [HeapQ.siftup_loop];
    [now apply Hdone |].
  destruct (2 * pos + 1 <? length heap)%nat eqn:Hc; [| now apply Hdone].
  apply Nat.ltb_lt in Hc. cbv zeta.
  set (child := if ((2 * pos + 1 + 1 <? length heap)%nat
                    && negb (lt (nth (2 * pos + 1) heap newitem)
                               (nth (2 * pos + 1 + 1) heap newitem)))%bool
                then (2 * pos + 1 + 1)%nat else (2 * pos + 1)%nat).
  assert (Hchild : (pos < child < length heap)%nat).
  { unfold child. destruct (2 * pos + 1 + 1 <? length heap)%nat eqn:Hr;
      cbn [andb].
    - apply Nat.ltb_lt in Hr.
      destruct (negb (lt (nth (2 * pos + 1) heap newitem)
                        (nth (2 * pos + 1 + 1) heap newitem))); lia.
    - lia. }
  eapply perm_trans.
  - apply move_permutation with (j := child); lia.
  - assert (Hc' : (child < length (HeapQ.set heap pos (nth child heap newitem)))%nat)
      by (rewrite set_length; lia).
    pose proof (IH _ _ Hc') as IH'. rewrite set_length in IH'. exact IH'.
Qed.

Lemma heappush_permutation (heap : list A) (item : A) :
  Permutation (item :: heap) (HeapQ.heappush lt heap item).
Proof.
  unfold HeapQ.heappush, HeapQ.siftdown.
  eapply perm_trans; [apply Permutation_cons_append |].
  eapply perm_trans;
    [| apply siftdown_loop_permutation; rewrite length_app; simpl; lia].
  replace (length (heap ++ [item]) - 1)%nat with (length heap)
    by (rewrite length_app; simpl; lia).
  now rewrite set_app.
Qed.

Lemma heappop_permutation (heap rest : list A) (item : A) :
  HeapQ.heappop lt heap = Some (item, rest) -> Permutation heap (item :: rest).
Proof.
  unfold HeapQ.heappop.
  destruct (rev heap) as [| lastelt front] eqn:Hrev; [discriminate |].
  assert (Hheap : heap = rev front ++ [lastelt]).
  { rewrite <- (rev_involutive heap), Hrev. reflexivity. }
  destruct (rev front) as [| returnitem others]; intros [= <- <-].
  - now rewrite Hheap.
  - rewrite Hheap. simpl. apply perm_skip.
    eapply perm_trans; [symmetry; apply Permutation_cons_append |].
    unfold HeapQ.siftup.
    apply (@siftup_loop_permutation (length (lastelt :: others)) lastelt 0
             (lastelt :: others) 0). simpl. lia.
Qed.

Lemma heappush_In (heap : list A) (item x : A) :
  In x (HeapQ.heappush lt heap item) -> x = item \/ In x heap.
Proof.
  intros H. apply (Permutation_in _ (Permutation_sym (heappush_permutation heap item)))
    in H. destruct H as [<- | H]; auto.
Qed.

Lemma heappop_In (heap rest : list A) (item : A) :
  HeapQ.heappop lt heap = Some (item, rest) ->
  In item heap /\ forall x, In x rest -> In x heap.
Proof.
  intros H. apply heappop_permutation in H. split.
  - eapply Permutation_in; [symmetry; exact H | now left].
  - intros x Hx. eapply Permutation_in; [symmetry; exact H | now right].
Qed.

End HeapFacts.

Section BestFirstFacts.

Import Pathfinding.
Import BestFirst.

Variable N : Z.
Variable get_evaluation : list Z -> result Z.

Lemma NodeBF_induction (P : NodeBF -> Prop) :
  (forall a s h, P (mkNodeBF a s None h)) ->
  (forall a s p h, P p -> P (mkNodeBF a s (Some p) h)) ->
  forall node, P node.
Proof.
  intros Hroot Hchild. fix IH 1. intros [a s [p |] h].
  - apply Hchild, IH.
  - apply Hroot.
Qed.

Lemma best_first_backtrack_app (node : NodeBF) :
  forall solution_actions,
    backtrack node solution_actions = solution_actions ++ backtrack node [].
Proof.
  induction node as [a s h | a s p h IH] using NodeBF_induction; intros acc; simpl.
  - now rewrite app_nil_r.
  - rewrite (IH (acc ++ [a])), (IH [a]). now rewrite app_assoc.
Qed.

Lemma best_first_linked_replay (initial_state : list Z) (node : NodeBF) :
  linked N initial_state node ->
  forall self,
    replay N initial_state (rev (backtrack node [])) self = Some (state node).
Proof.
  induction node as [a s h | a s p h IH] using NodeBF_induction; simpl.
  - intros Hs self. now rewrite Hs.
  - intros (Hp & legal_actions & s1 & s1' & s2 & s2' & Hl & Hin & Ha) self.
    rewrite best_first_backtrack_app, rev_app_distr. simpl.
    rewrite (replay_app N _ [a] _ _ (IH Hp self)).
    eapply replay_step; eassumption.
Qed.

Lemma best_first_expand_linked (initial_state : list Z) (node : NodeBF)
    (legal_actions : list Z) (self1 self1' : Algorithm) :
  linked N initial_state node ->
  get_legal_actions N (state node) self1 = (Return legal_actions, self1') ->
  forall actions lst predecessors r self self',
    (forall a, In a actions -> In a legal_actions) ->
    Forall (linked N initial_state) lst ->
    expand get_evaluation node actions lst predecessors self = (Return r, self') ->
    Forall (linked N initial_state) (fst r).
Proof.
  intros Hnode Hl. induction actions as [| a actions IH];
    intros lst predecessors r self self' Hsub Hq; simpl.
  - unfold ret. now intros [= <- _].
  - unfold mbind at 1.
    destruct (apply_action (state node) a self) as [[new_state | e |] s1] eqn:Ha;
      try discriminate.
    destruct (existsb (state_eqb new_state) predecessors).
    + apply IH; [| exact Hq]. intros a' Ha'. apply Hsub. now right.
    + unfold mbind at 1, lift at 1.
      destruct (get_evaluation new_state) as [h | e |]; try discriminate.
      apply IH.
      * intros a' Ha'. apply Hsub. now right.
      * apply Forall_forall. intros x Hx. apply heappush_In in Hx.
        destruct Hx as [-> | Hx];
          [| now apply (proj1 (Forall_forall _ _) Hq)].
        simpl. split; [exact Hnode |].
        exists legal_actions, self1, self1', self, s1.
        repeat split; trivial. apply Hsub. now left.
Qed.

Lemma best_first_loop_linked (initial_state goal_state : list Z) (fuel : nat) :
  forall node lst predecessors found self self',
    linked N initial_state node ->
    Forall (linked N initial_state) lst ->
    loop N get_evaluation fuel goal_state node lst predecessors self
    = (Return found, self') ->
    linked N initial_state found /\ state found = goal_state.
Proof.
  induction fuel as [| fuel IH]; intros node lst predecessors found self self'
    Hnode Hq; simpl; [discriminate |].
  destruct (state_eqb (state node) goal_state) eqn:Hgoal.
  - unfold ret. intros [= <- _]. split; [exact Hnode | now apply state_eqb_eq].
  - destruct (HeapQ.heappop lt lst) as [[next rest] |] eqn:Hpop; [| discriminate].
    destruct (heappop_In _ _ Hpop) as (Hin & Hrest).
    assert (Hnext : linked N initial_state next)
      by now apply (proj1 (Forall_forall _ _) Hq).
    unfold mbind at 1.
    destruct (get_legal_actions N (state next) self)
      as [[legal_actions | e |] s1] eqn:Hl; try discriminate.
    unfold mbind at 1.
    destruct (expand get_evaluation next legal_actions rest predecessors s1)
      as [[r | e |] s2] eqn:He; try discriminate.
    assert (Hrest' : Forall (linked N initial_state) rest).
    { rewrite Forall_forall. intros x Hx.
      apply (proj1 (Forall_forall _ _) Hq). now apply Hrest. }
    apply IH; [exact Hnext |].
    eapply best_first_expand_linked with (node := next); try eassumption. auto.
Qed.

(** X29: the steps best-first search returns solve the puzzle, whatever the
    heuristic: taken in turn from the initial state, each is a legal action
    of the state it is applied to, and the last leaves the goal state. *)
Theorem best_first_steps_reach_goal (fuel : nat)
    (initial_state goal_state solution_actions : list Z) (self self' : Algorithm) :
  get_steps N get_evaluation fuel initial_state goal_state self
  = (Return solution_actions, self') ->
  forall self0, replay N initial_state solution_actions self0 = Some goal_state.
Proof.
  unfold get_steps, mbind, ret. intros H self0.
  destruct (loop N get_evaluation fuel goal_state
              (mkNodeBF (-1) initial_state None None)
              [mkNodeBF (-1) initial_state None None] [] self)
    as [[found | e |] s1] eqn:Hloop; try discriminate.
  injection H as <- _.
  destruct (@best_first_loop_linked initial_state goal_state fuel _ _ _ _ _ _
              (eq_refl : linked N initial_state
                           (mkNodeBF (-1) initial_state None None))
              (Forall_cons _ (eq_refl : linked N initial_state
                                          (mkNodeBF (-1) initial_state None None))
                 (Forall_nil _)) Hloop) as [Hlinked Hstate].
  rewrite <- Hstate. now apply best_first_linked_replay.
Qed.

End BestFirstFacts.

Section AStarFacts.

Import Pathfinding.
Import AStar.

Variable N : Z.
Variable get_evaluation : list Z -> result Z.

Lemma NodeAStar_induction (P : NodeAStar -> Prop) :
  (forall a s h c, P (mkNodeAStar a s None h c)) ->
  (forall a s p h c, P p -> P (mkNodeAStar a s (Some p) h c)) ->
  forall node, P node.
Proof.
  intros Hroot Hchild. fix IH 1. intros [a s [p |] h c].
  - apply Hchild, IH.
  - apply Hroot.
Qed.

Lemma a_star_backtrack_app (node : NodeAStar) :
  forall solution_actions,
    backtrack node solution_actions = solution_actions ++ backtrack node [].
Proof.
  induction node as [a s h c | a s p h c IH] using NodeAStar_induction; intros acc; simpl.
  - now rewrite app_nil_r.
  - rewrite (IH (acc ++ [a])), (IH [a]). now rewrite app_assoc.
Qed.

Lemma a_star_linked_replay (initial_state : list Z) (node : NodeAStar) :
  linked N initial_state node ->
  forall self,
    replay N initial_state (rev (backtrack node [])) self = Some (state node).
Proof.
  induction node as [a s h c | a s p h c IH] using NodeAStar_induction; simpl.
  - intros Hs self. now rewrite Hs.
  - intros (Hp & legal_actions & s1 & s1' & s2 & s2' & Hl & Hin & Ha) self.
    rewrite a_star_backtrack_app, rev_app_distr. simpl.
    rewrite (replay_app N _ [a] _ _ (IH Hp self)).
    eapply replay_step; eassumption.
Qed.

Lemma a_star_expand_linked (initial_state : list Z) (node : NodeAStar)
    (legal_actions : list Z) (self1 self1' : Algorithm) :
  linked N initial_state node ->
  get_legal_actions N (state node) self1 = (Return legal_actions, self1') ->
  forall actions lst predecessors r self self',
    (forall a, In a actions -> In a legal_actions) ->
    Forall (linked N initial_state) lst ->
    expand get_evaluation node actions lst predecessors self = (Return r, self') ->
    Forall (linked N initial_state) (fst r).
Proof.
  intros Hnode Hl. induction actions as [| a actions IH];
    intros lst predecessors r self self' Hsub Hq; simpl.
  - unfold ret. now intros [= <- _].
  - unfold mbind at 1.
    destruct (apply_action (state node) a self) as [[new_state | e |] s1] eqn:Ha;
      try discriminate.
    destruct (existsb (state_eqb new_state) predecessors).
    + apply IH; [| exact Hq]. intros a' Ha'. apply Hsub. now right.
    + unfold mbind at 1, lift at 1.
      destruct (get_evaluation new_state) as [h | e |]; try discriminate.
      apply IH.
      * intros a' Ha'. apply Hsub. now right.
      * apply Forall_forall. intros x Hx. apply heappush_In in Hx.
        destruct Hx as [-> | Hx];
          [| now apply (proj1 (Forall_forall _ _) Hq)].
        simpl. split; [exact Hnode |].
        exists legal_actions, self1, self1', self, s1.
        repeat split; trivial. apply Hsub. now left.
Qed.

Lemma a_star_loop_linked (initial_state goal_state : list Z) (fuel : nat) :
  forall node lst predecessors found self self',
    linked N initial_state node ->
    Forall (linked N initial_state) lst ->
    loop N get_evaluation fuel goal_state node lst predecessors self
    = (Return found, self') ->
    linked N initial_state found /\ state found = goal_state.
Proof.
  induction fuel as [| fuel IH]; intros node lst predecessors found self self'
    Hnode Hq; simpl; [discriminate |].
  destruct (state_eqb (state node) goal_state) eqn:Hgoal.
  - unfold ret. intros [= <- _]. split; [exact Hnode | now apply state_eqb_eq].
  - destruct (HeapQ.heappop lt lst) as [[next rest] |] eqn:Hpop; [| discriminate].
    destruct (heappop_In _ _ Hpop) as (Hin & Hrest).
    assert (Hnext : linked N initial_state next)
      by now apply (proj1 (Forall_forall _ _) Hq).
    unfold mbind at 1.
    destruct (get_legal_actions N (state next) self)
      as [[legal_actions | e |] s1] eqn:Hl; try discriminate.
    unfold mbind at 1.
    destruct (expand get_evaluation next legal_actions rest predecessors s1)
      as [[r | e |] s2] eqn:He; try discriminate.
    assert (Hrest' : Forall (linked N initial_state) rest).
    { rewrite Forall_forall. intros x Hx.
      apply (proj1 (Forall_forall _ _) Hq). now apply Hrest. }
    apply IH; [exact Hnext |].
    eapply a_star_expand_linked with (node := next); try eassumption. auto.
Qed.

(** X30: the steps A* returns solve the puzzle, whatever the heuristic:
    taken in turn from the initial state, each is a legal action of the
    state it is applied to, and the last leaves the goal state. *)
Theorem a_star_steps_reach_goal (fuel : nat)
    (initial_state goal_state solution_actions : list Z) (self self' : Algorithm) :
  get_steps N get_evaluation fuel initial_state goal_state self
  = (Return solution_actions, self') ->
  forall self0, replay N initial_state solution_actions self0 = Some goal_state.
Proof.
  unfold get_steps, mbind, ret. intros H self0.
  destruct (loop N get_evaluation fuel goal_state
              (mkNodeAStar (-1) initial_state None 0 0)
              [mkNodeAStar (-1) initial_state None 0 0] [] self)
    as [[found | e |] s1] eqn:Hloop; try discriminate.
  injection H as <- _.
  destruct (@a_star_loop_linked initial_state goal_state fuel _ _ _ _ _ _
              (eq_refl : linked N initial_state
                           (mkNodeAStar (-1) initial_state None 0 0))
              (Forall_cons _ (eq_refl : linked N initial_state
                                          (mkNodeAStar (-1) initial_state None 0 0))
                 (Forall_nil _)) Hloop) as [Hlinked Hstate].
  rewrite <- Hstate. now apply a_star_linked_replay.
Qed.

End AStarFacts.

Section SearchExamples.

Import Pathfinding.

Lemma bfs_steps_are_fewest_witness :
  BFSAlgorithm_get_steps 3 10 two_moves_state sorted_state fresh
  = (Return [7; 8], mkAlgorithm 7 20)
  /\ forall other self0,
       replay 3 two_moves_state other self0 = Some sorted_state ->
       (length [7; 8] <= length other)%nat.
Proof.
  split; [vm_compute; reflexivity |].
  apply (@bfs_steps_are_fewest 3 10 two_moves_state sorted_state [7; 8] fresh
           (mkAlgorithm 7 20)).
  vm_compute. reflexivity.
Defined.

Lemma bfs_terminates_witness :
  0 < 3
  /\ len two_moves_state mod 3 = 0
  /\ In 0 two_moves_state
  /\ exists fuel self',
       (exists solution_actions,
          BFSAlgorithm_get_steps 3 fuel two_moves_state sorted_state fresh
          = (Return solution_actions, self'))
       \/ (BFSAlgorithm_get_steps 3 fuel two_moves_state sorted_state fresh
           = (Raise IndexError, self')
           /\ forall other self0,
                replay 3 two_moves_state other self0 <> Some sorted_state).
Proof.
  split; [lia |]. split; [reflexivity |]. split; [simpl; tauto |].
  apply (@bfs_terminates 3 two_moves_state sorted_state);
    [lia | reflexivity | simpl; tauto].
Defined.

Lemma best_first_steps_reach_goal_witness :
  BestFirst.get_steps 3 Hamming_get_evaluation 10 two_moves_state sorted_state fresh
  = (Return [7; 8], mkAlgorithm 3 7)
  /\ forall self0, replay 3 two_moves_state [7; 8] self0 = Some sorted_state.
Proof.
  split; [vm_compute; reflexivity |].
  apply (@best_first_steps_reach_goal 3 Hamming_get_evaluation 10 two_moves_state
           sorted_state [7; 8] fresh (mkAlgorithm 3 7)).
  vm_compute. reflexivity.
Defined.

Lemma a_star_steps_reach_goal_witness :
  AStar.get_steps 3 (ManhattanHeuristic_get_evaluation 3) 10 two_moves_state
    sorted_state fresh
  = (Return [7; 8], mkAlgorithm 3 7)
  /\ forall self0, replay 3 two_moves_state [7; 8] self0 = Some sorted_state.
Proof.
  split; [vm_compute; reflexivity |].
  apply (@a_star_steps_reach_goal 3 (ManhattanHeuristic_get_evaluation 3) 10
           two_moves_state sorted_state [7; 8] fresh (mkAlgorithm 3 7)).
  vm_compute. reflexivity.
Defined.

End SearchExamples.
